(** * hdhomerun: packet codec, transaction client, tuner enumeration, discovery

    A shallow embedding of the protocol layer of [github.com/mdlayher/hdhomerun]
    (vendored by hdhomerun_exporter): [packet.go], [client.go], [discover.go].

    Conventions.
    - A Go [byte] is a [Byte.byte]; [b2z]/[z2b] are the conversions [int(x)]
      and [byte(n)] (the latter truncates modulo 256, as Go does).
    - A Go [int] is a [Z]; slice lengths and indexes are [nat].
    - A Go [string] is its sequence of bytes.
    - A slice expression or index that Go would refuse at run time yields
      [Panic].  The bound used here is [len], which is at most [cap], so a
      computation that never yields [Panic] here never panics in Go.
    - A nil slice and an empty slice are both the empty list, except where the
      code tests a slice against nil ([Query]); there the variable is an
      [option]. *)

From Stdlib Require Import Strings.Byte Strings.String Strings.Ascii.
From Stdlib Require Import ZArith List Lia Bool Arith.
Import ListNotations.

Local Open Scope Z_scope.

(* ================================================================== *)
(** ** Bytes *)

Abbreviation byte := Byte.byte.

Definition b2z (x : byte) : Z := Z.of_N (Byte.to_N x).

Definition z2b (z : Z) : byte :=
  match Byte.of_N (Z.to_N (z mod 256)) with
  | Some b => b
  | None => x00
  end.

Definition byte_eqb (x y : byte) : bool := Byte.eqb x y.

(** [bytes.Equal(x, y)] *)
Fixpoint bytes_eqb (x y : list byte) : bool :=
  match x, y with
  | [], [] => true
  | a :: x, b :: y => byte_eqb a b && bytes_eqb x y
  | _, _ => false
  end.

(** A byte string given by its values. *)
Definition hexs (l : list Z) : list byte := map z2b l.

(** A Go string literal as bytes. *)
Definition str (s : string) : list byte := list_byte_of_string s.

(* ================================================================== *)
(** ** Errors and results *)

(** The error values that cross the functions modelled here.  Errors built
    with [errors.New] or [fmt.Errorf] at one site are one constructor, with
    the formatted operands as arguments. *)
Inductive error : Type :=
| ErrUnexpectedEOF                      (* io.ErrUnexpectedEOF *)
| EOF                                   (* io.EOF *)
| errInvalidChecksum
| errTagLengthBuffer
| ctxCanceled                           (* context.Canceled *)
| ctxDeadlineExceeded                   (* context.DeadlineExceeded *)
| DeviceError (Message : list byte)     (* *Error *)
| errExpectedGetsetReply (typ : Z)
| errMissingNameValue
| errUnexpectedQuery (name : list byte)
| errExpectedDiscoverReply (typ : Z)
| errDeviceTypeLength (l : nat)
| errDeviceIDLength (l : nat)
| errTunerCountLength (l : nat)
| errNoDeviceType
| errNoDeviceID
| retryableError (err : error)          (* *retryableError *)
| otherError (code : nat).              (* any error of a collaborator *)

Inductive result (A : Type) : Type :=
| Ok (a : A)
| Err (e : error)
| Panic
| OutOfFuel.

Arguments Ok {A} a.
Arguments Err {A} e.
Arguments Panic {A}.
Arguments OutOfFuel {A}.

Definition bind {A B : Type} (r : result A) (k : A -> result B) : result B :=
  match r with
  | Ok a => k a
  | Err e => Err e
  | Panic => Panic
  | OutOfFuel => OutOfFuel
  end.

Notation "x <- r ;; k" := (bind r (fun x => k))
  (at level 61, r at next level, right associativity).
Notation "' p <- r ;; k" := (bind r (fun p => k))
  (at level 61, p pattern, r at next level, right associativity).

Definition returns {A : Type} (r : result A) : Prop :=
  (exists a, r = Ok a) \/ (exists e, r = Err e).

(* ================================================================== *)
(** ** Slices *)

(** [b[i:j]] *)
Definition slice (b : list byte) (i j : nat) : result (list byte) :=
  if (i <=? j)%nat && (j <=? length b)%nat
  then Ok (firstn (j - i) (skipn i b))
  else Panic.

(** [b[i:]] *)
Definition slice_from (b : list byte) (i : nat) : result (list byte) :=
  slice b i (length b).

(** [b[i]] *)
Definition index (b : list byte) (i : nat) : result byte :=
  match nth_error b i with
  | Some x => Ok x
  | None => Panic
  end.

(** [b[i] = x] *)
Definition store (b : list byte) (i : nat) (x : byte) : result (list byte) :=
  if (i <? length b)%nat
  then Ok (firstn i b ++ x :: skipn (S i) b)
  else Panic.

(** The effect on [b] of writing [w] through the aliasing window [b[i:j]],
    where [length w = j - i]. *)
Definition write_back (b : list byte) (i j : nat) (w : list byte) : list byte :=
  firstn i b ++ w ++ skipn j b.

(** [copy(dst, src)]: the new [dst] and the number of bytes copied. *)
Definition copy (dst src : list byte) : list byte * nat :=
  let n := Nat.min (length dst) (length src) in
  (firstn n src ++ skipn n dst, n).

(* ================================================================== *)
(** ** encoding/binary *)

Module binary.

(** [BigEndian.PutUint16(b, v)] *)
Definition BigEndian_PutUint16 (b : list byte) (v : Z) : result (list byte) :=
  _ <- index b 1 ;;
  b <- store b 0 (z2b (Z.shiftr v 8)) ;;
  store b 1 (z2b v).

(** [BigEndian.Uint16(b)] *)
Definition BigEndian_Uint16 (b : list byte) : result Z :=
  b1 <- index b 1 ;;
  b0 <- index b 0 ;;
  Ok (Z.lor (b2z b1) (Z.shiftl (b2z b0) 8)).

(** [BigEndian.Uint32(b)] *)
Definition BigEndian_Uint32 (b : list byte) : result Z :=
  b3 <- index b 3 ;;
  b0 <- index b 0 ;;
  b1 <- index b 1 ;;
  b2 <- index b 2 ;;
  Ok (Z.lor (Z.lor (Z.lor (b2z b3) (Z.shiftl (b2z b2) 8))
                   (Z.shiftl (b2z b1) 16))
            (Z.shiftl (b2z b0) 24)).

(** [LittleEndian.PutUint32(b, v)] *)
Definition LittleEndian_PutUint32 (b : list byte) (v : Z) : result (list byte) :=
  _ <- index b 3 ;;
  b <- store b 0 (z2b v) ;;
  b <- store b 1 (z2b (Z.shiftr v 8)) ;;
  b <- store b 2 (z2b (Z.shiftr v 16)) ;;
  store b 3 (z2b (Z.shiftr v 24)).

(** [LittleEndian.Uint32(b)] *)
Definition LittleEndian_Uint32 (b : list byte) : result Z :=
  b3 <- index b 3 ;;
  b0 <- index b 0 ;;
  b1 <- index b 1 ;;
  b2 <- index b 2 ;;
  Ok (Z.lor (Z.lor (Z.lor (b2z b0) (Z.shiftl (b2z b1) 8))
                   (Z.shiftl (b2z b2) 16))
            (Z.shiftl (b2z b3) 24)).

End binary.

(* ================================================================== *)
(** ** hash/crc32 *)

(** The table-driven CRC-32 of the Go standard library ([simplePopulateTable]
    and [simpleUpdate] of hash/crc32, which every accelerated variant
    agrees with), over the IEEE polynomial. *)
Module crc32.

Definition IEEE : Z := 0xedb88320.

Definition mask32 : Z := 0xffffffff.

(** One round of the inner loop of [simplePopulateTable]. *)
Definition round (poly crc : Z) : Z :=
  if Z.land crc 1 =? 1
  then Z.lxor (Z.shiftr crc 1) poly
  else Z.shiftr crc 1.

(** Entry [i] of the table [simpleMakeTable(poly)]. *)
Definition table_entry (poly i : Z) : Z :=
  Nat.iter 8 (round poly) i.

Definition IEEETable (i : Z) : Z := table_entry IEEE i.

(** The body of the loop of [simpleUpdate]:
    [crc = tab[byte(crc)^v] ^ (crc >> 8)]. *)
Definition update_byte (crc : Z) (v : byte) : Z :=
  Z.lxor (IEEETable (Z.lxor (Z.land crc 255) (b2z v))) (Z.shiftr crc 8).

(** [simpleUpdate(crc, tab, p)] *)
Definition simpleUpdate (crc : Z) (p : list byte) : Z :=
  Z.lxor mask32 (fold_left update_byte p (Z.lxor mask32 crc)).

Definition ChecksumIEEE (data : list byte) : Z := simpleUpdate 0 data.

(** The indexes of the table, and two checks on its entries that the
    checksum facts below rest on. *)
Definition byte_values : list Z := map Z.of_nat (seq 0 256).

(** Every table entry is a 32-bit value. *)
Definition entry_32bit (i : Z) : bool :=
  (0 <=? IEEETable i) && (IEEETable i <? 2 ^ 32).

(** Two different table entries have different top bytes. *)
Definition top_bytes_differ (i j : Z) : bool :=
  (i =? j) || negb (Z.shiftr (IEEETable i) 24 =? Z.shiftr (IEEETable j) 24).

End crc32.

(* ================================================================== *)
(** ** libhdhomerun constants *)

Module libhdhomerun.
Definition MaxPacketSize : nat := 1460.
Definition TypeDiscoverReq : Z := 0x0002.
Definition TypeDiscoverRpy : Z := 0x0003.
Definition TypeGetsetReq : Z := 0x0004.
Definition TypeGetsetRpy : Z := 0x0005.
Definition TagDeviceType : byte := x01.
Definition TagDeviceId : byte := x02.
Definition TagGetsetName : byte := x03.
Definition TagGetsetValue : byte := x04.
Definition TagErrorMessage : byte := x05.
Definition TagTunerCount : byte := x10.
Definition TagBaseUrl : byte := x2a.
End libhdhomerun.

(* ================================================================== *)
(** ** packet.go *)

Definition largeTagLength : Z := 128.

Record Tag : Type := mkTag {
  tag_Type : byte;          (* uint8 *)
  tag_Data : list byte
}.

Record Packet : Type := mkPacket {
  Type_ : Z;                (* uint16 *)
  Tags : list Tag
}.

(** The zero value [Packet{}], as of [new(Packet)] or [var p Packet]. *)
Definition zeroPacket : Packet := mkPacket 0 [].

(** [writeTagLength(n, b)]: the contents of [b] afterwards and [consumed]. *)
Definition writeTagLength (n : Z) (b : list byte) : result (list byte * nat) :=
  if negb (length b =? 2)%nat then Err errTagLengthBuffer
  else if n <? largeTagLength then
    b <- store b 0 (z2b n) ;;
    Ok (b, 1%nat)
  else
    b0 <- index b 0 ;;
    b <- store b 0 (z2b (Z.lor (b2z b0) (Z.lor 0x80 (b2z (z2b (Z.land n 0xff)))))) ;;
    b1 <- index b 1 ;;
    b <- store b 1 (z2b (Z.lor (b2z b1) (b2z (z2b (Z.shiftr n 7))))) ;;
    Ok (b, 2%nat).

(** [readTagLength(b)]: [(length, consumed)]. *)
Definition readTagLength (b : list byte) : result (Z * nat) :=
  if negb (length b =? 2)%nat then Err errTagLengthBuffer
  else
    b0 <- index b 0 ;;
    if Z.land (b2z b0) 0x80 =? 0 then Ok (b2z b0, 1%nat)
    else
      let b0' := Z.land (b2z b0) 0x7f in
      b1 <- index b 1 ;;
      let b1' := Z.shiftl (b2z b1) 7 mod 65536 in
      Ok (Z.lor b0' b1', 2%nat).

(** The first loop of [MarshalBinary]: one tag's contribution to [count]. *)
Definition count_tag (count : Z) (t : Tag) : Z :=
  let tlen := if Z.of_nat (length (tag_Data t)) >=? largeTagLength then 2 else 1 in
  count + (1 + tlen + Z.of_nat (length (tag_Data t))).

(** The body of the second loop of [MarshalBinary] on the buffer [b] and the
    cursor [i]. *)
Definition marshalTag (st : list byte * nat) (t : Tag) : result (list byte * nat) :=
  let '(b, i) := st in
  b <- store b i (tag_Type t) ;;
  let i := S i in
  w <- slice b i (i + 2) ;;
  '(w, n) <- writeTagLength (Z.of_nat (length (tag_Data t))) w ;;
  let b := write_back b i (i + 2) w in
  let i := (i + n)%nat in
  dst <- slice_from b i ;;
  let '(dst, m) := copy dst (tag_Data t) in
  let b := write_back b i (length b) dst in
  Ok (b, (i + m)%nat).

Fixpoint marshalTags (st : list byte * nat) (tags : list Tag) : result (list byte * nat) :=
  match tags with
  | [] => Ok st
  | t :: tags => st <- marshalTag st t ;; marshalTags st tags
  end.

(** [Packet.MarshalBinary] *)
Definition MarshalBinary (p : Packet) : result (list byte) :=
  let count := fold_left count_tag (Tags p) 0 in
  let b := repeat x00 (Z.to_nat (2 + 2 + count + 4)) in
  w <- slice b 0 2 ;;
  w <- binary.BigEndian_PutUint16 w (Type_ p) ;;
  let b := write_back b 0 2 w in
  w <- slice b 2 4 ;;
  w <- binary.BigEndian_PutUint16 w (count mod 65536) ;;
  let b := write_back b 2 4 w in
  '(b, _) <- marshalTags (b, 4%nat) (Tags p) ;;
  w <- slice b 0 (length b - 4) ;;
  let chk := crc32.ChecksumIEEE w in
  w <- slice_from b (length b - 4) ;;
  w <- binary.LittleEndian_PutUint32 w chk ;;
  Ok (write_back b (length b - 4) (length b) w).

(** The loop of [UnmarshalBinary] from cursor [i], with the tags appended so
    far.  Every iteration advances [i], so [length b] iterations suffice;
    [fuel] bounds them. *)
Fixpoint unmarshalTags (fuel : nat) (b : list byte) (i : nat) (tags : list Tag)
  : result (list Tag) :=
  if negb (i <? length b - 4)%nat then Ok tags
  else
    match fuel with
    | O => OutOfFuel
    | S fuel =>
        ty <- index b i ;;
        let i := S i in
        w <- slice b i (i + 2) ;;
        '(tlen, consumed) <- readTagLength w ;;
        let i := (i + consumed)%nat in
        rest <- slice_from b i ;;
        if Z.of_nat (length rest) - 4 <? tlen then Err ErrUnexpectedEOF
        else
          d <- slice b i (i + Z.to_nat tlen) ;;
          let data := fst (copy (repeat x00 (length d)) d) in
          unmarshalTags fuel b (i + Z.to_nat tlen) (tags ++ [mkTag ty data])
    end.

(** [Packet.UnmarshalBinary] with receiver [p]: the receiver afterwards when
    the call returns nil.  (On an error the callers drop the receiver.) *)
Definition UnmarshalBinary (p : Packet) (b : list byte) : result Packet :=
  if (length b <? 8)%nat then Err ErrUnexpectedEOF
  else
    w <- slice_from b (length b - 4) ;;
    want <- binary.LittleEndian_Uint32 w ;;
    w <- slice b 0 (length b - 4) ;;
    let got := crc32.ChecksumIEEE w in
    if negb (want =? got) then Err errInvalidChecksum
    else
      w <- slice b 0 2 ;;
      typ <- binary.BigEndian_Uint16 w ;;
      let p := mkPacket typ (Tags p) in
      w <- slice b 2 4 ;;
      len <- binary.BigEndian_Uint16 w ;;
      if negb (len =? Z.of_nat (length b) - 8) then Err ErrUnexpectedEOF
      else if len =? 0 then Ok p
      else
        tags <- unmarshalTags (length b) b 4 [] ;;
        Ok (mkPacket (Type_ p) tags).

(** Decoding into a fresh [Packet], as every caller does. *)
Definition decode (b : list byte) : result Packet := UnmarshalBinary zeroPacket b.

(** [Fuzz(data)], the go-fuzz entry point of the package: it panics when
    re-encoding a decoded packet fails or gives other bytes than [data]. *)
Definition Fuzz (data : list byte) : result Z :=
  match UnmarshalBinary zeroPacket data with
  | Err _ => Ok 0
  | Ok p =>
      match MarshalBinary p with
      | Ok pb => if bytes_eqb data pb then Ok 1 else Panic
      | Err _ => Panic
      | Panic => Panic
      | OutOfFuel => OutOfFuel
      end
  | Panic => Panic
  | OutOfFuel => OutOfFuel
  end.

(* ================================================================== *)
(** ** client.go *)

Definition unknownGetSet : list byte := str "unknown getset variable".
Definition errorPrefix : list byte := str "ERROR: ".

(** [bytes.TrimSuffix(b, []byte{0x00})] *)
Definition TrimSuffix0 (b : list byte) : list byte :=
  match rev b with
  | x :: r => if byte_eqb x x00 then rev r else b
  | [] => b
  end.

(** [strings.HasPrefix(s, prefix)] and [strings.TrimPrefix(s, prefix)] *)
Fixpoint HasPrefix (s prefix : list byte) : bool :=
  match prefix, s with
  | [], _ => true
  | p :: prefix, x :: s => byte_eqb x p && HasPrefix s prefix
  | _ :: _, [] => false
  end.

Definition TrimPrefix (s prefix : list byte) : list byte :=
  if HasPrefix s prefix then skipn (length prefix) s else s.

Definition bytesStr (b : list byte) : list byte := TrimSuffix0 b.

Definition strBytes (s : list byte) : list byte := s ++ [x00].

(** [newError(b)]: the [*Error] whose [Message] is [b] without the terminator
    and the prefix. *)
Definition newError (b : list byte) : error :=
  DeviceError (TrimPrefix (bytesStr b) errorPrefix).

(** [IsNotExist(err)]; [None] is the nil error. *)
Definition IsNotExist (err : option error) : bool :=
  match err with
  | Some (DeviceError Message) => bytes_eqb Message unknownGetSet
  | _ => false
  end.

(** The calls a [Client] makes on its [net.Conn]. *)
Inductive Call : Type :=
| CallSetDeadline (t : Z)
| CallWrite (p : list byte)
| CallRead (len : nat).

(** A [net.Conn] as an oracle: the calls received so far, in order, and the
    answer of the connection to the next call given those. *)
Record Conn : Type := mkConn {
  calls : list Call;
  onSetDeadline : list Call -> Z -> option error;
  onWrite : list Call -> list byte -> nat * option error;
  (** the bytes that arrive, and the error *)
  onRead : list Call -> nat -> list byte * option error
}.

Definition record_call (c : Conn) (k : Call) : Conn :=
  mkConn (calls c ++ [k]) (onSetDeadline c) (onWrite c) (onRead c).

Definition Conn_SetDeadline (c : Conn) (t : Z) : Conn * option error :=
  (record_call c (CallSetDeadline t), onSetDeadline c (calls c) t).

Definition Conn_Write (c : Conn) (p : list byte) : Conn * (nat * option error) :=
  (record_call c (CallWrite p), onWrite c (calls c) p).

(** [n, err := c.Read(b)]: the connection, [b] afterwards, [n] and [err].
    At most [len(b)] bytes are read. *)
Definition Conn_Read (c : Conn) (b : list byte)
  : Conn * list byte * nat * option error :=
  let len := length b in
  let '(data, err) := onRead c (calls c) len in
  let '(b, n) := copy b data in
  (record_call c (CallRead len), b, n, err).

Record Client : Type := mkClient {
  c : Conn;
  b : list byte;
  timeout : Z             (* time.Duration *)
}.

Definition NewClient (conn : Conn) : Client :=
  mkClient conn (repeat x00 libhdhomerun.MaxPacketSize) 0.

Definition SetTimeout (cl : Client) (d : Z) : Client :=
  mkClient (c cl) (b cl) d.

(** [(c *Client).Execute(req)], where [now] is what [time.Now()] returns.
    The mutex is held throughout; calls on one client do not interleave. *)
Definition Execute (cl : Client) (now : Z) (req : Packet) : Client * result Packet :=
  let '(conn, derr) :=
    if negb (timeout cl =? 0)
    then Conn_SetDeadline (c cl) (now + timeout cl)
    else (c cl, None) in
  match derr with
  | Some err => (mkClient conn (b cl) (timeout cl), Err err)
  | None =>
      match MarshalBinary req with
      | Ok pb =>
          let '(conn, (_, werr)) := Conn_Write conn pb in
          match werr with
          | Some err => (mkClient conn (b cl) (timeout cl), Err err)
          | None =>
              let '(conn, buf, n, rerr) := Conn_Read conn (b cl) in
              let cl := mkClient conn buf (timeout cl) in
              match rerr with
              | Some err => (cl, Err err)
              | None => (cl, w <- slice buf 0 n ;; UnmarshalBinary zeroPacket w)
              end
          end
      | Err err => (mkClient conn (b cl) (timeout cl), Err err)
      | Panic => (mkClient conn (b cl) (timeout cl), Panic)
      | OutOfFuel => (mkClient conn (b cl) (timeout cl), OutOfFuel)
      end
  end.

(** The loop of [Query] over [rep.Tags], with the variables [name] and
    [value] ([None] is nil; the data of a decoded tag is never nil). *)
Fixpoint scanReply (tags : list Tag) (name value : option (list byte))
  : result (option (list byte) * option (list byte)) :=
  match tags with
  | [] => Ok (name, value)
  | t :: tags =>
      if byte_eqb (tag_Type t) libhdhomerun.TagGetsetName
      then scanReply tags (Some (tag_Data t)) value
      else if byte_eqb (tag_Type t) libhdhomerun.TagGetsetValue
      then scanReply tags name (Some (tag_Data t))
      else if byte_eqb (tag_Type t) libhdhomerun.TagErrorMessage
      then Err (newError (tag_Data t))
      else scanReply tags name value
  end.

(** [Query] from the reply of [Execute] on. *)
Definition Query_reply (queryb : list byte) (rep : Packet) : result (list byte) :=
  if negb (Type_ rep =? libhdhomerun.TypeGetsetRpy)
  then Err (errExpectedGetsetReply (Type_ rep))
  else
    '(name, value) <- scanReply (Tags rep) None None ;;
    match name, value with
    | Some name, Some value =>
        if negb (bytes_eqb name queryb)
        then Err (errUnexpectedQuery (bytesStr name))
        else Ok value
    | _, _ => Err errMissingNameValue
    end.

(** [(c *Client).Query(query)] *)
Definition Query (cl : Client) (now : Z) (query : list byte)
  : Client * result (list byte) :=
  let queryb := strBytes query in
  let req := mkPacket libhdhomerun.TypeGetsetReq
               [mkTag libhdhomerun.TagGetsetName queryb] in
  let '(cl, rep) := Execute cl now req in
  (cl, rep <- rep ;; Query_reply queryb rep).

(** [(c *Client).ForEachTuner(fn)].  [Debug i] is the error of
    [c.Tuner(i).Debug()] and [fn i] the error of the callback on tuner [i]
    ([None] is nil).  The loop has no bound of its own; [fuel] bounds the
    iterations.  The result carries the indexes [fn] was invoked on, in
    order. *)
Section ForEachTuner.

Variable Debug : nat -> option error.
Variable fn : nat -> option error.

Fixpoint ForEachTuner_from (fuel : nat) (i : nat) (visited : list nat)
  : list nat * result unit :=
  match fuel with
  | O => (visited, OutOfFuel)
  | S fuel =>
      match Debug i with
      | Some err =>
          if IsNotExist (Some err) then (visited, Ok tt)
          else (visited, Err err)
      | None =>
          match fn i with
          | Some err => (visited ++ [i], Err err)
          | None => ForEachTuner_from fuel (S i) (visited ++ [i])
          end
      end
  end.

Definition ForEachTuner (fuel : nat) : list nat * result unit :=
  ForEachTuner_from fuel 0 [].

End ForEachTuner.

(* ================================================================== *)
(** ** discover.go *)

(** [hex.EncodeToString] *)
Definition hextable : list byte := str "0123456789abcdef".

Definition hex_EncodeToString (src : list byte) : list byte :=
  flat_map (fun v =>
    [nth (Z.to_nat (Z.shiftr (b2z v) 4)) hextable x00;
     nth (Z.to_nat (Z.land (b2z v) 0x0f)) hextable x00]) src.

Section Discovery.

(** [net/url]: the parsed URL and [url.Parse]. *)
Variable URL : Type.
Variable url_Parse : list byte -> URL + error.

Record DiscoveredDevice : Type := mkDiscoveredDevice {
  ID : list byte;
  Addr : list byte;
  Type__ : Z;               (* DeviceType *)
  URL_ : option URL;
  Tuners : Z
}.

(** The body of the loop of [parseTags]. *)
Definition parseTag (d : DiscoveredDevice) (t : Tag) : result DiscoveredDevice :=
  if byte_eqb (tag_Type t) libhdhomerun.TagDeviceType then
    if negb (length (tag_Data t) =? 4)%nat
    then Err (errDeviceTypeLength (length (tag_Data t)))
    else
      v <- binary.BigEndian_Uint32 (tag_Data t) ;;
      Ok (mkDiscoveredDevice (ID d) (Addr d) v (URL_ d) (Tuners d))
  else if byte_eqb (tag_Type t) libhdhomerun.TagDeviceId then
    if negb (length (tag_Data t) =? 4)%nat
    then Err (errDeviceIDLength (length (tag_Data t)))
    else
      Ok (mkDiscoveredDevice (hex_EncodeToString (tag_Data t)) (Addr d)
            (Type__ d) (URL_ d) (Tuners d))
  else if byte_eqb (tag_Type t) libhdhomerun.TagBaseUrl then
    match url_Parse (tag_Data t) with
    | inr err => Err err
    | inl u =>
        Ok (mkDiscoveredDevice (ID d) (Addr d) (Type__ d) (Some u) (Tuners d))
    end
  else if byte_eqb (tag_Type t) libhdhomerun.TagTunerCount then
    if negb (length (tag_Data t) =? 1)%nat
    then Err (errTunerCountLength (length (tag_Data t)))
    else
      x <- index (tag_Data t) 0 ;;
      Ok (mkDiscoveredDevice (ID d) (Addr d) (Type__ d) (URL_ d) (b2z x))
  else Ok d.

(** [(d *DiscoveredDevice).parseTags(tags)]: [d] afterwards. *)
Fixpoint parseTags (d : DiscoveredDevice) (tags : list Tag)
  : result DiscoveredDevice :=
  match tags with
  | [] => Ok d
  | t :: tags => d <- parseTag d t ;; parseTags d tags
  end.

Definition newDiscoveredDevice (addr : list byte) (p : Packet)
  : result DiscoveredDevice :=
  if negb (Type_ p =? libhdhomerun.TypeDiscoverRpy)
  then Err (errExpectedDiscoverReply (Type_ p))
  else
    let device := mkDiscoveredDevice [] addr 0 None 0 in
    device <- parseTags device (Tags p) ;;
    if Type__ device =? 0 then Err errNoDeviceType
    else if bytes_eqb (ID device) [] then Err errNoDeviceID
    else Ok device.

(** What ends a call of [d.c.ReadFrom(b)] on the open socket: a datagram
    with its source address, or a failure of the network.  The error of a
    read comes from the net package; it is never a [retryableError], which
    only [discover] makes. *)
Inductive ReadEvent : Type :=
| Datagram (data : list byte) (addr : list byte)
| ReadError (err : error).

(** [net.ErrClosed], the error of a read on a socket that has been closed. *)
Definition net_ErrClosed : error := otherError 0.

(** [discover] after a successful read and the send on [msgC]: the bytes
    read into the 2048-byte buffer are decoded and the device is made. *)
Definition discover_reply (data addr : list byte) : result DiscoveredDevice :=
  let '(b, n) := copy (repeat x00 2048) data in
  w <- slice b 0 n ;;
  match UnmarshalBinary zeroPacket w with
  | Ok p =>
      match newDiscoveredDevice addr p with
      | Ok device => Ok device
      | Err err => Err (retryableError err)
      | Panic => Panic
      | OutOfFuel => OutOfFuel
      end
  | Err err => Err (retryableError err)
  | Panic => Panic
  | OutOfFuel => OutOfFuel
  end.

(** The type assertion of [Discover] on the error that [discover]
    returned: whether it is a [retryableError]. *)
Definition retryable {A : Type} (r : result A) : bool :=
  match r with
  | Err (retryableError _) => true
  | _ => false
  end.

(** [Discover] runs two goroutines at a time: the caller's, and the watcher
    that each call of [discover] starts.  They share the context, the socket
    and the channel [msgC] of the call.  Each has a program counter, named
    after the statement it is about to run.

    The watcher:
      [select { case <-ctx.Done(): _ = d.c.Close(); case <-msgC: }]
    followed by its deferred calls, [wg.Done()] and then [close(msgC)]. *)
Inductive WatcherPC : Type :=
| W_select
| W_close_socket              (* took <-ctx.Done(): at d.c.Close() *)
| W_wg_done                   (* at the deferred wg.Done() *)
| W_close_msgC                (* at the deferred close(msgC) *)
| W_exited.

(** The caller. *)
Inductive MainPC : Type :=
| M_entry                     (* the select at the head of Discover *)
| M_call                      (* the head of the for loop: calls d.discover *)
| M_read                      (* in d.c.ReadFrom(b) *)
| M_read_failed (err : error) (* the read returned err: at cerr := ctx.Err() *)
| M_send_failed (err : error) (cerr : option error)
                              (* at msgC <- struct{}{} after a failed read *)
| M_close (err : error) (cerr : option error)
                              (* at d.c.Close() after that send *)
| M_send_ok (data addr : list byte)
                              (* at msgC <- struct{}{} after a datagram *)
| M_decode (data addr : list byte)
                              (* at UnmarshalBinary after that send *)
| M_wait (r : result DiscoveredDevice)
                              (* discover returns r: at the deferred wg.Wait() *)
| M_done (r : result DiscoveredDevice).
                              (* Discover has returned r; Panic: it panicked *)

(** The shared state: [ctx.Err()] ([None] while [ctx.Done()] is open), the
    socket, the datagrams and failures waiting at the socket, the channel of
    the current call of [discover], and the two program counters. *)
Record DiscoverState : Type := mkDiscoverState {
  ctx_err : option error;
  socket_closed : bool;
  queue : list ReadEvent;
  msgC_closed : bool;
  watcher : WatcherPC;
  main : MainPC
}.

Definition set_main (s : DiscoverState) (pc : MainPC) : DiscoverState :=
  mkDiscoverState (ctx_err s) (socket_closed s) (queue s) (msgC_closed s)
    (watcher s) pc.

(** A step of the caller's goroutine; a blocked statement leaves the state
    as it is.
    - A send on [msgC] completes only together with the watcher's receive
      ([WatcherTakesMsg] below); on the closed channel it panics.  The
      deferred [wg.Wait()] does not hold up that panic: the watcher calls
      [wg.Done()] before it closes the channel.
    - [wg.Wait()] returns once the watcher has called [wg.Done()].  When
      [Discover] then calls [discover] again, the statement the old watcher
      may still have to run is the close of the old channel, which nothing
      else refers to; the state keeps the watcher and the channel of the
      new call only. *)
Definition Main_step (s : DiscoverState) : DiscoverState :=
  match main s with
  | M_entry =>
      match ctx_err s with
      | Some cerr =>
          mkDiscoverState (ctx_err s) true (queue s) (msgC_closed s) (watcher s)
            (M_done match cerr with
                    | ctxCanceled | ctxDeadlineExceeded => Err EOF
                    | _ => Err cerr
                    end)
      | None => set_main s M_call
      end
  | M_call =>
      mkDiscoverState (ctx_err s) (socket_closed s) (queue s) false W_select M_read
  | M_read =>
      if socket_closed s then set_main s (M_read_failed net_ErrClosed)
      else
        match queue s with
        | [] => s
        | Datagram data addr :: q =>
            mkDiscoverState (ctx_err s) (socket_closed s) q (msgC_closed s)
              (watcher s) (M_send_ok data addr)
        | ReadError err :: q =>
            mkDiscoverState (ctx_err s) (socket_closed s) q (msgC_closed s)
              (watcher s) (M_read_failed err)
        end
  | M_read_failed err =>
      match ctx_err s with
      | Some ctxCanceled | Some ctxDeadlineExceeded => set_main s (M_wait (Err EOF))
      | cerr => set_main s (M_send_failed err cerr)
      end
  | M_send_failed _ _ =>
      if msgC_closed s then set_main s (M_done Panic) else s
  | M_close err cerr =>
      mkDiscoverState (ctx_err s) true (queue s) (msgC_closed s) (watcher s)
        (M_wait match cerr with
                | None => Err err
                | Some cerr => Err cerr
                end)
  | M_send_ok _ _ =>
      if msgC_closed s then set_main s (M_done Panic) else s
  | M_decode data addr => set_main s (M_wait (discover_reply data addr))
  | M_wait r =>
      match watcher s with
      | W_close_msgC | W_exited =>
          if retryable r then set_main s M_call else set_main s (M_done r)
      | _ => s
      end
  | M_done _ => s
  end.

(** What can happen next: the context is cancelled or expires, something
    arrives at the socket, the caller runs its next statement, the watcher's
    [select] takes one of its two cases (the receive, together with the
    caller's pending send), or the watcher runs its next statement. *)
Inductive Action : Type :=
| CtxDone (cerr : error)
| Arrive (ev : ReadEvent)
| MainStep
| WatcherTakesDone
| WatcherTakesMsg
| WatcherStep.

Definition Discover_step (s : DiscoverState) (a : Action) : DiscoverState :=
  match a with
  | CtxDone cerr =>
      match ctx_err s with
      | None =>
          mkDiscoverState (Some cerr) (socket_closed s) (queue s) (msgC_closed s)
            (watcher s) (main s)
      | Some _ => s
      end
  | Arrive ev =>
      mkDiscoverState (ctx_err s) (socket_closed s) (queue s ++ [ev])
        (msgC_closed s) (watcher s) (main s)
  | MainStep => Main_step s
  | WatcherTakesDone =>
      match watcher s, ctx_err s with
      | W_select, Some _ =>
          mkDiscoverState (ctx_err s) (socket_closed s) (queue s) (msgC_closed s)
            W_close_socket (main s)
      | _, _ => s
      end
  | WatcherTakesMsg =>
      match watcher s, main s with
      | W_select, M_send_failed err cerr =>
          mkDiscoverState (ctx_err s) (socket_closed s) (queue s) (msgC_closed s)
            W_wg_done (M_close err cerr)
      | W_select, M_send_ok data addr =>
          mkDiscoverState (ctx_err s) (socket_closed s) (queue s) (msgC_closed s)
            W_wg_done (M_decode data addr)
      | _, _ => s
      end
  | WatcherStep =>
      match watcher s with
      | W_close_socket =>
          mkDiscoverState (ctx_err s) true (queue s) (msgC_closed s)
            W_wg_done (main s)
      | W_wg_done =>
          mkDiscoverState (ctx_err s) (socket_closed s) (queue s) (msgC_closed s)
            W_close_msgC (main s)
      | W_close_msgC =>
          mkDiscoverState (ctx_err s) (socket_closed s) (queue s) true
            W_exited (main s)
      | _ => s
      end
  end.

(** An interleaving, from a state on. *)
Definition Discover_run (acts : list Action) (s : DiscoverState) : DiscoverState :=
  fold_left Discover_step acts s.

(** The state when [Discover] is called: the context as it is then, the
    socket open, with [q] waiting at it. *)
Definition Discover_init (ctx : option error) (q : list ReadEvent)
  : DiscoverState :=
  mkDiscoverState ctx false q false W_exited M_entry.

(** [(d *Discoverer).Discover(ctx)] under the interleaving [acts]: what it
    has returned, or [None] when it has not returned yet. *)
Definition Discover (ctx : option error) (q : list ReadEvent)
           (acts : list Action) : option (result DiscoveredDevice) :=
  match main (Discover_run acts (Discover_init ctx q)) with
  | M_done r => Some r
  | _ => None
  end.

End Discovery.

Arguments ID {URL} _.
Arguments Addr {URL} _.
Arguments Type__ {URL} _.
Arguments URL_ {URL} _.
Arguments Tuners {URL} _.
Arguments mkDiscoveredDevice {URL} _ _ _ _ _.
Arguments M_entry {URL}.
Arguments M_call {URL}.
Arguments M_read {URL}.
Arguments M_read_failed {URL} _.
Arguments M_send_failed {URL} _ _.
Arguments M_close {URL} _ _.
Arguments M_send_ok {URL} _ _.
Arguments M_decode {URL} _ _.
Arguments M_wait {URL} _.
Arguments M_done {URL} _.
Arguments mkDiscoverState {URL} _ _ _ _ _ _.
Arguments ctx_err {URL} _.
Arguments socket_closed {URL} _.
Arguments queue {URL} _.
Arguments msgC_closed {URL} _.
Arguments watcher {URL} _.
Arguments main {URL} _.
Arguments set_main {URL} _ _.
Arguments Discover_init {URL} _ _.

(* ================================================================== *)
(** ** Vocabulary of the statements *)

Section Discovery_steps.

Variable URL : Type.
Variable url_Parse : list byte -> URL + error.

(** What one round of [parseTags] does to each field of the device. *)
Definition type_step (t : Tag) (d d1 : DiscoveredDevice URL) : Prop :=
  if byte_eqb (tag_Type t) libhdhomerun.TagDeviceType
  then binary.BigEndian_Uint32 (tag_Data t) = Ok (Type__ d1)
  else Type__ d1 = Type__ d.

Definition id_step (t : Tag) (d d1 : DiscoveredDevice URL) : Prop :=
  if byte_eqb (tag_Type t) libhdhomerun.TagDeviceId
  then ID d1 = hex_EncodeToString (tag_Data t)
  else ID d1 = ID d.

Definition url_step (t : Tag) (d d1 : DiscoveredDevice URL) : Prop :=
  if byte_eqb (tag_Type t) libhdhomerun.TagBaseUrl
  then exists u, url_Parse (tag_Data t) = inl u /\ URL_ d1 = Some u
  else URL_ d1 = URL_ d.

Definition tuners_step (t : Tag) (d d1 : DiscoveredDevice URL) : Prop :=
  if byte_eqb (tag_Type t) libhdhomerun.TagTunerCount
  then exists x, tag_Data t = [x] /\ Tuners d1 = b2z x
  else Tuners d1 = Tuners d.

(** The error with which [parseTags] rejects a tag, if it does: a
    device-type or device-ID tag not of four bytes, a tuner-count tag not of
    one byte, a base URL that does not parse. *)
Definition tag_error (t : Tag) : option error :=
  if byte_eqb (tag_Type t) libhdhomerun.TagDeviceType then
    if (length (tag_Data t) =? 4)%nat then None
    else Some (errDeviceTypeLength (length (tag_Data t)))
  else if byte_eqb (tag_Type t) libhdhomerun.TagDeviceId then
    if (length (tag_Data t) =? 4)%nat then None
    else Some (errDeviceIDLength (length (tag_Data t)))
  else if byte_eqb (tag_Type t) libhdhomerun.TagBaseUrl then
    match url_Parse (tag_Data t) with
    | inr err => Some err
    | inl _ => None
    end
  else if byte_eqb (tag_Type t) libhdhomerun.TagTunerCount then
    if (length (tag_Data t) =? 1)%nat then None
    else Some (errTunerCountLength (length (tag_Data t)))
  else None.

Fixpoint first_tag_error (tags : list Tag) : option error :=
  match tags with
  | [] => None
  | t :: tags =>
      match tag_error t with
      | Some e => Some e
      | None => first_tag_error tags
      end
  end.

End Discovery_steps.

Arguments type_step {URL} _ _ _.
Arguments id_step {URL} _ _ _.
Arguments url_step {URL} _ _ _ _.
Arguments tuners_step {URL} _ _ _.
Arguments tag_error {URL} _ _.
Arguments first_tag_error {URL} _ _.

(** The data of the first and of the last tag of type [ty] in [tags]. *)
Fixpoint first_occurrence (ty : byte) (tags : list Tag) : option (list byte) :=
  match tags with
  | [] => None
  | t :: tags =>
      if byte_eqb (tag_Type t) ty then Some (tag_Data t)
      else first_occurrence ty tags
  end.

Fixpoint last_occurrence (ty : byte) (tags : list Tag) : option (list byte) :=
  match tags with
  | [] => None
  | t :: tags =>
      match last_occurrence ty tags with
      | Some data => Some data
      | None => if byte_eqb (tag_Type t) ty then Some (tag_Data t) else None
      end
  end.

Definition has_tag (ty : byte) (tags : list Tag) : bool :=
  existsb (fun t => byte_eqb (tag_Type t) ty) tags.

(** A connection that accepts every call and delivers an empty get/set
    reply to every read; a client on it with a timeout of 5; a request with
    one empty name tag. *)
Definition example_conn : Conn :=
  mkConn []
    (fun _ _ => None)
    (fun _ p => (length p, None))
    (fun _ _ => (hexs [0; 5; 0; 0; 0xf7; 0x1d; 0x8f; 0x27], None)).

Definition example_client : Client := SetTimeout (NewClient example_conn) 5.

Definition example_request : Packet :=
  mkPacket libhdhomerun.TypeGetsetReq [mkTag libhdhomerun.TagGetsetName [x00]].

(** The reading of "the consumers use the first occurrence of a recognized
    type": what [Query] returns is the data of the first value tag, and the
    device ID that [parseTags] leaves is that of the first device-ID tag. *)
Definition Query_uses_first_occurrence : Prop :=
  forall (query : list byte) (rep : Packet) (v : list byte),
    Query_reply (strBytes query) rep = Ok v ->
    first_occurrence libhdhomerun.TagGetsetValue (Tags rep) = Some v.

Definition parseTags_uses_first_occurrence
           (URL : Type) (url_Parse : list byte -> URL + error) : Prop :=
  forall (d d' : DiscoveredDevice URL) (tags : list Tag) (data : list byte),
    parseTags URL url_Parse d tags = Ok d' ->
    first_occurrence libhdhomerun.TagDeviceId tags = Some data ->
    ID d' = hex_EncodeToString data.

(** A datagram that is not a usable discover reply: its first 2048 bytes do
    not decode, or decode to a packet of another type, or to one without a
    device-type tag or without a device-ID tag. *)
Definition malformed_reply (data : list byte) : Prop :=
  (exists e, decode (firstn 2048 data) = Err e) \/
  (exists p, decode (firstn 2048 data) = Ok p /\
     (Type_ p <> libhdhomerun.TypeDiscoverRpy \/
      has_tag libhdhomerun.TagDeviceType (Tags p) = false \/
      has_tag libhdhomerun.TagDeviceId (Tags p) = false)).

Definition malformed_datagram (ev : ReadEvent) : Prop :=
  exists data addr, ev = Datagram data addr /\ malformed_reply data.

(** The two errors a context gives once it is done, by the contract of
    [context.Context]. *)
Definition ctx_fired (cerr : error) : Prop :=
  cerr = ctxCanceled \/ cerr = ctxDeadlineExceeded.

(** Interleavings in which the context does not become done, and
    interleavings of the two goroutines alone. *)
Definition keeps_context (a : Action) : Prop :=
  match a with
  | CtxDone _ => False
  | _ => True
  end.

Definition goroutine_step (a : Action) : Prop :=
  match a with
  | CtxDone _ | Arrive _ => False
  | _ => True
  end.

(** What arrives at the socket during an interleaving. *)
Definition arrivals (acts : list Action) : list ReadEvent :=
  flat_map (fun a => match a with Arrive ev => [ev] | _ => [] end) acts.

(** Interleavings in which the context, when it becomes done, gives one of
    its two errors. *)
Definition contract_action (a : Action) : Prop :=
  match a with
  | CtxDone cerr => ctx_fired cerr
  | _ => True
  end.

(** A read failure is an error of the net package. *)
Definition event_ok (ev : ReadEvent) : Prop :=
  match ev with
  | ReadError err => forall e, err <> retryableError e
  | Datagram _ _ => True
  end.

Section Discover_sequential.

Variable URL : Type.
Variable url_Parse : list byte -> URL + error.

(** The sequential reading of [Discover] while the context is live: what
    one call of [discover] returns on the outcome of its read, and the loop
    over the successive reads ([None]: still waiting). *)
Definition discover_live (ev : ReadEvent) : result (DiscoveredDevice URL) :=
  match ev with
  | ReadError err => Err err
  | Datagram data addr => discover_reply URL url_Parse data addr
  end.

Fixpoint Discover_live (events : list ReadEvent)
  : option (result (DiscoveredDevice URL)) :=
  match events with
  | [] => None
  | ev :: events =>
      if retryable (discover_live ev) then Discover_live events
      else Some (discover_live ev)
  end.

(** What holds of every state of [Discover] that is reached while the
    context is live, [E] being all that was waiting at the socket or has
    arrived: the reads made so far were all retried, and the caller is at
    the read that follows in [E], or is working on it. *)
Definition live_inv (E : list ReadEvent) (s : DiscoverState URL) : Prop :=
  ctx_err s = None /\ watcher s <> W_close_socket /\ Forall event_ok E /\
  exists past,
    Discover_live past = None /\
    match main s with
    | M_entry | M_call =>
        E = past ++ queue s /\ socket_closed s = false
    | M_read =>
        E = past ++ queue s /\ socket_closed s = false /\
        watcher s = W_select /\ msgC_closed s = false
    | M_read_failed err =>
        E = past ++ ReadError err :: queue s /\
        watcher s = W_select /\ msgC_closed s = false
    | M_send_failed err cerr =>
        cerr = None /\ E = past ++ ReadError err :: queue s /\
        watcher s = W_select /\ msgC_closed s = false
    | M_close err cerr =>
        cerr = None /\ E = past ++ ReadError err :: queue s
    | M_send_ok data addr =>
        E = past ++ Datagram data addr :: queue s /\ socket_closed s = false /\
        watcher s = W_select /\ msgC_closed s = false
    | M_decode data addr =>
        E = past ++ Datagram data addr :: queue s /\ socket_closed s = false
    | M_wait r =>
        exists ev, E = past ++ ev :: queue s /\ discover_live ev = r /\
                   (socket_closed s = true -> exists err, ev = ReadError err)
    | M_done r =>
        exists ev, E = past ++ ev :: queue s /\ discover_live ev = r /\
                   retryable r = false
    end.

(** Where the caller can be when the context fires while nothing is
    waiting at the socket, and afterwards. *)
Definition idle_pc (m : MainPC URL) : Prop :=
  m = M_entry \/ m = M_call \/ m = M_read.

Definition cancel_pc (m : MainPC URL) : Prop :=
  idle_pc m \/ (exists err, m = M_read_failed err) \/
  m = M_wait (Err EOF) \/ m = M_done (Err EOF).

(** The reading of "a received malformed datagram never makes [Discover]
    return, the loop goes on waiting": whenever the caller has read a
    malformed datagram, whatever happens next, the loop can still come back
    to its read. *)
Definition malformed_always_retried : Prop :=
  forall (q : list ReadEvent) (acts acts' : list Action)
         (data addr : list byte),
    main (Discover_run URL url_Parse acts (Discover_init None q))
    = M_send_ok data addr ->
    malformed_reply data ->
    exists acts'',
      main (Discover_run URL url_Parse (acts ++ acts' ++ acts'')
              (Discover_init None q)) = M_read.

End Discover_sequential.

Arguments idle_pc {URL} _.
Arguments cancel_pc {URL} _.

(** The reading of "a valid 8-byte input decodes to a Packet with no tags"
    for [UnmarshalBinary] as it is, a method on a receiver. *)
Definition empty_payload_gives_no_tags : Prop :=
  forall (p : Packet) (b : list byte) (q : Packet),
    length b = 8%nat ->
    UnmarshalBinary p b = Ok q ->
    Tags q = [].

(** The two bytes [writeTagLength] leaves in a zeroed buffer for a large [n]. *)
Definition large_b0 (n : Z) : byte :=
  z2b (Z.lor (b2z x00) (Z.lor 0x80 (b2z (z2b (Z.land n 0xff))))).
Definition large_b1 (n : Z) : byte :=
  z2b (Z.lor (b2z x00) (b2z (z2b (Z.shiftr n 7)))).

(** The two bytes it leaves in a buffer that held [x] and [y], and the
    length that the old bytes alone would read as in the two-byte form. *)
Definition ored_b0 (x : byte) (n : Z) : byte :=
  z2b (Z.lor (b2z x) (Z.lor 0x80 (b2z (z2b (Z.land n 0xff))))).
Definition ored_b1 (y : byte) (n : Z) : byte :=
  z2b (Z.lor (b2z y) (b2z (z2b (Z.shiftr n 7)))).
Definition old_length_bits (x y : byte) : Z :=
  Z.lor (Z.land (b2z x) 0x7f) (Z.shiftl (b2z y) 7 mod 65536).

(** The reading of "for every 128 <= n <= 32767 [writeTagLength] encodes
    [n] as two bytes from which [readTagLength] recovers [n]" for
    [writeTagLength] as it is, on any two-byte buffer. *)
Definition large_length_recovered : Prop :=
  forall (n : Z) (x y : byte),
    128 <= n <= 32767 ->
    exists b0 b1 : byte,
      writeTagLength n [x; y] = Ok ([b0; b1], 2%nat) /\
      Z.testbit (b2z b0) 7 = true /\
      readTagLength [b0; b1] = Ok (n, 2%nat).

(** An 11-byte input whose single tag has length 0 written in the two-byte
    form [0x80 0x00]. *)
Definition noncanonical_input : list byte :=
  hexs [0x00; 0x03; 0x00; 0x03; 0x01; 0x80; 0x00; 0x42; 0xf0; 0x0c; 0x33].

(** The calls [Execute] makes for the deadline, and the outcome of that
    stage. *)
Definition deadline_calls (cl : Client) (now : Z) : list Call :=
  if timeout cl =? 0 then [] else [CallSetDeadline (now + timeout cl)].

Definition deadline_error (cl : Client) (now : Z) : option error :=
  if timeout cl =? 0 then None
  else onSetDeadline (c cl) (calls (c cl)) (now + timeout cl).


(* ================================================================== *)
(** ** The wire format, read off a byte string *)

(** These definitions describe an input by position and arithmetic only; the
    statements about [UnmarshalBinary] are phrased with them. *)

Definition byte_at (b : list byte) (i : nat) : byte := nth i b x00.

(** The checksum stored in the last four bytes, little-endian. *)
Definition stored_checksum (b : list byte) : Z :=
  let k := (length b - 4)%nat in
  b2z (byte_at b k) + 2 ^ 8 * b2z (byte_at b (k + 1))
  + 2 ^ 16 * b2z (byte_at b (k + 2)) + 2 ^ 24 * b2z (byte_at b (k + 3)).

(** The CRC-32 of every byte before the checksum field. *)
Definition computed_checksum (b : list byte) : Z :=
  crc32.ChecksumIEEE (firstn (length b - 4) b).

(** The packet type and the payload length of the header, big-endian. *)
Definition declared_type (b : list byte) : Z :=
  2 ^ 8 * b2z (byte_at b 0) + b2z (byte_at b 1).
Definition declared_length (b : list byte) : Z :=
  2 ^ 8 * b2z (byte_at b 2) + b2z (byte_at b 3).

(** The data length a length field [x, y] declares and the width of the
    field. *)
Definition field_length (x y : byte) : Z * nat :=
  if b2z x <? 128 then (b2z x, 1%nat)
  else (b2z x - 128 + 128 * b2z y, 2%nat).

(** The length field of the tag that starts at position [i]. *)
Definition tag_header (b : list byte) (i : nat) : Z * nat :=
  field_length (byte_at b (i + 1)) (byte_at b (i + 2)).

(** [overrun b i]: walking the tags of [b] from position [i], some tag's
    declared data would end past the position where the checksum begins. *)
Inductive overrun (b : list byte) : nat -> Prop :=
| overrun_here (i : nat) (tlen : Z) (c : nat) :
    (i < length b - 4)%nat ->
    tag_header b i = (tlen, c) ->
    Z.of_nat (length b - 4) < Z.of_nat (i + 1 + c) + tlen ->
    overrun b i
| overrun_later (i : nat) (tlen : Z) (c : nat) :
    (i < length b - 4)%nat ->
    tag_header b i = (tlen, c) ->
    Z.of_nat (i + 1 + c) + tlen <= Z.of_nat (length b - 4) ->
    overrun b (i + 1 + c + Z.to_nat tlen) ->
    overrun b i.

(** The tags of [b] from position [i] up to the checksum, when no tag
    overruns. *)
Inductive tags_at (b : list byte) : nat -> list Tag -> Prop :=
| tags_at_end (i : nat) :
    (length b - 4 <= i)%nat ->
    tags_at b i []
| tags_at_tag (i : nat) (tlen : Z) (c : nat) (tags : list Tag) :
    (i < length b - 4)%nat ->
    tag_header b i = (tlen, c) ->
    Z.of_nat (i + 1 + c) + tlen <= Z.of_nat (length b - 4) ->
    tags_at b (i + 1 + c + Z.to_nat tlen) tags ->
    tags_at b i
      (mkTag (byte_at b i) (firstn (Z.to_nat tlen) (skipn (i + 1 + c) b)) :: tags).

(** The wire layout of a packet, written as a concatenation:
    [type (2, big-endian)] [payload length (2, big-endian)] [tags]
    [CRC-32 (4, little-endian)]. *)
Definition wire_length_field (n : Z) : list byte :=
  if n <? 128 then [z2b n]
  else [z2b (Z.lor 0x80 (Z.land n 0x7f)); z2b (Z.shiftr n 7)].

Definition wire_tag (t : Tag) : list byte :=
  tag_Type t :: wire_length_field (Z.of_nat (length (tag_Data t))) ++ tag_Data t.

Definition wire_tags (tags : list Tag) : list byte :=
  concat (map wire_tag tags).

Definition wire_uint16 (v : Z) : list byte := [z2b (Z.shiftr v 8); z2b v].

Definition wire_uint32_le (v : Z) : list byte :=
  [z2b v; z2b (Z.shiftr v 8); z2b (Z.shiftr v 16); z2b (Z.shiftr v 24)].

Definition wire_body (p : Packet) : list byte :=
  wire_uint16 (Type_ p)
  ++ wire_uint16 (Z.of_nat (length (wire_tags (Tags p))) mod 65536)
  ++ wire_tags (Tags p).

Definition wire (p : Packet) : list byte :=
  wire_body p ++ wire_uint32_le (crc32.ChecksumIEEE (wire_body p)).

(** The packets [MarshalBinary] and [UnmarshalBinary] agree on: fields within
    their wire widths. *)
Definition wf_packet (p : Packet) : Prop :=
  0 <= Type_ p < 65536 /\
  Forall (fun t => Z.of_nat (length (tag_Data t)) <= 32767) (Tags p) /\
  Z.of_nat (length (wire_tags (Tags p))) < 65536.

(** [b] with bit [k] of the byte at position [pos] flipped. *)
Definition flip_bit (b : list byte) (pos : nat) (k : Z) : list byte :=
  firstn pos b ++ z2b (Z.lxor (b2z (byte_at b pos)) (2 ^ k)) :: skipn (S pos) b.

(** The number of bytes a tag takes on the wire. *)
Definition tag_wire_size (t : Tag) : nat :=
  (1 + (if (Z.of_nat (length (tag_Data t)) <? 128)%Z then 1 else 2)
   + length (tag_Data t))%nat.

(** [canonical_from b i]: walking the tags of [b] from position [i], every
    length field has the width the encoder would give it: a two-byte field
    declares at least 128 bytes. *)
Inductive canonical_from (b : list byte) : nat -> Prop :=
| canonical_end (i : nat) :
    (length b - 4 <= i)%nat ->
    canonical_from b i
| canonical_tag (i : nat) (tlen : Z) (c : nat) :
    (i < length b - 4)%nat ->
    tag_header b i = (tlen, c) ->
    (c = 2%nat -> 128 <= tlen) ->
    canonical_from b (i + 1 + c + Z.to_nat tlen) ->
    canonical_from b i.

(** [(err *Error).Error()] of the error whose message is [Message]. *)
Definition Error_Error (Message : list byte) : list byte :=
  errorPrefix ++ Message.

(** [(c *Client).Model()] *)
Definition Model (cl : Client) (now : Z) : Client * result (list byte) :=
  let '(cl, r) := Query cl now (str "/sys/model") in
  (cl, b <- r ;; Ok (bytesStr b)).

(** The error, if any, of a result. *)
Definition error_of {A : Type} (r : result A) : option error :=
  match r with
  | Err e => Some e
  | _ => None
  end.

(** The request packet [Query] builds for [query]. *)
Definition query_request (query : list byte) : Packet :=
  mkPacket libhdhomerun.TypeGetsetReq
    [mkTag libhdhomerun.TagGetsetName (strBytes query)].

(** A connection whose device answers every read with the encoding of a
    get/set reply that echoes the name "q" and carries the value "v". *)
Definition echo_conn : Conn :=
  mkConn []
    (fun _ _ => None)
    (fun _ p => (length p, None))
    (fun _ _ =>
       (wire (mkPacket libhdhomerun.TypeGetsetRpy
                [mkTag libhdhomerun.TagGetsetName (strBytes (str "q"));
                 mkTag libhdhomerun.TagGetsetValue (strBytes (str "v"))]),
        None)).

Section ForEachTuner_general.

Variable Debug : nat -> option error.
Variable fn : nat -> option error.

(** What [ForEachTuner] has done when it stops after visiting [vis]. *)
Definition enumeration_outcome (fuel : nat) (vis : list nat) (r : result unit)
  : Prop :=
  let n := length vis in
  vis = seq 0 n /\
  (forall i, In i vis -> Debug i = None) /\
  match r with
  | Ok _ =>
      (forall i, In i vis -> fn i = None) /\
      IsNotExist (Debug n) = true
  | Err e =>
      ((forall i, In i vis -> fn i = None) /\
       Debug n = Some e /\ IsNotExist (Some e) = false) \/
      (exists m, n = S m /\ fn m = Some e /\
                 forall i, (i < m)%nat -> fn i = None)
  | OutOfFuel =>
      n = fuel /\ forall i, In i vis -> fn i = None
  | Panic => False
  end.

End ForEachTuner_general.

(* ================================================================== *)
(** ** discover.go: device IDs, the request packet, the constructor *)

(** [binary.BigEndian.PutUint32(b, v)] *)
Definition BigEndian_PutUint32 (b : list byte) (v : Z) : result (list byte) :=
  _ <- index b 3 ;;
  b <- store b 0 (z2b (Z.shiftr v 24)) ;;
  b <- store b 1 (z2b (Z.shiftr v 16)) ;;
  b <- store b 2 (z2b (Z.shiftr v 8)) ;;
  store b 3 (z2b v).

(** encoding/hex: the value of a hexadecimal digit ([reverseHexTable]), the
    errors of the package, and [hex.DecodeString]: the bytes decoded before
    an error, and the error. *)
Definition fromHexChar (c : byte) : option Z :=
  let v := b2z c in
  if (48 <=? v) && (v <=? 57) then Some (v - 48)
  else if (97 <=? v) && (v <=? 102) then Some (v - 97 + 10)
  else if (65 <=? v) && (v <=? 70) then Some (v - 65 + 10)
  else None.

Inductive hexError : Type :=
| hex_InvalidByteError (c : byte)
| hex_ErrLength.

Fixpoint hex_DecodeString (src : list byte) : list byte * option hexError :=
  match src with
  | [] => ([], None)
  | [p] =>
      match fromHexChar p with
      | None => ([], Some (hex_InvalidByteError p))
      | Some _ => ([], Some hex_ErrLength)
      end
  | p :: q :: src =>
      match fromHexChar p, fromHexChar q with
      | None, _ => ([], Some (hex_InvalidByteError p))
      | Some _, None => ([], Some (hex_InvalidByteError q))
      | Some a, Some b =>
          let '(dst, err) := hex_DecodeString src in
          (z2b (Z.lor (Z.shiftl a 4) b) :: dst, err)
      end
  end.

Definition DeviceIDWildcard : list byte := str "ffffffff".
Definition DeviceTypeWildcard : Z := 0xFFFFFFFF.

(** The errors of [ParseDeviceID]. *)
Inductive idError : Type :=
| idHexError (e : hexError)
| errDeviceIDChars (id : list byte).

(** [ParseDeviceID(id)] *)
Definition ParseDeviceID (id : list byte) : list byte + idError :=
  match hex_DecodeString id with
  | (_, Some e) => inr (idHexError e)
  | (idb, None) =>
      if negb (length idb =? 4)%nat then inr (errDeviceIDChars id)
      else inl idb
  end.

(** [mustDiscoverPacket(typ, id)]; [panicf] is [Panic]. *)
Definition mustDiscoverPacket (typ : Z) (id : list byte) : result (list byte) :=
  if negb (length id =? 4)%nat then Panic
  else
    b <- BigEndian_PutUint32 (repeat x00 4) (typ mod 2 ^ 32) ;;
    let p := mkPacket libhdhomerun.TypeDiscoverReq
               [mkTag libhdhomerun.TagDeviceType b;
                mkTag libhdhomerun.TagDeviceId id] in
    match MarshalBinary p with
    | Ok pb => Ok pb
    | Err _ => Panic
    | Panic => Panic
    | OutOfFuel => OutOfFuel
    end.

(** The four bytes of a device type in a request. *)
Definition device_type_bytes (typ : Z) : list byte :=
  [z2b (Z.shiftr (typ mod 2 ^ 32) 24); z2b (Z.shiftr (typ mod 2 ^ 32) 16);
   z2b (Z.shiftr (typ mod 2 ^ 32) 8); z2b (typ mod 2 ^ 32)].

(** The packet of a discovery request. *)
Definition discover_request (typ : Z) (id : list byte) : Packet :=
  mkPacket libhdhomerun.TypeDiscoverReq
    [mkTag libhdhomerun.TagDeviceType (device_type_bytes typ);
     mkTag libhdhomerun.TagDeviceId id].

Section NewDiscoverer.

(** [*net.UDPAddr] and [net.ResolveUDPAddr]. *)
Variable UDPAddr : Type.
Variable ResolveUDPAddr : list byte -> list byte -> UDPAddr + error.
(** [&net.UDPAddr{IP: net.IPv4bcast, Port: libhdhomerun.DiscoverUdpPort}] *)
Variable broadcastAddr : UDPAddr.

(** The fields of a [Discoverer] that the options set. *)
Record DiscovererConfig : Type := mkDiscovererConfig {
  deviceType : Z;
  deviceID : list byte;
  multicastAddr : UDPAddr;
  localAddr : option UDPAddr
}.

(** The errors an option can return: that of [ParseDeviceID], or any other
    error. *)
Inductive optionError : Type :=
| optionIDError (e : idError)
| optionNetError (e : error).

(** [type DiscovererOption func(d *Discoverer) error]: any function of the
    caller; what it leaves in [*d], or the error it returns. *)
Definition DiscovererOption : Type :=
  DiscovererConfig -> DiscovererConfig + optionError.

(** The options the package makes. *)
Definition DiscoverDeviceType (t : Z) : DiscovererOption :=
  fun d => inl (mkDiscovererConfig t (deviceID d) (multicastAddr d) (localAddr d)).

Definition DiscoverDeviceID (id : list byte) : DiscovererOption :=
  fun d =>
    match ParseDeviceID id with
    | inr e => inr (optionIDError e)
    | inl idb =>
        inl (mkDiscovererConfig (deviceType d) idb (multicastAddr d) (localAddr d))
    end.

Definition discoverLocalUDPAddr (network addr : list byte) : DiscovererOption :=
  fun d =>
    match ResolveUDPAddr network addr with
    | inr e => inr (optionNetError e)
    | inl udpAddr =>
        inl (mkDiscovererConfig (deviceType d) (deviceID d) (multicastAddr d)
               (Some udpAddr))
    end.

Definition discoverMulticastUDPAddr (network addr : list byte)
  : DiscovererOption :=
  fun d =>
    match ResolveUDPAddr network addr with
    | inr e => inr (optionNetError e)
    | inl udpAddr =>
        inl (mkDiscovererConfig (deviceType d) (deviceID d) udpAddr (localAddr d))
    end.

(** The loop of [NewDiscoverer] over the options. *)
Fixpoint apply_options (options : list DiscovererOption) (d : DiscovererConfig)
  : DiscovererConfig + optionError :=
  match options with
  | [] => inl d
  | o :: options =>
      match o d with
      | inr e => inr e
      | inl d => apply_options options d
      end
  end.

(** What [NewDiscoverer] does on the network. *)
Inductive SocketCall : Type :=
| CallListenUDP (laddr : option UDPAddr)
| CallWriteToUDP (b : list byte) (addr : UDPAddr)
| CallClose.

(** How [NewDiscoverer] ends. *)
Inductive NewDiscovererOutcome : Type :=
| Discoverer_ready
| Discoverer_option_error (e : optionError)
| Discoverer_net_error (e : error)
| Discoverer_panic.

(** [NewDiscoverer(options...)], with [listen] the error of [net.ListenUDP]
    on the local address and [write] the error of [c.WriteToUDP] ([None] is
    nil): the calls made on the network and the outcome. *)
Definition NewDiscoverer
           (listen : option UDPAddr -> option error)
           (write : list byte -> UDPAddr -> option error)
           (options : list DiscovererOption)
  : list SocketCall * NewDiscovererOutcome :=
  let d := mkDiscovererConfig DeviceTypeWildcard [] broadcastAddr None in
  let options := [DiscoverDeviceID DeviceIDWildcard] ++ options in
  match apply_options options d with
  | inr e => ([], Discoverer_option_error e)
  | inl d =>
      match listen (localAddr d) with
      | Some err => ([CallListenUDP (localAddr d)], Discoverer_net_error err)
      | None =>
          match mustDiscoverPacket (deviceType d) (deviceID d) with
          | Ok b =>
              match write b (multicastAddr d) with
              | Some err =>
                  ([CallListenUDP (localAddr d);
                    CallWriteToUDP b (multicastAddr d); CallClose],
                   Discoverer_net_error err)
              | None =>
                  ([CallListenUDP (localAddr d);
                    CallWriteToUDP b (multicastAddr d)],
                   Discoverer_ready)
              end
          | _ => ([CallListenUDP (localAddr d)], Discoverer_panic)
          end
      end
  end.

(** The options a caller can build with the functions of the package, as
    syntax, and the option each one is. *)
Inductive PackageOption : Type :=
| optDeviceType (t : Z)
| optDeviceID (id : list byte)
| optLocalUDPAddr (network addr : list byte)
| optMulticastUDPAddr (network addr : list byte).

Definition package_option (o : PackageOption) : DiscovererOption :=
  match o with
  | optDeviceType t => DiscoverDeviceType t
  | optDeviceID id => DiscoverDeviceID id
  | optLocalUDPAddr network addr => discoverLocalUDPAddr network addr
  | optMulticastUDPAddr network addr => discoverMulticastUDPAddr network addr
  end.

End NewDiscoverer.

Arguments deviceType {UDPAddr} _.
Arguments deviceID {UDPAddr} _.
Arguments multicastAddr {UDPAddr} _.
Arguments localAddr {UDPAddr} _.
Arguments mkDiscovererConfig {UDPAddr} _ _ _ _.
Arguments CallListenUDP {UDPAddr} _.
Arguments CallWriteToUDP {UDPAddr} _ _.
Arguments CallClose {UDPAddr}.

(** The type and ID filters that the options leave, given what was set
    before: the last option of each kind decides. *)
Fixpoint last_device_type (options : list PackageOption) (t : Z) : Z :=
  match options with
  | [] => t
  | optDeviceType t' :: options => last_device_type options t'
  | _ :: options => last_device_type options t
  end.

(** A device as [newDiscoveredDevice] can return it. *)
Definition device_ok {URL : Type} (d : DiscoveredDevice URL) : Prop :=
  0 <= Type__ d < 2 ^ 32 /\
  (ID d = [] \/ length (ID d) = 8%nat) /\
  Forall (fun x => In x hextable) (ID d) /\
  0 <= Tuners d < 256.

(* ================================================================== *)
(** ** tuner.go: the status lines of a tuner *)

(** [strings.Split(s, sep)] for a separator of one byte: the pieces of [s]
    between the occurrences of [sep], one more than there are occurrences. *)
Fixpoint strings_Split (s : list byte) (sep : byte) : list (list byte) :=
  match s with
  | [] => [[]]
  | c :: s =>
      if byte_eqb c sep then [] :: strings_Split s sep
      else
        match strings_Split s sep with
        | h :: t => (c :: h) :: t
        | [] => [[c]]
        end
  end.

(** The errors of the status parsers: the two made with [fmt.Errorf] and
    the error of [strconv.Atoi]. *)
Inductive statusError : Type :=
| errMalformedLine (s : list byte)
| errInvalidPair (s : list byte)
| errAtoi (err : error).

(** How a status parser ends: it returns nil, it returns an error, or it
    reaches [panicf]. *)
Inductive outcome (A : Type) : Type :=
| Done (a : A)
| Failed (e : statusError)
| Panicked.

Arguments Done {A} a.
Arguments Failed {A} e.
Arguments Panicked {A}.

(** [kvStrings(ss)]: the loop with [kvs] built so far, and the function. *)
Fixpoint kvStrings_loop (ss : list (list byte))
         (kvs : list (list byte * list byte))
  : list (list byte * list byte) + statusError :=
  match ss with
  | [] => inl kvs
  | s :: ss =>
      match strings_Split s x3d with
      | [k; v] => kvStrings_loop ss (kvs ++ [(k, v)])
      | _ => inr (errInvalidPair s)
      end
  end.

Definition kvStrings (ss : list (list byte))
  : list (list byte * list byte) + statusError :=
  kvStrings_loop ss [].

Module TunerStatus.
Record t : Type := mk {
  Channel : list byte;
  Lock : list byte;
  SignalStrength : Z;
  SignalToNoiseQuality : Z;
  SymbolErrorQuality : Z;
  Debug : list byte
}.
Definition new : t := mk [] [] 0 0 0 [].
End TunerStatus.

Module DeviceStatus.
Record t : Type := mk {
  BitsPerSecond : Z;
  Resync : Z;
  Overflow : Z
}.
Definition new : t := mk 0 0 0.
End DeviceStatus.

Module CableCARDStatus.
Record t : Type := mk {
  BitsPerSecond : Z;
  Resync : Z;
  Overflow : Z
}.
Definition new : t := mk 0 0 0.
End CableCARDStatus.

Module TransportStreamStatus.
Record t : Type := mk {
  BitsPerSecond : Z;
  TransportErrors : Z;
  CRCErrors : Z
}.
Definition new : t := mk 0 0 0.
End TransportStreamStatus.

Module NetworkStatus.
Record t : Type := mk {
  PacketsPerSecond : Z;
  Errors : Z;
  Stop : Z                  (* StopReason *)
}.
Definition new : t := mk 0 0 0.
End NetworkStatus.

Module TunerDebug.
Record t : Type := mk {
  Tuner : option TunerStatus.t;
  Device : option DeviceStatus.t;
  CableCARD : option CableCARDStatus.t;
  TransportStream : option TransportStreamStatus.t;
  Network : option NetworkStatus.t
}.
Definition new : t := mk None None None None None.
End TunerDebug.

(** The [switch kv[0]] that ends the loop body of [parseCableCARD],
    [parseDevice], [parseTransportStream] and [parseNetwork]. *)
Definition parseCableCARD_switch (k : list byte) (v : Z) (cc : CableCARDStatus.t)
  : CableCARDStatus.t :=
  if bytes_eqb k (str "bps") then
    CableCARDStatus.mk v (CableCARDStatus.Resync cc) (CableCARDStatus.Overflow cc)
  else if bytes_eqb k (str "resync") then
    CableCARDStatus.mk (CableCARDStatus.BitsPerSecond cc) v (CableCARDStatus.Overflow cc)
  else if bytes_eqb k (str "overflow") then
    CableCARDStatus.mk (CableCARDStatus.BitsPerSecond cc) (CableCARDStatus.Resync cc) v
  else cc.

Definition parseDevice_switch (k : list byte) (v : Z) (dev : DeviceStatus.t)
  : DeviceStatus.t :=
  if bytes_eqb k (str "bps") then
    DeviceStatus.mk v (DeviceStatus.Resync dev) (DeviceStatus.Overflow dev)
  else if bytes_eqb k (str "resync") then
    DeviceStatus.mk (DeviceStatus.BitsPerSecond dev) v (DeviceStatus.Overflow dev)
  else if bytes_eqb k (str "overflow") then
    DeviceStatus.mk (DeviceStatus.BitsPerSecond dev) (DeviceStatus.Resync dev) v
  else dev.

Definition parseTransportStream_switch (k : list byte) (v : Z)
           (ts : TransportStreamStatus.t) : TransportStreamStatus.t :=
  if bytes_eqb k (str "bps") then
    TransportStreamStatus.mk v (TransportStreamStatus.TransportErrors ts)
      (TransportStreamStatus.CRCErrors ts)
  else if bytes_eqb k (str "te") then
    TransportStreamStatus.mk (TransportStreamStatus.BitsPerSecond ts) v
      (TransportStreamStatus.CRCErrors ts)
  else if bytes_eqb k (str "crc") then
    TransportStreamStatus.mk (TransportStreamStatus.BitsPerSecond ts)
      (TransportStreamStatus.TransportErrors ts) v
  else ts.

Definition parseNetwork_switch (k : list byte) (v : Z) (net : NetworkStatus.t)
  : NetworkStatus.t :=
  if bytes_eqb k (str "pps") then
    NetworkStatus.mk v (NetworkStatus.Errors net) (NetworkStatus.Stop net)
  else if bytes_eqb k (str "err") then
    NetworkStatus.mk (NetworkStatus.PacketsPerSecond net) v (NetworkStatus.Stop net)
  else if bytes_eqb k (str "stop") then
    NetworkStatus.mk (NetworkStatus.PacketsPerSecond net) (NetworkStatus.Errors net) v
  else net.

Section tuner_status.

(** [strings.Fields] and [strconv.Atoi]. *)
Variable Fields : list byte -> list (list byte).
Variable Atoi : list byte -> Z + error.

(** The loop of [parseCableCARD], [parseDevice], [parseTransportStream] and
    [parseNetwork], which differ in the status they fill and in the switch
    on the key: every value goes through [strconv.Atoi] before the switch
    looks at the key. *)
Fixpoint parseNumbers {A : Type} (switch : list byte -> Z -> A -> A)
         (kvs : list (list byte * list byte)) (a : A) : A + statusError :=
  match kvs with
  | [] => inl a
  | (k, s) :: kvs =>
      match Atoi s with
      | inr err => inr (errAtoi err)
      | inl v => parseNumbers switch kvs (switch k v a)
      end
  end.

(** The body of the loop of [parseTuner]. *)
Definition parseTuner_body (cc : TunerStatus.t) (kv : list byte * list byte)
  : outcome TunerStatus.t :=
  let '(k, s) := kv in
  let cc :=
    if bytes_eqb k (str "ch") then
      TunerStatus.mk s (TunerStatus.Lock cc) (TunerStatus.SignalStrength cc)
        (TunerStatus.SignalToNoiseQuality cc) (TunerStatus.SymbolErrorQuality cc)
        (TunerStatus.Debug cc)
    else if bytes_eqb k (str "lock") then
      TunerStatus.mk (TunerStatus.Channel cc) s (TunerStatus.SignalStrength cc)
        (TunerStatus.SignalToNoiseQuality cc) (TunerStatus.SymbolErrorQuality cc)
        (TunerStatus.Debug cc)
    else if bytes_eqb k (str "dbg") then
      TunerStatus.mk (TunerStatus.Channel cc) (TunerStatus.Lock cc)
        (TunerStatus.SignalStrength cc) (TunerStatus.SignalToNoiseQuality cc)
        (TunerStatus.SymbolErrorQuality cc) s
    else cc in
  if bytes_eqb k (str "ss") || bytes_eqb k (str "snq") || bytes_eqb k (str "seq")
  then
    match Atoi s with
    | inr err => Failed (errAtoi err)
    | inl v =>
        if bytes_eqb k (str "ss") then
          Done (TunerStatus.mk (TunerStatus.Channel cc) (TunerStatus.Lock cc) v
                  (TunerStatus.SignalToNoiseQuality cc)
                  (TunerStatus.SymbolErrorQuality cc) (TunerStatus.Debug cc))
        else if bytes_eqb k (str "snq") then
          Done (TunerStatus.mk (TunerStatus.Channel cc) (TunerStatus.Lock cc)
                  (TunerStatus.SignalStrength cc) v
                  (TunerStatus.SymbolErrorQuality cc) (TunerStatus.Debug cc))
        else if bytes_eqb k (str "seq") then
          Done (TunerStatus.mk (TunerStatus.Channel cc) (TunerStatus.Lock cc)
                  (TunerStatus.SignalStrength cc)
                  (TunerStatus.SignalToNoiseQuality cc) v (TunerStatus.Debug cc))
        else Panicked
    end
  else Done cc.

Fixpoint parseTuner_loop (kvs : list (list byte * list byte)) (cc : TunerStatus.t)
  : outcome TunerStatus.t :=
  match kvs with
  | [] => Done cc
  | kv :: kvs =>
      match parseTuner_body cc kv with
      | Done cc => parseTuner_loop kvs cc
      | Failed e => Failed e
      | Panicked => Panicked
      end
  end.

(** [(td *TunerDebug).parseTuner(kvs)]: [td] afterwards. *)
Definition parseTuner (td : TunerDebug.t) (kvs : list (list byte * list byte))
  : outcome TunerDebug.t :=
  match parseTuner_loop kvs TunerStatus.new with
  | Done cc =>
      Done (TunerDebug.mk (Some cc) (TunerDebug.Device td) (TunerDebug.CableCARD td)
              (TunerDebug.TransportStream td) (TunerDebug.Network td))
  | Failed e => Failed e
  | Panicked => Panicked
  end.

(** [(td *TunerDebug).parseCableCARD(kvs)] *)
Definition parseCableCARD (td : TunerDebug.t) (kvs : list (list byte * list byte))
  : outcome TunerDebug.t :=
  match parseNumbers parseCableCARD_switch kvs CableCARDStatus.new with
  | inr e => Failed e
  | inl cc =>
      Done (TunerDebug.mk (TunerDebug.Tuner td) (TunerDebug.Device td) (Some cc)
              (TunerDebug.TransportStream td) (TunerDebug.Network td))
  end.

(** [(td *TunerDebug).parseDevice(kvs)] *)
Definition parseDevice (td : TunerDebug.t) (kvs : list (list byte * list byte))
  : outcome TunerDebug.t :=
  match parseNumbers parseDevice_switch kvs DeviceStatus.new with
  | inr e => Failed e
  | inl dev =>
      Done (TunerDebug.mk (TunerDebug.Tuner td) (Some dev) (TunerDebug.CableCARD td)
              (TunerDebug.TransportStream td) (TunerDebug.Network td))
  end.

(** [(td *TunerDebug).parseTransportStream(kvs)] *)
Definition parseTransportStream (td : TunerDebug.t)
           (kvs : list (list byte * list byte)) : outcome TunerDebug.t :=
  match parseNumbers parseTransportStream_switch kvs TransportStreamStatus.new with
  | inr e => Failed e
  | inl ts =>
      Done (TunerDebug.mk (TunerDebug.Tuner td) (TunerDebug.Device td)
              (TunerDebug.CableCARD td) (Some ts) (TunerDebug.Network td))
  end.

(** [(td *TunerDebug).parseNetwork(kvs)] *)
Definition parseNetwork (td : TunerDebug.t) (kvs : list (list byte * list byte))
  : outcome TunerDebug.t :=
  match parseNumbers parseNetwork_switch kvs NetworkStatus.new with
  | inr e => Failed e
  | inl net =>
      Done (TunerDebug.mk (TunerDebug.Tuner td) (TunerDebug.Device td)
              (TunerDebug.CableCARD td) (TunerDebug.TransportStream td) (Some net))
  end.

(** [(td *TunerDebug).parse(s)] *)
Definition parse (td : TunerDebug.t) (s : list byte) : outcome TunerDebug.t :=
  match Fields s with
  | [] => Done td
  | [_] => Failed (errMalformedLine s)
  | key :: rest =>
      match kvStrings rest with
      | inr e => Failed e
      | inl kvs =>
          if bytes_eqb key (str "tun:") then parseTuner td kvs
          else if bytes_eqb key (str "cc:") then parseCableCARD td kvs
          else if bytes_eqb key (str "dev:") then parseDevice td kvs
          else if bytes_eqb key (str "ts:") then parseTransportStream td kvs
          else if bytes_eqb key (str "net:") then parseNetwork td kvs
          else Done td
      end
  end.

(** The loop of [(t *Tuner).Debug] over the lines the scanner yields. *)
Fixpoint Debug_lines (debug : TunerDebug.t) (lines : list (list byte))
  : outcome TunerDebug.t :=
  match lines with
  | [] => Done debug
  | line :: lines =>
      match parse debug (bytesStr line) with
      | Done debug => Debug_lines debug lines
      | Failed e => Failed e
      | Panicked => Panicked
      end
  end.

End tuner_status.

(** A string of the form key=value with no other [=]. *)
Definition is_pair (s : list byte) (kv : list byte * list byte) : Prop :=
  s = fst kv ++ x3d :: snd kv /\ ~ In x3d (fst kv) /\ ~ In x3d (snd kv).

(** The value of the last pair of [kvs] with key [k]. *)
Fixpoint last_value (k : list byte) (kvs : list (list byte * list byte))
  : option (list byte) :=
  match kvs with
  | [] => None
  | (k', s) :: kvs =>
      match last_value k kvs with
      | Some s' => Some s'
      | None => if bytes_eqb k' k then Some s else None
      end
  end.

(** [n] is the number in the last pair of [kvs] with key [k], or zero when
    there is none; [s] is the value of that pair, or empty. *)
Definition last_number (Atoi : list byte -> Z + error) (k : list byte)
           (kvs : list (list byte * list byte)) (n : Z) : Prop :=
  match last_value k kvs with
  | Some s => Atoi s = inl n
  | None => n = 0
  end.

Definition last_string (k : list byte) (kvs : list (list byte * list byte))
           (s : list byte) : Prop :=
  match last_value k kvs with
  | Some s' => s = s'
  | None => s = []
  end.

(** Every value of [kvs] is a number for [strconv.Atoi]. *)
Definition all_numbers (Atoi : list byte -> Z + error)
           (kvs : list (list byte * list byte)) : Prop :=
  Forall (fun kv => exists n, Atoi (snd kv) = inl n) kvs.

(** A conversion that knows the numbers 0 and 100, and a field splitter
    that knows one device line, for examples. *)
Definition example_Atoi (s : list byte) : Z + error :=
  if bytes_eqb s (str "100") then inl 100
  else if bytes_eqb s (str "0") then inl 0
  else inr (otherError 0).

Definition example_Fields (s : list byte) : list (list byte) :=
  if bytes_eqb s (str "dev: bps=100 resync=0")
  then [str "dev:"; str "bps=100"; str "resync=0"]
  else [].

(** The keys of a tuner line whose values must be numbers. *)
Definition numeric_tuner_key (k : list byte) : Prop :=
  k = str "ss" \/ k = str "snq" \/ k = str "seq".

(** The lengths [parseTags] requires of the data of a tag. *)
Definition reply_tag_ok (t : Tag) : Prop :=
  (tag_Type t = libhdhomerun.TagDeviceType -> length (tag_Data t) = 4%nat) /\
  (tag_Type t = libhdhomerun.TagDeviceId -> length (tag_Data t) = 4%nat) /\
  (tag_Type t = libhdhomerun.TagTunerCount -> length (tag_Data t) = 1%nat).

(** The ID filter that the options leave when all of them are accepted. *)
Fixpoint last_device_id (options : list PackageOption) (idb : list byte)
  : list byte :=
  match options with
  | [] => idb
  | optDeviceID id :: options =>
      last_device_id options
        match ParseDeviceID id with
        | inl idb' => idb'
        | inr _ => idb
        end
  | _ :: options => last_device_id options idb
  end.

(* ================================================================== *)
(** * Properties *)

(** ** Bytes and bits *)

Lemma b2z_range (x : byte) : 0 <= b2z x < 256.
Proof.
  unfold b2z. pose proof (Byte.to_N_bounded x). lia.
Qed.

Lemma z2b_b2z (x : byte) : z2b (b2z x) = x.
Proof.
  unfold z2b. pose proof (b2z_range x) as H.
  rewrite Z.mod_small by exact H.
  unfold b2z. rewrite N2Z.id, Byte.of_to_N. reflexivity.
Qed.

Lemma b2z_z2b (z : Z) : b2z (z2b z) = z mod 256.
Proof.
  unfold z2b, b2z.
  assert (Hm : 0 <= z mod 256 < 256) by (apply Z.mod_pos_bound; lia).
  destruct (Byte.of_N (Z.to_N (z mod 256))) as [y|] eqn:E.
  - apply Byte.to_of_N in E. rewrite E. rewrite Z2N.id; lia.
  - apply Byte.of_N_None_iff in E. lia.
Qed.

Lemma b2z_z2b_small (z : Z) : 0 <= z < 256 -> b2z (z2b z) = z.
Proof. intros H. rewrite b2z_z2b. apply Z.mod_small, H. Qed.

Lemma b2z_inj (x y : byte) : b2z x = b2z y -> x = y.
Proof. intros H. rewrite <- (z2b_b2z x), <- (z2b_b2z y), H. reflexivity. Qed.

Lemma b2z_testbit_high (x : byte) (k : Z) : 8 <= k -> Z.testbit (b2z x) k = false.
Proof.
  intros Hk. pose proof (b2z_range x) as H.
  destruct (Z.eq_dec (b2z x) 0) as [E|E].
  - rewrite E. apply Z.bits_0.
  - apply Z.bits_above_log2; [lia|].
    apply Z.log2_lt_pow2; [lia|].
    apply Z.lt_le_trans with (2 ^ 8); [simpl; lia|].
    apply Z.pow_le_mono_r; lia.
Qed.

Lemma testbit_small (z k n : Z) : 0 <= z < 2 ^ n -> n <= k -> Z.testbit z k = false.
Proof.
  intros H Hk.
  destruct (Z.eq_dec z 0) as [E|E].
  - rewrite E. apply Z.bits_0.
  - destruct (Z.le_gt_cases 0 n) as [Hn|Hn].
    + apply Z.bits_above_log2; [lia|].
      apply Z.log2_lt_pow2; [lia|].
      apply Z.lt_le_trans with (2 ^ n); [lia|].
      apply Z.pow_le_mono_r; lia.
    + rewrite Z.pow_neg_r in H by lia. lia.
Qed.

(** Bitwise reasoning: reduce an equation on [Z] to its bits, with the masks
    written as [Z.ones] and powers of two. *)
Ltac bit_specs :=
  repeat first
    [ rewrite Z.land_spec | rewrite Z.lor_spec | rewrite Z.lxor_spec
    | rewrite Z.shiftl_spec by lia | rewrite Z.shiftr_spec by lia
    | rewrite Z.testbit_ones by lia | rewrite Z.pow2_bits_eqb by lia
    | rewrite Z.mod_pow2_bits_low by lia | rewrite Z.mod_pow2_bits_high by lia
    | rewrite Z.testbit_neg_r by lia | rewrite Z.bits_0 ].

Ltac pow_lia :=
  change (2 ^ 7) with 128 in *; change (2 ^ 8) with 256 in *;
  change (2 ^ 16) with 65536 in *; change (2 ^ 24) with 16777216 in *;
  change (2 ^ 32) with 4294967296 in *; lia.

Ltac cmp_cases :=
  repeat match goal with
    | |- context [Z.eqb ?a ?b] => destruct (Z.eqb_spec a b)
    | |- context [Z.ltb ?a ?b] => destruct (Z.ltb_spec a b)
    | |- context [Z.leb ?a ?b] => destruct (Z.leb_spec a b)
    end;
  try lia; simpl;
  rewrite ?andb_false_r, ?andb_true_r, ?orb_false_r, ?orb_true_r;
  try reflexivity.

(** ** Variable tag length *)

Lemma length2_inv (b : list byte) :
  length b = 2%nat -> exists x y, b = [x; y].
Proof.
  destruct b as [|x [|y [|z b]]]; simpl; intros H; try discriminate.
  exists x, y. reflexivity.
Qed.

Lemma readTagLength_two (x y : byte) :
  readTagLength [x; y] =
  if Z.land (b2z x) 0x80 =? 0 then Ok (b2z x, 1%nat)
  else Ok (Z.lor (Z.land (b2z x) 0x7f) (Z.shiftl (b2z y) 7 mod 65536), 2%nat).
Proof. reflexivity. Qed.

Lemma land_0x80_small (n : Z) : 0 <= n < 128 -> Z.land n 0x80 = 0.
Proof.
  intros H. apply Z.bits_inj'. intros k Hk.
  change 0x80 with (2 ^ 7). bit_specs.
  destruct (Z.eqb_spec 7 k) as [E|E]; [|apply andb_false_r].
  subst k. rewrite (testbit_small n 7 7); [reflexivity| simpl; lia | lia].
Qed.

Lemma writeTagLength_small (n : Z) (x y : byte) :
  0 <= n < 128 ->
  writeTagLength n [x; y] = Ok ([z2b n; y], 1%nat).
Proof.
  intros H. unfold writeTagLength, largeTagLength. simpl.
  destruct (Z.ltb_spec n 128); [reflexivity | lia].
Qed.

Lemma readTagLength_small (n : Z) (y : byte) :
  0 <= n < 128 ->
  readTagLength [z2b n; y] = Ok (n, 1%nat).
Proof.
  intros H. rewrite readTagLength_two.
  rewrite b2z_z2b_small by lia.
  rewrite land_0x80_small by lia. reflexivity.
Qed.

Lemma writeTagLength_large (n : Z) :
  128 <= n ->
  writeTagLength n [x00; x00] = Ok ([large_b0 n; large_b1 n], 2%nat).
Proof.
  intros H. unfold writeTagLength, largeTagLength. simpl.
  destruct (Z.ltb_spec n 128); [lia | reflexivity].
Qed.

Lemma large_b0_val (n : Z) :
  0 <= n -> b2z (large_b0 n) = Z.lor 0x80 (Z.land n 0x7f).
Proof.
  intros H. unfold large_b0. rewrite !b2z_z2b.
  change (b2z x00) with 0. rewrite Z.lor_0_l.
  change 256 with (2 ^ 8). change 0x80 with (2 ^ 7).
  change 0xff with (Z.ones 8). change 0x7f with (Z.ones 7).
  apply Z.bits_inj'. intros k Hk.
  destruct (Z.ltb_spec k 8) as [L|L]; bit_specs; cmp_cases.
Qed.

Lemma large_b1_val (n : Z) :
  0 <= n <= 32767 -> b2z (large_b1 n) = Z.shiftr n 7.
Proof.
  intros H. unfold large_b1. rewrite !b2z_z2b.
  change (b2z x00) with 0. rewrite Z.lor_0_l.
  rewrite Z.mod_mod by lia.
  rewrite Z.shiftr_div_pow2 by lia.
  apply Z.mod_small. change (2 ^ 7) with 128.
  split; [apply Z.div_pos; lia|].
  apply Z.div_lt_upper_bound; lia.
Qed.

Lemma readTagLength_large (n : Z) :
  128 <= n <= 32767 ->
  readTagLength [large_b0 n; large_b1 n] = Ok (n, 2%nat).
Proof.
  intros H. rewrite readTagLength_two.
  rewrite large_b0_val, large_b1_val by lia.
  assert (E1 : Z.land (Z.lor 0x80 (Z.land n 0x7f)) 0x80 = 0x80).
  { change 0x80 with (2 ^ 7). change 0x7f with (Z.ones 7).
    apply Z.bits_inj'. intros k Hk. bit_specs.
    destruct (Z.eqb_spec 7 k); simpl; [reflexivity|].
    rewrite andb_false_r. reflexivity. }
  rewrite E1. change (0x80 =? 0) with false. cbv iota.
  f_equal. f_equal.
  assert (E2 : Z.shiftl (Z.shiftr n 7) 7 mod 65536 = Z.shiftl (Z.shiftr n 7) 7).
  { apply Z.mod_small. rewrite Z.shiftl_mul_pow2, Z.shiftr_div_pow2 by lia.
    change (2 ^ 7) with 128.
    assert (0 <= n / 128 < 256).
    { split; [apply Z.div_pos; lia| apply Z.div_lt_upper_bound; lia]. }
    lia. }
  rewrite E2.
  change 0x80 with (2 ^ 7). change 0x7f with (Z.ones 7).
  apply Z.bits_inj'. intros k Hk.
  destruct (Z.ltb_spec k 7) as [L|L]; bit_specs.
  - rewrite (Z.testbit_neg_r _ (k - 7)) by lia. cmp_cases.
  - replace (k - 7 + 7) with k by lia. cmp_cases.
Qed.

Lemma large_b0_high_bit (n : Z) : 0 <= n -> Z.testbit (b2z (large_b0 n)) 7 = true.
Proof.
  intros H. rewrite large_b0_val by lia.
  change 0x80 with (2 ^ 7). bit_specs. reflexivity.
Qed.

Ltac testbit_cases :=
  repeat match goal with
    | |- context [Z.testbit ?a ?b] => destruct (Z.testbit a b)
    end;
  try reflexivity.

Lemma writeTagLength_ored (n : Z) (x y : byte) :
  128 <= n ->
  writeTagLength n [x; y] = Ok ([ored_b0 x n; ored_b1 y n], 2%nat).
Proof.
  intros H. unfold writeTagLength, largeTagLength. simpl.
  destruct (Z.ltb_spec n 128); [lia | reflexivity].
Qed.

Lemma ored_b0_val (x : byte) (n : Z) :
  0 <= n ->
  b2z (ored_b0 x n) = Z.lor (b2z x) (Z.lor 0x80 (Z.land n 0xff)).
Proof.
  intros H. unfold ored_b0. rewrite !b2z_z2b.
  pose proof (b2z_range x) as Rx.
  change 256 with (2 ^ 8). change 0x80 with (2 ^ 7).
  change 0xff with (Z.ones 8).
  apply Z.bits_inj'. intros k Hk.
  destruct (Z.ltb_spec k 8) as [L|L]; bit_specs; cmp_cases.
  rewrite (testbit_small (b2z x) k 8) by (change (2 ^ 8) with 256; lia).
  reflexivity.
Qed.

Lemma ored_b1_val (y : byte) (n : Z) :
  0 <= n <= 32767 ->
  b2z (ored_b1 y n) = Z.lor (b2z y) (Z.shiftr n 7).
Proof.
  intros H. unfold ored_b1. rewrite !b2z_z2b.
  pose proof (b2z_range y) as Ry.
  assert (S : 0 <= Z.shiftr n 7 < 256).
  { rewrite Z.shiftr_div_pow2 by lia. change (2 ^ 7) with 128.
    split; [apply Z.div_pos; lia | apply Z.div_lt_upper_bound; lia]. }
  rewrite (Z.mod_small (Z.shiftr n 7)) by exact S.
  apply Z.mod_small. split.
  - apply Z.lor_nonneg. lia.
  - change 256 with (2 ^ 8).
    destruct (Z.eq_dec (Z.lor (b2z y) (Z.shiftr n 7)) 0) as [E|E];
      [rewrite E; reflexivity|].
    apply Z.log2_lt_pow2; [assert (0 <= Z.lor (b2z y) (Z.shiftr n 7))
                             by (apply Z.lor_nonneg; lia); lia|].
    rewrite Z.log2_lor by lia.
    apply Z.max_lub_lt.
    + destruct (Z.eq_dec (b2z y) 0) as [E0|E0]; [rewrite E0; reflexivity|].
      apply Z.log2_lt_pow2; [lia|]. change (2 ^ 8) with 256. lia.
    + destruct (Z.eq_dec (Z.shiftr n 7) 0) as [E0|E0]; [rewrite E0; reflexivity|].
      apply Z.log2_lt_pow2; [lia|]. change (2 ^ 8) with 256. lia.
Qed.

Lemma readTagLength_ored (n : Z) (x y : byte) :
  128 <= n <= 32767 ->
  readTagLength [ored_b0 x n; ored_b1 y n]
  = Ok (Z.lor n (old_length_bits x y), 2%nat).
Proof.
  intros H. rewrite readTagLength_two.
  rewrite ored_b0_val, ored_b1_val by lia.
  pose proof (b2z_range x) as Rx. pose proof (b2z_range y) as Ry.
  assert (E1 : Z.land (Z.lor (b2z x) (Z.lor 0x80 (Z.land n 0xff))) 0x80 = 0x80).
  { change 0x80 with (2 ^ 7). change 0xff with (Z.ones 8).
    apply Z.bits_inj'. intros k Hk. bit_specs.
    destruct (Z.eqb_spec 7 k); simpl;
      rewrite ?andb_false_r, ?orb_true_r, ?andb_true_r; reflexivity. }
  rewrite E1. change (0x80 =? 0) with false. cbv iota.
  f_equal. f_equal. unfold old_length_bits.
  change 0x80 with (2 ^ 7). change 0x7f with (Z.ones 7).
  change 0xff with (Z.ones 8). change 65536 with (2 ^ 16).
  apply Z.bits_inj'. intros k Hk.
  destruct (Z.ltb_spec k 7) as [L7|L7].
  - bit_specs. rewrite ?(Z.testbit_neg_r _ (k - 7)) by lia. cmp_cases;
      testbit_cases.
  - destruct (Z.ltb_spec k 16) as [L16|L16].
    + bit_specs. replace (k - 7 + 7) with k by lia. cmp_cases;
        testbit_cases.
    + bit_specs.
      rewrite (testbit_small n k 15) by (change (2 ^ 15) with 32768; lia).
      cmp_cases; testbit_cases.
Qed.

Lemma old_length_bits_zero : old_length_bits x00 x00 = 0.
Proof. reflexivity. Qed.




(** ** Slices *)

Lemma slice_ok (b : list byte) (i j : nat) :
  (i <= j)%nat -> (j <= length b)%nat ->
  slice b i j = Ok (firstn (j - i) (skipn i b)).
Proof.
  intros H1 H2. unfold slice.
  destruct (Nat.leb_spec i j); [|lia].
  destruct (Nat.leb_spec j (length b)); [|lia]. reflexivity.
Qed.

Lemma slice_from_ok (b : list byte) (i : nat) :
  (i <= length b)%nat -> slice_from b i = Ok (skipn i b).
Proof.
  intros H. unfold slice_from. rewrite slice_ok by lia.
  rewrite firstn_all2; [reflexivity|]. rewrite length_skipn. lia.
Qed.

Lemma index_ok (b : list byte) (i : nat) :
  (i < length b)%nat -> index b i = Ok (byte_at b i).
Proof.
  intros H. unfold index, byte_at.
  rewrite (nth_error_nth' b x00 H). reflexivity.
Qed.

Lemma byte_at_skipn (b : list byte) (i k : nat) :
  byte_at (skipn i b) k = byte_at b (i + k).
Proof. unfold byte_at. apply nth_skipn. Qed.

Lemma byte_at_firstn (b : list byte) (n k : nat) :
  (k < n)%nat -> byte_at (firstn n b) k = byte_at b k.
Proof.
  intros H. unfold byte_at. rewrite nth_firstn.
  destruct (Nat.ltb_spec k n); [reflexivity | lia].
Qed.

Lemma firstn2_skipn (b : list byte) (i : nat) :
  (i + 2 <= length b)%nat ->
  firstn 2 (skipn i b) = [byte_at b i; byte_at b (i + 1)].
Proof.
  intros H.
  assert (L : (2 <= length (skipn i b))%nat) by (rewrite length_skipn; lia).
  pose proof (byte_at_skipn b i 0) as E0.
  pose proof (byte_at_skipn b i 1) as E1.
  rewrite Nat.add_0_r in E0.
  destruct (skipn i b) as [|x [|y r]]; simpl in L; try lia.
  unfold byte_at in E0, E1. simpl in E0, E1. subst. reflexivity.
Qed.

Lemma copy_fresh (d : list byte) :
  fst (copy (repeat x00 (length d)) d) = d.
Proof.
  unfold copy. simpl. rewrite repeat_length, Nat.min_id.
  rewrite firstn_all, skipn_all2 by (rewrite repeat_length; lia).
  apply app_nil_r.
Qed.

(** ** The decoder, step by step *)

Lemma land_0x80_byte (x : byte) :
  (Z.land (b2z x) 0x80 =? 0) = (b2z x <? 128).
Proof.
  pose proof (b2z_range x) as R.
  destruct (Z.ltb_spec (b2z x) 128) as [L|L].
  - rewrite land_0x80_small by lia. reflexivity.
  - apply Z.eqb_neq. intros E.
    assert (T : Z.testbit (Z.land (b2z x) 0x80) 7 = false)
      by (rewrite E; apply Z.bits_0).
    change 0x80 with (2 ^ 7) in T.
    rewrite Z.land_spec, Z.pow2_bits_true, andb_true_r in T by lia.
    rewrite Z.testbit_eqb in T by lia.
    change (2 ^ 7) with 128 in T.
    assert (b2z x / 128 = 1).
    { apply Z.le_antisymm.
      - assert (b2z x / 128 < 2) by (apply Z.div_lt_upper_bound; lia). lia.
      - apply Z.div_le_lower_bound; lia. }
    rewrite H in T. discriminate T.
Qed.

Lemma lor_disjoint_add (a b n : Z) :
  0 <= n -> 0 <= a < 2 ^ n -> 0 <= b ->
  Z.lor a (Z.shiftl b n) = a + 2 ^ n * b.
Proof.
  intros Hn Ha Hb.
  rewrite <- Z.lxor_lor.
  - rewrite <- Z.add_nocarry_lxor.
    + rewrite Z.shiftl_mul_pow2 by lia. lia.
    + apply Z.bits_inj'. intros k Hk. bit_specs.
      destruct (Z.ltb_spec k n).
      * rewrite (Z.testbit_neg_r b) by lia. apply andb_false_r.
      * rewrite (testbit_small a k n) by lia. reflexivity.
  - apply Z.bits_inj'. intros k Hk. bit_specs.
    destruct (Z.ltb_spec k n).
    + rewrite (Z.testbit_neg_r b) by lia. apply andb_false_r.
    + rewrite (testbit_small a k n) by lia. reflexivity.
Qed.

Lemma land_0x7f_large (x : Z) : 128 <= x < 256 -> Z.land x 0x7f = x - 128.
Proof.
  intros H. change 0x7f with (Z.ones 7). rewrite Z.land_ones by lia.
  change (2 ^ 7) with 128.
  symmetry. apply Z.mod_unique with 1; lia.
Qed.

Lemma readTagLength_field (x y : byte) :
  readTagLength [x; y] = Ok (field_length x y).
Proof.
  rewrite readTagLength_two, land_0x80_byte. unfold field_length.
  pose proof (b2z_range x) as Rx. pose proof (b2z_range y) as Ry.
  destruct (Z.ltb_spec (b2z x) 128) as [L|L]; [reflexivity|].
  f_equal. f_equal.
  rewrite land_0x7f_large by lia.
  rewrite Z.mod_small.
  - rewrite lor_disjoint_add; [reflexivity | lia | simpl; lia | lia].
  - rewrite Z.shiftl_mul_pow2 by lia. simpl. lia.
Qed.

Lemma field_length_bounds (x y : byte) (tlen : Z) (c : nat) :
  field_length x y = (tlen, c) ->
  0 <= tlen <= 32767 /\ (c = 1 \/ c = 2)%nat.
Proof.
  unfold field_length. pose proof (b2z_range x). pose proof (b2z_range y).
  destruct (Z.ltb_spec (b2z x) 128); intros E;
    apply pair_equal_spec in E; destruct E; subst; lia.
Qed.

Lemma unmarshalTags_done (fuel : nat) (b : list byte) (i : nat) (tags : list Tag) :
  (length b - 4 <= i)%nat -> unmarshalTags fuel b i tags = Ok tags.
Proof.
  intros H. destruct fuel; simpl;
    destruct (Nat.ltb_spec i (length b - 4)); try lia; reflexivity.
Qed.

Lemma unmarshalTags_step (fuel : nat) (b : list byte) (i : nat) (tags : list Tag)
      (tlen : Z) (c : nat) :
  (i < length b - 4)%nat ->
  tag_header b i = (tlen, c) ->
  unmarshalTags (S fuel) b i tags =
  if Z.of_nat (length b - 4) <? Z.of_nat (i + 1 + c) + tlen
  then Err ErrUnexpectedEOF
  else unmarshalTags fuel b (i + 1 + c + Z.to_nat tlen)
         (tags ++ [mkTag (byte_at b i)
                         (firstn (Z.to_nat tlen) (skipn (i + 1 + c) b))]).
Proof.
  intros Hi Hh.
  pose proof Hh as Hb. apply field_length_bounds in Hb. destruct Hb as [Hb Hc].
  cbn [unmarshalTags].
  destruct (Nat.ltb_spec i (length b - 4)) as [_|]; [|lia]. cbn [negb].
  rewrite index_ok by lia. cbn [bind].
  rewrite slice_ok by lia.
  replace (S i + 2 - S i)%nat with 2%nat by lia.
  rewrite firstn2_skipn by lia. cbn [bind].
  rewrite readTagLength_field.
  unfold tag_header in Hh.
  replace (S i) with (i + 1)%nat by lia.
  replace (i + 1 + 1)%nat with (i + 2)%nat by lia.
  rewrite Hh. cbn [bind].
  rewrite slice_from_ok by lia. cbn [bind].
  rewrite length_skipn.
  destruct (Z.ltb_spec (Z.of_nat (length b - (i + 1 + c)) - 4) tlen) as [L|L];
    destruct (Z.ltb_spec (Z.of_nat (length b - 4)) (Z.of_nat (i + 1 + c) + tlen)) as [M|M];
    try lia; [reflexivity|].
  rewrite slice_ok by lia. cbn [bind].
  rewrite copy_fresh.
  replace (i + 1 + c + Z.to_nat tlen - (i + 1 + c))%nat with (Z.to_nat tlen) by lia.
  reflexivity.
Qed.

Lemma overrun_tags_at_excl (b : list byte) (i : nat) (ts : list Tag) :
  tags_at b i ts -> overrun b i -> False.
Proof.
  induction 1 as [i Hi | i tlen c ts Hi Hh Hfit Hrest IH]; intros Ho.
  - inversion Ho; lia.
  - inversion Ho as [i' tlen' c' _ Hh' Hover | i' tlen' c' _ Hh' _ Hnext]; subst;
      rewrite Hh in Hh'; apply pair_equal_spec in Hh'; destruct Hh'; subst.
    + lia.
    + apply IH, Hnext.
Qed.

Lemma tags_at_functional (b : list byte) (i : nat) (ts ts' : list Tag) :
  tags_at b i ts -> tags_at b i ts' -> ts = ts'.
Proof.
  intros H. revert ts'.
  induction H as [i Hi | i tlen c ts Hi Hh Hfit Hrest IH]; intros ts' H'.
  - inversion H'; subst; [reflexivity | lia].
  - inversion H' as [? Hi' | i' tlen' c' ts2 _ Hh' _ Hrest']; subst; [lia|].
    rewrite Hh in Hh'; apply pair_equal_spec in Hh'; destruct Hh'; subst.
    f_equal. apply IH, Hrest'.
Qed.

(** The loop of [UnmarshalBinary] ends, with the tags of the input or with
    [io.ErrUnexpectedEOF] at the first tag that overruns. *)
Lemma unmarshalTags_spec (fuel : nat) :
  forall (b : list byte) (i : nat) (tags : list Tag),
    (length b - 4 - i <= fuel)%nat ->
    (overrun b i /\ unmarshalTags fuel b i tags = Err ErrUnexpectedEOF) \/
    (exists ts, tags_at b i ts /\ unmarshalTags fuel b i tags = Ok (tags ++ ts)).
Proof.
  induction fuel as [|fuel IH]; intros b i tags Hf.
  - right. exists []. split.
    + apply tags_at_end. lia.
    + rewrite unmarshalTags_done by lia. rewrite app_nil_r. reflexivity.
  - destruct (Nat.ltb_spec i (length b - 4)) as [Hi|Hi].
    + destruct (tag_header b i) as [tlen c] eqn:Hh.
      pose proof Hh as Hb. apply field_length_bounds in Hb. destruct Hb as [Hb Hc].
      rewrite (unmarshalTags_step fuel b i tags tlen c Hi Hh).
      destruct (Z.ltb_spec (Z.of_nat (length b - 4)) (Z.of_nat (i + 1 + c) + tlen)) as [L|L].
      * left. split; [|reflexivity].
        eapply overrun_here; eassumption.
      * destruct (IH b (i + 1 + c + Z.to_nat tlen)%nat
                     (tags ++ [mkTag (byte_at b i)
                                 (firstn (Z.to_nat tlen) (skipn (i + 1 + c) b))]))
          as [[Ho E] | [ts [Ht E]]]; [lia | |].
        -- left. split; [|exact E].
           eapply overrun_later; eassumption.
        -- right. eexists. split.
           ++ eapply tags_at_tag; eassumption.
           ++ rewrite E, <- app_assoc. reflexivity.
    + right. exists []. split.
      * apply tags_at_end. lia.
      * rewrite unmarshalTags_done by lia. rewrite app_nil_r. reflexivity.
Qed.

(** ** The header and the trailer *)

Lemma LittleEndian_Uint32_val (b : list byte) :
  (4 <= length b)%nat ->
  binary.LittleEndian_Uint32 (skipn (length b - 4) b) = Ok (stored_checksum b).
Proof.
  intros H. unfold binary.LittleEndian_Uint32.
  assert (L : length (skipn (length b - 4) b) = 4%nat)
    by (rewrite length_skipn; lia).
  rewrite !index_ok by lia. cbn [bind].
  rewrite !byte_at_skipn. rewrite Nat.add_0_r.
  unfold stored_checksum. f_equal.
  set (k := (length b - 4)%nat).
  pose proof (b2z_range (byte_at b k)).
  pose proof (b2z_range (byte_at b (k + 1))).
  pose proof (b2z_range (byte_at b (k + 2))).
  pose proof (b2z_range (byte_at b (k + 3))).
  rewrite (lor_disjoint_add _ _ 8) by pow_lia.
  rewrite (lor_disjoint_add _ _ 16) by pow_lia.
  rewrite (lor_disjoint_add _ _ 24) by pow_lia.
  reflexivity.
Qed.

Lemma BigEndian_Uint16_val (x y : byte) :
  binary.BigEndian_Uint16 [x; y] = Ok (2 ^ 8 * b2z x + b2z y).
Proof.
  unfold binary.BigEndian_Uint16. cbn [index nth_error bind].
  pose proof (b2z_range x). pose proof (b2z_range y).
  rewrite (lor_disjoint_add _ _ 8) by pow_lia.
  f_equal. lia.
Qed.

Lemma stored_checksum_range (b : list byte) : 0 <= stored_checksum b < 2 ^ 32.
Proof.
  unfold stored_checksum.
  set (k := (length b - 4)%nat).
  pose proof (b2z_range (byte_at b k)).
  pose proof (b2z_range (byte_at b (k + 1))).
  pose proof (b2z_range (byte_at b (k + 2))).
  pose proof (b2z_range (byte_at b (k + 3))).
  pow_lia.
Qed.

Lemma declared_length_range (b : list byte) : 0 <= declared_length b < 65536.
Proof.
  unfold declared_length.
  pose proof (b2z_range (byte_at b 2)). pose proof (b2z_range (byte_at b 3)).
  pow_lia.
Qed.

(** [UnmarshalBinary] on an input of at least eight bytes, with each header
    field read off the input. *)
Lemma UnmarshalBinary_header (p : Packet) (b : list byte) :
  (8 <= length b)%nat ->
  UnmarshalBinary p b =
  if negb (stored_checksum b =? computed_checksum b) then Err errInvalidChecksum
  else if negb (declared_length b =? Z.of_nat (length b) - 8) then Err ErrUnexpectedEOF
  else if declared_length b =? 0 then Ok (mkPacket (declared_type b) (Tags p))
  else tags <- unmarshalTags (length b) b 4 [] ;;
       Ok (mkPacket (declared_type b) tags).
Proof.
  intros H. unfold UnmarshalBinary.
  destruct (Nat.ltb_spec (length b) 8) as [|_]; [lia|].
  rewrite slice_from_ok by lia. cbn [bind].
  rewrite LittleEndian_Uint32_val by lia. cbn [bind].
  rewrite slice_ok by lia. cbn [bind].
  rewrite Nat.sub_0_r. change (skipn 0 b) with b.
  fold (computed_checksum b).
  destruct (negb (stored_checksum b =? computed_checksum b)); [reflexivity|].
  rewrite (slice_ok b 0 2) by lia. rewrite (slice_ok b 2 4) by lia.
  change (skipn 0 b) with b.
  change (2 - 0)%nat with 2%nat. change (4 - 2)%nat with 2%nat.
  pose proof (firstn2_skipn b 0) as E0. change (skipn 0 b) with b in E0.
  rewrite E0 by lia. rewrite firstn2_skipn by lia.
  cbn [bind]. rewrite !BigEndian_Uint16_val. cbn [bind].
  reflexivity.
Qed.

(** ** Decoding: totality and failure conditions *)

Lemma readTagLength_returns (w : list byte) : returns (readTagLength w).
Proof.
  unfold readTagLength.
  destruct (Nat.eqb_spec (length w) 2) as [E|E]; cbn [negb].
  - destruct (length2_inv w E) as [x [y ->]].
    left. exists (field_length x y).
    pose proof (readTagLength_field x y) as R. unfold readTagLength in R.
    exact R.
  - right. eexists. reflexivity.
Qed.

(** C10.  [UnmarshalBinary] is total: on every input, for every receiver, it
    returns a packet or an error; no index or slice expression of the decoder
    leaves the input, and the loop over the tags ends.  [readTagLength] is
    total as well. *)
Theorem UnmarshalBinary_total :
  (forall (p : Packet) (b : list byte), returns (UnmarshalBinary p b)) /\
  (forall w : list byte, returns (readTagLength w)).
Proof.
  split; [|exact readTagLength_returns].
  intros p b. unfold returns.
  destruct (Nat.ltb_spec (length b) 8) as [S|L].
  - right. exists ErrUnexpectedEOF. unfold UnmarshalBinary.
    destruct (Nat.ltb_spec (length b) 8); [reflexivity | lia].
  - rewrite UnmarshalBinary_header by lia.
    destruct (negb (stored_checksum b =? computed_checksum b));
      [right; eexists; reflexivity|].
    destruct (negb (declared_length b =? Z.of_nat (length b) - 8));
      [right; eexists; reflexivity|].
    destruct (declared_length b =? 0); [left; eexists; reflexivity|].
    destruct (unmarshalTags_spec (length b) b 4 []) as [[_ E] | [ts [_ E]]];
      [lia | |]; rewrite E; cbn [bind].
    + right. eexists. reflexivity.
    + left. eexists. reflexivity.
Qed.




(** ** CRC-32: a changed byte changes the checksum *)

Module crc32_facts.
Import crc32.

Lemma in_byte_values (i : Z) : 0 <= i < 256 -> In i byte_values.
Proof.
  intros H. unfold byte_values. apply in_map_iff.
  exists (Z.to_nat i). split; [lia|]. apply in_seq. lia.
Qed.

Lemma forallb_pairs (P : Z -> Z -> bool) (l : list Z) (i j : Z) :
  forallb (fun i => forallb (P i) l) l = true ->
  In i l -> In j l -> P i j = true.
Proof.
  intros H Hi Hj. rewrite forallb_forall in H.
  specialize (H i Hi). rewrite forallb_forall in H. apply H, Hj.
Qed.

Lemma entries_32bit : forallb entry_32bit byte_values = true.
Proof. vm_compute. reflexivity. Qed.

Lemma all_top_bytes_differ :
  forallb (fun i => forallb (top_bytes_differ i) byte_values) byte_values = true.
Proof. vm_compute. reflexivity. Qed.

Lemma table_range (i : Z) : 0 <= i < 256 -> 0 <= IEEETable i < 2 ^ 32.
Proof.
  intros H. pose proof entries_32bit as E.
  rewrite forallb_forall in E. specialize (E i (in_byte_values i H)).
  unfold entry_32bit in E.
  apply andb_true_iff in E. destruct E as [E1 E2].
  apply Z.leb_le in E1. apply Z.ltb_lt in E2. split; assumption.
Qed.

Lemma table_top_inj (i j : Z) :
  0 <= i < 256 -> 0 <= j < 256 ->
  Z.shiftr (IEEETable i) 24 = Z.shiftr (IEEETable j) 24 -> i = j.
Proof.
  intros Hi Hj E.
  pose proof (forallb_pairs top_bytes_differ byte_values i j all_top_bytes_differ
                (in_byte_values i Hi) (in_byte_values j Hj)) as T.
  unfold top_bytes_differ in T.
  apply orb_true_iff in T. destruct T as [T|T].
  - apply Z.eqb_eq in T. exact T.
  - apply negb_true_iff, Z.eqb_neq in T. contradiction.
Qed.

Local Opaque IEEETable.

Lemma lxor_range (a b n : Z) :
  0 <= n -> 0 <= a < 2 ^ n -> 0 <= b < 2 ^ n -> 0 <= Z.lxor a b < 2 ^ n.
Proof.
  intros Hn Ha Hb.
  assert (N : 0 <= Z.lxor a b) by (apply Z.lxor_nonneg; lia).
  split; [exact N|].
  destruct (Z.eq_dec (Z.lxor a b) 0) as [E|E].
  - rewrite E. apply Z.pow_pos_nonneg; lia.
  - destruct (Z.eq_dec n 0) as [->|Hn0].
    { assert (a = 0) by (change (2 ^ 0) with 1 in Ha; lia).
      assert (b = 0) by (change (2 ^ 0) with 1 in Hb; lia).
      subst. rewrite Z.lxor_0_l in E. contradiction. }
    apply Z.log2_lt_pow2; [lia|].
    eapply Z.le_lt_trans; [apply Z.log2_lxor; lia|].
    apply Z.max_lub_lt.
    + destruct (Z.eq_dec a 0) as [->|]; [simpl; lia|].
      apply Z.log2_lt_pow2; lia.
    + destruct (Z.eq_dec b 0) as [->|]; [simpl; lia|].
      apply Z.log2_lt_pow2; lia.
Qed.

Lemma lxor_cancel_l (a b c : Z) : Z.lxor a b = Z.lxor a c -> b = c.
Proof.
  intros H.
  assert (E : Z.lxor a (Z.lxor a b) = Z.lxor a (Z.lxor a c)) by (rewrite H; reflexivity).
  rewrite <- !Z.lxor_assoc, !Z.lxor_nilpotent, !Z.lxor_0_l in E. exact E.
Qed.

Lemma lxor_cancel_r (a b c : Z) : Z.lxor b a = Z.lxor c a -> b = c.
Proof. rewrite !(Z.lxor_comm _ a). apply lxor_cancel_l. Qed.

Lemma low_byte_range (s : Z) : 0 <= Z.land s 255 < 256.
Proof.
  change 255 with (Z.ones 8). rewrite Z.land_ones by lia.
  apply Z.mod_pos_bound. reflexivity.
Qed.

Lemma table_index_range (s : Z) (v : byte) :
  0 <= Z.lxor (Z.land s 255) (b2z v) < 256.
Proof.
  apply (lxor_range _ _ 8); [lia | apply low_byte_range | apply b2z_range].
Qed.

Lemma shiftr8_range (s : Z) : 0 <= s < 2 ^ 32 -> 0 <= Z.shiftr s 8 < 2 ^ 24.
Proof.
  intros H. rewrite Z.shiftr_div_pow2 by lia. split.
  - apply Z.div_pos; pow_lia.
  - apply Z.div_lt_upper_bound; pow_lia.
Qed.

Lemma update_byte_range (s : Z) (v : byte) :
  0 <= s < 2 ^ 32 -> 0 <= update_byte s v < 2 ^ 32.
Proof.
  intros H. unfold update_byte. apply lxor_range; [lia | |].
  - apply table_range, table_index_range.
  - pose proof (shiftr8_range s H). pow_lia.
Qed.

Lemma update_byte_top (s : Z) (v : byte) :
  0 <= s < 2 ^ 32 ->
  Z.shiftr (update_byte s v) 24 =
  Z.shiftr (IEEETable (Z.lxor (Z.land s 255) (b2z v))) 24.
Proof.
  intros H. unfold update_byte. rewrite Z.shiftr_lxor.
  rewrite Z.shiftr_shiftr by lia. change (8 + 24) with 32.
  rewrite (Z.shiftr_div_pow2 s 32) by lia.
  rewrite Z.div_small by lia. apply Z.lxor_0_r.
Qed.

Lemma split_low_byte (s : Z) : s = 256 * Z.shiftr s 8 + Z.land s 255.
Proof.
  rewrite Z.shiftr_div_pow2 by lia.
  change 255 with (Z.ones 8). rewrite Z.land_ones by lia.
  change (2 ^ 8) with 256. apply Z.div_mod. lia.
Qed.

(** For a fixed input byte the step is injective on 32-bit states. *)
Lemma update_byte_inj_state (s s' : Z) (v : byte) :
  0 <= s < 2 ^ 32 -> 0 <= s' < 2 ^ 32 ->
  update_byte s v = update_byte s' v -> s = s'.
Proof.
  intros Hs Hs' E.
  assert (T : Z.shiftr (update_byte s v) 24 = Z.shiftr (update_byte s' v) 24)
    by (rewrite E; reflexivity).
  rewrite !update_byte_top in T by assumption.
  apply table_top_inj in T; try apply table_index_range.
  unfold update_byte in E. rewrite T in E. apply lxor_cancel_l in E.
  apply lxor_cancel_r in T.
  rewrite (split_low_byte s), (split_low_byte s'), E, T. reflexivity.
Qed.

(** For a fixed state, different input bytes lead to different states. *)
Lemma update_byte_inj_byte (s : Z) (v v' : byte) :
  0 <= s < 2 ^ 32 ->
  update_byte s v = update_byte s v' -> v = v'.
Proof.
  intros Hs E.
  assert (T : Z.shiftr (update_byte s v) 24 = Z.shiftr (update_byte s v') 24)
    by (rewrite E; reflexivity).
  rewrite !update_byte_top in T by assumption.
  apply table_top_inj in T; try apply table_index_range.
  apply lxor_cancel_l in T. apply b2z_inj, T.
Qed.

Lemma fold_update_range (p : list byte) :
  forall s, 0 <= s < 2 ^ 32 -> 0 <= fold_left update_byte p s < 2 ^ 32.
Proof.
  induction p as [|v p IH]; intros s H; simpl; [exact H|].
  apply IH, update_byte_range, H.
Qed.

Lemma fold_update_inj (p : list byte) :
  forall s s', 0 <= s < 2 ^ 32 -> 0 <= s' < 2 ^ 32 ->
    fold_left update_byte p s = fold_left update_byte p s' -> s = s'.
Proof.
  induction p as [|v p IH]; intros s s' H H' E; simpl in E; [exact E|].
  apply IH in E; try (apply update_byte_range; assumption).
  eapply update_byte_inj_state; eassumption.
Qed.

(** Two inputs that differ in exactly one byte have different checksums. *)
Lemma ChecksumIEEE_changed_byte (pre post : list byte) (v v' : byte) :
  v <> v' ->
  ChecksumIEEE (pre ++ v :: post) <> ChecksumIEEE (pre ++ v' :: post).
Proof.
  intros Hv E. unfold ChecksumIEEE, simpleUpdate in E.
  apply lxor_cancel_l in E.
  rewrite !fold_left_app in E. simpl in E.
  set (s := fold_left update_byte pre (Z.lxor mask32 0)) in E.
  assert (Hs : 0 <= s < 2 ^ 32).
  { apply fold_update_range. vm_compute. split; [discriminate | reflexivity]. }
  apply fold_update_inj in E; try (apply update_byte_range; exact Hs).
  apply update_byte_inj_byte in E; [contradiction | exact Hs].
Qed.

End crc32_facts.

(** ** Checksum sensitivity *)

Lemma UnmarshalBinary_ok_checksum (p q : Packet) (b : list byte) :
  UnmarshalBinary p b = Ok q ->
  (8 <= length b)%nat /\ stored_checksum b = computed_checksum b.
Proof.
  intros H.
  destruct (Nat.ltb_spec (length b) 8) as [S|L].
  - unfold UnmarshalBinary in H.
    destruct (Nat.ltb_spec (length b) 8); [discriminate H | lia].
  - split; [exact L|]. rewrite UnmarshalBinary_header in H by lia.
    destruct (Z.eqb_spec (stored_checksum b) (computed_checksum b)) as [C|C];
      [exact C | discriminate H].
Qed.

Lemma flipped_byte_differs (x : byte) (k : Z) :
  0 <= k < 8 -> z2b (Z.lxor (b2z x) (2 ^ k)) <> x.
Proof.
  intros Hk E.
  assert (P : 0 < 2 ^ k < 2 ^ 8).
  { split; [apply Z.pow_pos_nonneg; lia | apply Z.pow_lt_mono_r; lia]. }
  assert (R : 0 <= Z.lxor (b2z x) (2 ^ k) < 2 ^ 8).
  { apply crc32_facts.lxor_range; [lia | apply b2z_range | lia]. }
  assert (F : b2z (z2b (Z.lxor (b2z x) (2 ^ k))) = b2z x) by (rewrite E; reflexivity).
  rewrite b2z_z2b_small in F by exact R.
  rewrite <- (Z.lxor_0_r (b2z x)) in F at 2.
  apply crc32_facts.lxor_cancel_l in F. lia.
Qed.

Lemma split_at (b : list byte) (pos : nat) :
  (pos < length b)%nat ->
  exists pre post, b = pre ++ byte_at b pos :: post /\ length pre = pos.
Proof. intros H. apply nth_split, H. Qed.

Lemma flip_bit_split (pre post : list byte) (x : byte) (k : Z) :
  flip_bit (pre ++ x :: post) (length pre) k =
  pre ++ z2b (Z.lxor (b2z x) (2 ^ k)) :: post.
Proof.
  unfold flip_bit, byte_at.
  rewrite nth_middle.
  rewrite firstn_app, firstn_all, Nat.sub_diag. simpl firstn. rewrite app_nil_r.
  f_equal. f_equal.
  rewrite skipn_app.
  rewrite skipn_all2 by lia.
  replace (S (length pre) - length pre)%nat with 1%nat by lia. reflexivity.
Qed.

Lemma byte_at_after (pre post : list byte) (x y : byte) (j : nat) :
  (length pre < j)%nat ->
  byte_at (pre ++ x :: post) j = byte_at (pre ++ y :: post) j.
Proof.
  intros H. unfold byte_at.
  rewrite !app_nth2 by lia.
  destruct (j - length pre)%nat as [|m] eqn:E; [lia|]. reflexivity.
Qed.

Lemma firstn_after (pre post : list byte) (x : byte) (n : nat) :
  (length pre < n)%nat ->
  firstn n (pre ++ x :: post) = pre ++ x :: firstn (n - length pre - 1) post.
Proof.
  intros H. rewrite firstn_app, firstn_all2 by lia. f_equal.
  destruct (n - length pre)%nat as [|m] eqn:E; [lia|].
  simpl. replace (m - 0)%nat with m by lia. reflexivity.
Qed.

Lemma stored_checksum_after (pre post : list byte) (x y : byte) :
  (4 <= length post)%nat ->
  stored_checksum (pre ++ x :: post) = stored_checksum (pre ++ y :: post).
Proof.
  intros H. unfold stored_checksum.
  rewrite !length_app. cbn [length].
  rewrite !(byte_at_after pre post x y) by lia. reflexivity.
Qed.

Lemma computed_checksum_changed (pre post : list byte) (x y : byte) :
  (4 <= length post)%nat -> x <> y ->
  computed_checksum (pre ++ x :: post) <> computed_checksum (pre ++ y :: post).
Proof.
  intros H Hxy. unfold computed_checksum.
  rewrite !length_app. cbn [length].
  rewrite !firstn_after by lia.
  apply crc32_facts.ChecksumIEEE_changed_byte, Hxy.
Qed.

(** C9.  If [b] decodes, then [b] with any single bit flipped before the
    final four checksum bytes does not: [UnmarshalBinary] returns
    [errInvalidChecksum], since the CRC-32 of the bytes before the checksum
    has changed while the stored checksum has not. *)
Theorem checksum_sensitivity (b : list byte) (p : Packet) (pos : nat) (k : Z) :
  decode b = Ok p ->
  (pos < length b - 4)%nat ->
  0 <= k < 8 ->
  decode (flip_bit b pos k) = Err errInvalidChecksum /\
  computed_checksum (flip_bit b pos k) <> stored_checksum (flip_bit b pos k).
Proof.
  intros Hd Hpos Hk.
  apply UnmarshalBinary_ok_checksum in Hd. destruct Hd as [L C].
  destruct (split_at b pos) as [pre [post [Eb Epre]]]; [lia|].
  pose proof (flipped_byte_differs (byte_at b pos) k Hk) as Hx.
  revert Eb Hx. generalize (byte_at b pos). intros x Eb Hx.
  subst b pos. rewrite flip_bit_split.
  set (x' := z2b (Z.lxor (b2z x) (2 ^ k))) in *.
  rewrite length_app in L, Hpos. cbn [length] in L, Hpos.
  assert (N : computed_checksum (pre ++ x' :: post)
              <> stored_checksum (pre ++ x' :: post)).
  { rewrite (stored_checksum_after pre post x' x), C by lia.
    apply computed_checksum_changed; [lia | exact Hx]. }
  split; [|exact N].
  unfold decode. rewrite UnmarshalBinary_header
    by (rewrite length_app; cbn [length]; lia).
  destruct (Z.eqb_spec (stored_checksum (pre ++ x' :: post))
                       (computed_checksum (pre ++ x' :: post))) as [E|E].
  - symmetry in E. contradiction.
  - reflexivity.
Qed.

Lemma checksum_sensitivity_witness :
  decode (flip_bit (hexs [0; 3; 0; 0; 0x45; 0x61; 0x02; 0x23]) 1 0)
  = Err errInvalidChecksum.
Proof.
  apply (checksum_sensitivity (hexs [0; 3; 0; 0; 0x45; 0x61; 0x02; 0x23])
           (mkPacket 3 []) 1 0); [reflexivity | simpl; lia | lia].
Defined.

(** ** The encoder writes the wire layout *)

Lemma store_frame (pre post : list byte) (x y : byte) :
  store (pre ++ x :: post) (length pre) y = Ok (pre ++ y :: post).
Proof.
  unfold store. rewrite length_app. cbn [length].
  destruct (Nat.ltb_spec (length pre) (length pre + S (length post))); [|lia].
  rewrite firstn_app, firstn_all, Nat.sub_diag. cbn [firstn]. rewrite app_nil_r.
  rewrite skipn_app, skipn_all2 by lia.
  replace (S (length pre) - length pre)%nat with 1%nat by lia. reflexivity.
Qed.

Lemma slice_frame (pre w post : list byte) :
  slice (pre ++ w ++ post) (length pre) (length pre + length w) = Ok w.
Proof.
  rewrite slice_ok; [| lia | rewrite !length_app; lia].
  rewrite skipn_app, skipn_all, Nat.sub_diag. cbn [skipn app].
  replace (length pre + length w - length pre)%nat with (length w) by lia.
  rewrite firstn_app, firstn_all, Nat.sub_diag. cbn [firstn]. rewrite app_nil_r.
  reflexivity.
Qed.

Lemma write_back_frame (pre w w' post : list byte) :
  write_back (pre ++ w ++ post) (length pre) (length pre + length w) w' =
  pre ++ w' ++ post.
Proof.
  unfold write_back.
  rewrite firstn_app, firstn_all, Nat.sub_diag. cbn [firstn]. rewrite app_nil_r.
  f_equal. f_equal.
  rewrite skipn_app, skipn_all2 by lia.
  replace (length pre + length w - length pre)%nat with (length w) by lia.
  rewrite skipn_app, skipn_all, Nat.sub_diag. reflexivity.
Qed.

Lemma skipn_repeat (k n : nat) :
  skipn k (repeat x00 n) = repeat x00 (n - k).
Proof.
  revert n. induction k as [|k IH]; intros n.
  - rewrite Nat.sub_0_r. reflexivity.
  - destruct n as [|n]; [reflexivity|]. simpl. apply IH.
Qed.

(** The tail of [marshalTag]: [i += copy(b[i:], t.Data)] into a zeroed rest
    of the buffer that has room for the data. *)
Lemma copy_into_rest (pre data : list byte) (k : nat) :
  (length data <= k)%nat ->
  slice_from (pre ++ repeat x00 k) (length pre) = Ok (repeat x00 k) /\
  copy (repeat x00 k) data = (data ++ repeat x00 (k - length data), length data) /\
  forall dst, write_back (pre ++ repeat x00 k) (length pre)
                (length (pre ++ repeat x00 k)) dst = pre ++ dst.
Proof.
  intros H. split; [|split].
  - rewrite slice_from_ok by (rewrite length_app; lia).
    rewrite skipn_app, skipn_all, Nat.sub_diag. reflexivity.
  - unfold copy. rewrite repeat_length.
    rewrite Nat.min_r by lia.
    rewrite firstn_all, skipn_repeat. reflexivity.
  - intros dst. unfold write_back.
    rewrite firstn_app, firstn_all, Nat.sub_diag. cbn [firstn]. rewrite app_nil_r.
    rewrite skipn_all. rewrite app_nil_r. reflexivity.
Qed.

Lemma large_bytes_wire (n : Z) :
  128 <= n ->
  [large_b0 n; large_b1 n] = wire_length_field n.
Proof.
  intros H. unfold wire_length_field.
  destruct (Z.ltb_spec n 128); [lia|].
  f_equal; [|f_equal].
  - apply b2z_inj. rewrite large_b0_val by lia.
    rewrite b2z_z2b_small; [reflexivity|].
    rewrite <- large_b0_val by lia. apply b2z_range.
  - unfold large_b1. change (b2z x00) with 0. rewrite Z.lor_0_l.
    rewrite z2b_b2z. reflexivity.
Qed.

Lemma wire_length_field_length (n : Z) :
  length (wire_length_field n) = if n <? 128 then 1%nat else 2%nat.
Proof. unfold wire_length_field. destruct (n <? 128); reflexivity. Qed.

Lemma wire_tag_length (t : Tag) :
  length (wire_tag t) =
  (1 + (if (Z.of_nat (length (tag_Data t)) <? 128)%Z then 1 else 2)
   + length (tag_Data t))%nat.
Proof.
  unfold wire_tag. cbn [length]. rewrite length_app, wire_length_field_length.
  destruct (Z.of_nat (length (tag_Data t)) <? 128); lia.
Qed.

Lemma marshalTag_frame (pre : list byte) (t : Tag) (m : nat) :
  (length (wire_tag t) + 1 <= m)%nat ->
  marshalTag (pre ++ repeat x00 m, length pre) t =
  Ok (pre ++ wire_tag t ++ repeat x00 (m - length (wire_tag t)),
      (length pre + length (wire_tag t))%nat).
Proof.
  intros Hm. pose proof (wire_tag_length t) as Lt.
  destruct t as [ty data]. cbn [tag_Type tag_Data] in *.
  set (n := Z.of_nat (length data)) in *.
  destruct m as [|[|[|m]]]; try (destruct (n <? 128); lia).
  unfold marshalTag. cbn [tag_Type tag_Data repeat].
  rewrite store_frame. cbn [bind].
  pose proof (slice_frame (pre ++ [ty]) [x00; x00] (repeat x00 m)) as Sw.
  rewrite <- !app_assoc in Sw. cbn [app] in Sw.
  rewrite length_app in Sw. cbn [length] in Sw.
  rewrite Nat.add_1_r in Sw.
  rewrite Sw. cbn [bind]. fold n.
  unfold wire_tag. cbn [tag_Type tag_Data]. fold n.
  destruct (Z.ltb_spec n 128) as [Hs|Hl].
  - rewrite writeTagLength_small by lia. cbn [bind].
    pose proof (write_back_frame (pre ++ [ty]) [x00; x00] [z2b n; x00]
                  (repeat x00 m)) as Ww.
    rewrite <- !app_assoc in Ww. cbn [app] in Ww.
    rewrite length_app in Ww. cbn [length] in Ww.
    rewrite Nat.add_1_r in Ww. rewrite Ww.
    destruct (copy_into_rest (pre ++ [ty; z2b n]) data (S m)) as [E1 [E2 E3]];
      [lia|].
    rewrite <- !app_assoc in E1, E3. cbn [app repeat] in E1, E3.
    rewrite length_app in E1, E3. cbn [length] in E1, E3.
    replace (S (length pre) + 1)%nat with (length pre + 2)%nat by lia.
    rewrite E1. cbn [bind]. cbn [repeat] in E2. rewrite E2.
    rewrite E3.
    unfold wire_length_field. destruct (Z.ltb_spec n 128); [|lia].
    rewrite <- !app_assoc. cbn [app length].
    f_equal. apply f_equal2; [|lia].
    replace (S (S (S m)) - S (S (length data)))%nat
      with (S m - length data)%nat by lia.
    reflexivity.
  - rewrite writeTagLength_large by lia. cbn [bind].
    pose proof (write_back_frame (pre ++ [ty]) [x00; x00]
                  [large_b0 n; large_b1 n] (repeat x00 m)) as Ww.
    rewrite <- !app_assoc in Ww. cbn [app] in Ww.
    rewrite length_app in Ww. cbn [length] in Ww.
    rewrite Nat.add_1_r in Ww. rewrite Ww.
    destruct (copy_into_rest (pre ++ [ty; large_b0 n; large_b1 n]) data m)
      as [E1 [E2 E3]]; [lia|].
    rewrite <- !app_assoc in E1, E3. cbn [app repeat] in E1, E3.
    rewrite length_app in E1, E3. cbn [length] in E1, E3.
    replace (S (length pre) + 2)%nat with (length pre + 3)%nat by lia.
    rewrite E1. cbn [bind]. rewrite E2.
    rewrite E3.
    rewrite <- (large_bytes_wire n) by lia.
    rewrite <- !app_assoc. cbn [app length].
    f_equal. apply f_equal2; [|lia].
    replace (S (S (S m)) - S (S (S (length data))))%nat
      with (m - length data)%nat by lia.
    reflexivity.
Qed.

Lemma wire_tags_cons (t : Tag) (tags : list Tag) :
  wire_tags (t :: tags) = wire_tag t ++ wire_tags tags.
Proof. reflexivity. Qed.

Lemma marshalTags_frame (tags : list Tag) :
  forall (pre : list byte) (m : nat),
    (length (wire_tags tags) + 1 <= m)%nat ->
    marshalTags (pre ++ repeat x00 m, length pre) tags =
    Ok (pre ++ wire_tags tags ++ repeat x00 (m - length (wire_tags tags)),
        (length pre + length (wire_tags tags))%nat).
Proof.
  induction tags as [|t tags IH]; intros pre m Hm.
  - cbn [marshalTags wire_tags map concat app length].
    rewrite Nat.sub_0_r, Nat.add_0_r. reflexivity.
  - rewrite wire_tags_cons in *. rewrite length_app in *.
    cbn [marshalTags]. rewrite marshalTag_frame by lia. cbn [bind].
    specialize (IH (pre ++ wire_tag t) (m - length (wire_tag t))%nat).
    rewrite length_app, <- app_assoc in IH. rewrite IH by lia.
    rewrite <- !app_assoc. f_equal. apply f_equal2; [|lia].
    replace (m - length (wire_tag t) - length (wire_tags tags))%nat
      with (m - (length (wire_tag t) + length (wire_tags tags)))%nat by lia.
    reflexivity.
Qed.

Lemma count_tags (tags : list Tag) :
  forall c, fold_left count_tag tags c = c + Z.of_nat (length (wire_tags tags)).
Proof.
  induction tags as [|t tags IH]; intros c.
  - simpl. lia.
  - cbn [fold_left]. rewrite IH, wire_tags_cons, length_app, wire_tag_length.
    unfold count_tag, largeTagLength.
    destruct (Z.ltb_spec (Z.of_nat (length (tag_Data t))) 128);
      destruct (Z.geb_spec (Z.of_nat (length (tag_Data t))) 128); lia.
Qed.

Lemma PutUint16_fresh (v : Z) :
  binary.BigEndian_PutUint16 [x00; x00] v = Ok (wire_uint16 v).
Proof. reflexivity. Qed.

Lemma PutUint32_fresh (v : Z) :
  binary.LittleEndian_PutUint32 [x00; x00; x00; x00] v = Ok (wire_uint32_le v).
Proof. reflexivity. Qed.

(** [MarshalBinary] never fails, and its output is the wire layout. *)
Lemma MarshalBinary_wire (p : Packet) : MarshalBinary p = Ok (wire p).
Proof.
  unfold MarshalBinary. rewrite count_tags.
  set (L := length (wire_tags (Tags p))).
  replace (Z.to_nat (2 + 2 + (0 + Z.of_nat L) + 4)) with (4 + (L + 4))%nat by lia.
  cbn [Nat.add repeat].
  change (slice (x00 :: x00 :: x00 :: x00 :: repeat x00 (L + 4)) 0 2)
    with (@Ok (list byte) [x00; x00]).
  cbn [bind]. rewrite PutUint16_fresh. cbn [bind].
  change (write_back (x00 :: x00 :: x00 :: x00 :: repeat x00 (L + 4)) 0 2
            (wire_uint16 (Type_ p)))
    with (wire_uint16 (Type_ p) ++ x00 :: x00 :: repeat x00 (L + 4)).
  change (slice (wire_uint16 (Type_ p) ++ x00 :: x00 :: repeat x00 (L + 4)) 2 4)
    with (@Ok (list byte) [x00; x00]).
  cbn [bind]. rewrite PutUint16_fresh. cbn [bind].
  rewrite Z.add_0_l.
  set (hdr := wire_uint16 (Type_ p) ++ wire_uint16 (Z.of_nat L mod 65536)).
  change (write_back (wire_uint16 (Type_ p) ++ x00 :: x00 :: repeat x00 (L + 4))
            2 4 (wire_uint16 (Z.of_nat L mod 65536)))
    with (hdr ++ repeat x00 (L + 4)).
  change 4%nat with (length hdr) at 2.
  rewrite marshalTags_frame by (fold L; lia). cbn [bind]. fold L.
  replace (L + 4 - L)%nat with 4%nat by lia.
  assert (Eb : hdr ++ wire_tags (Tags p) ++ repeat x00 4
               = wire_body p ++ [x00; x00; x00; x00]).
  { unfold wire_body, hdr. fold L. rewrite <- !app_assoc. reflexivity. }
  rewrite Eb.
  assert (Ln : (length (wire_body p ++ [x00; x00; x00; x00]) - 4)%nat
               = length (wire_body p)).
  { rewrite length_app. cbn [length]. lia. }
  rewrite Ln.
  pose proof (slice_frame [] (wire_body p) [x00; x00; x00; x00]) as S1.
  cbn [app length Nat.add] in S1. rewrite S1. cbn [bind].
  destruct (copy_into_rest (wire_body p) [] 4) as [S2 [_ W]]; [cbn; lia|].
  cbn [repeat] in S2, W. rewrite S2. cbn [bind].
  rewrite PutUint32_fresh. cbn [bind].
  rewrite W. reflexivity.
Qed.

(** ** Decoding what the encoder wrote *)

Lemma field_length_wire_small (n : Z) (y : byte) :
  0 <= n < 128 -> field_length (z2b n) y = (n, 1%nat).
Proof.
  intros H. pose proof (readTagLength_small n y H) as R.
  rewrite readTagLength_field in R. injection R as R. exact R.
Qed.

Lemma field_length_wire_large (n : Z) :
  128 <= n <= 32767 -> field_length (large_b0 n) (large_b1 n) = (n, 2%nat).
Proof.
  intros H. pose proof (readTagLength_large n H) as R.
  rewrite readTagLength_field in R. injection R as R. exact R.
Qed.

Lemma byte_at_frame (pre post : list byte) (k : nat) :
  byte_at (pre ++ post) (length pre + k) = byte_at post k.
Proof. unfold byte_at. apply app_nth2_plus. Qed.

Lemma skipn_frame (pre post : list byte) (k : nat) :
  skipn (length pre + k) (pre ++ post) = skipn k post.
Proof.
  rewrite skipn_app.
  rewrite skipn_all2 by lia.
  replace (length pre + k - length pre)%nat with k by lia. reflexivity.
Qed.

Lemma firstn_exact (a b : list byte) : firstn (length a) (a ++ b) = a.
Proof.
  rewrite firstn_app, firstn_all, Nat.sub_diag. cbn [firstn]. apply app_nil_r.
Qed.

(** The tag walk of the decoder over a buffer that holds [wire_tags tags]
    between a prefix and the four checksum bytes. *)
Lemma tags_at_wire (tags : list Tag) :
  forall (pre crc : list byte),
    length crc = 4%nat ->
    Forall (fun t => Z.of_nat (length (tag_Data t)) <= 32767) tags ->
    tags_at (pre ++ wire_tags tags ++ crc) (length pre) tags.
Proof.
  induction tags as [|t tags IH]; intros pre crc Hc Hf.
  - apply tags_at_end. rewrite length_app. cbn [wire_tags map concat app]. lia.
  - inversion Hf as [|t' tags' Ht Hf']; subst.
    rewrite wire_tags_cons. rewrite <- app_assoc.
    pose proof (wire_tag_length t) as Lt.
    destruct t as [ty data]. cbn [tag_Type tag_Data] in *.
    set (n := Z.of_nat (length data)) in *.
    set (rest := wire_tags tags ++ crc).
    set (b := pre ++ wire_tag (mkTag ty data) ++ rest).
    assert (Lb : length b = (length pre + length (wire_tag (mkTag ty data))
                             + length (wire_tags tags) + 4)%nat).
    { unfold b, rest. rewrite !length_app. lia. }
    assert (T0 : byte_at b (length pre) = ty).
    { rewrite <- (Nat.add_0_r (length pre)). unfold b. rewrite byte_at_frame.
      reflexivity. }
    specialize (IH (pre ++ wire_tag (mkTag ty data)) crc Hc Hf').
    rewrite <- app_assoc in IH. fold rest in IH. fold b in IH.
    rewrite length_app in IH.
    destruct (Z.ltb_spec n 128) as [Hs|Hl].
    + assert (Ew : wire_tag (mkTag ty data) = ty :: z2b n :: data).
      { unfold wire_tag, wire_length_field. cbn [tag_Type tag_Data]. fold n.
        destruct (Z.ltb_spec n 128); [reflexivity | lia]. }
      assert (Hh : tag_header b (length pre) = (n, 1%nat)).
      { unfold tag_header, b. rewrite !byte_at_frame, Ew.
        cbn [app]. unfold byte_at at 1. cbn [nth].
        apply field_length_wire_small. lia. }
      assert (Ed : firstn (Z.to_nat n) (skipn (length pre + 1 + 1) b) = data).
      { unfold b. rewrite <- Nat.add_assoc, skipn_frame, Ew.
        cbn [app Nat.add skipn]. unfold n. rewrite Nat2Z.id.
        apply firstn_exact. }
      replace (mkTag ty data)
        with (mkTag (byte_at b (length pre))
                (firstn (Z.to_nat n) (skipn (length pre + 1 + 1) b)))
        by (rewrite T0, Ed; reflexivity).
      apply tags_at_tag; [lia | exact Hh | lia |].
      replace (length pre + 1 + 1 + Z.to_nat n)%nat
        with (length pre + length (wire_tag (mkTag ty data)))%nat by lia.
      exact IH.
    + assert (Ew : wire_tag (mkTag ty data)
                   = ty :: large_b0 n :: large_b1 n :: data).
      { unfold wire_tag. cbn [tag_Type tag_Data]. fold n.
        rewrite <- large_bytes_wire by lia. reflexivity. }
      assert (Hh : tag_header b (length pre) = (n, 2%nat)).
      { unfold tag_header, b. rewrite !byte_at_frame, Ew.
        cbn [app]. unfold byte_at. cbn [nth].
        apply field_length_wire_large. lia. }
      assert (Ed : firstn (Z.to_nat n) (skipn (length pre + 1 + 2) b) = data).
      { unfold b. rewrite <- Nat.add_assoc, skipn_frame, Ew.
        cbn [app Nat.add skipn]. unfold n. rewrite Nat2Z.id.
        apply firstn_exact. }
      replace (mkTag ty data)
        with (mkTag (byte_at b (length pre))
                (firstn (Z.to_nat n) (skipn (length pre + 1 + 2) b)))
        by (rewrite T0, Ed; reflexivity).
      apply tags_at_tag; [lia | exact Hh | lia |].
      replace (length pre + 1 + 2 + Z.to_nat n)%nat
        with (length pre + length (wire_tag (mkTag ty data)))%nat by lia.
      exact IH.
Qed.

Lemma ChecksumIEEE_range (d : list byte) : 0 <= crc32.ChecksumIEEE d < 2 ^ 32.
Proof.
  unfold crc32.ChecksumIEEE, crc32.simpleUpdate.
  assert (M : 0 <= crc32.mask32 < 2 ^ 32) by (unfold crc32.mask32; pow_lia).
  apply crc32_facts.lxor_range; [lia | exact M |].
  apply crc32_facts.fold_update_range.
  rewrite Z.lxor_0_r. exact M.
Qed.

Lemma uint32_le_value (v : Z) :
  0 <= v < 2 ^ 32 ->
  b2z (z2b v) + 2 ^ 8 * b2z (z2b (Z.shiftr v 8))
  + 2 ^ 16 * b2z (z2b (Z.shiftr v 16)) + 2 ^ 24 * b2z (z2b (Z.shiftr v 24)) = v.
Proof.
  intros H. rewrite !b2z_z2b, !Z.shiftr_div_pow2 by lia.
  change (2 ^ 8) with 256. change (2 ^ 16) with 65536.
  change (2 ^ 24) with 16777216. change (2 ^ 32) with 4294967296 in H.
  Z.div_mod_to_equations. lia.
Qed.

Lemma uint16_value (v : Z) :
  0 <= v < 65536 ->
  2 ^ 8 * b2z (z2b (Z.shiftr v 8)) + b2z (z2b v) = v.
Proof.
  intros H. rewrite !b2z_z2b, !Z.shiftr_div_pow2 by lia.
  change (2 ^ 8) with 256.
  Z.div_mod_to_equations. lia.
Qed.

Lemma wire_body_length (p : Packet) :
  length (wire_body p) = (4 + length (wire_tags (Tags p)))%nat.
Proof. unfold wire_body. rewrite !length_app. reflexivity. Qed.

Lemma wire_length (p : Packet) :
  length (wire p) = (8 + length (wire_tags (Tags p)))%nat.
Proof. unfold wire. rewrite length_app, wire_body_length. cbn [length wire_uint32_le]. lia. Qed.

Lemma wire_checksum (p : Packet) :
  stored_checksum (wire p) = computed_checksum (wire p).
Proof.
  unfold stored_checksum, computed_checksum.
  replace (length (wire p) - 4)%nat with (length (wire_body p))
    by (rewrite wire_length, wire_body_length; lia).
  unfold wire. rewrite firstn_exact.
  rewrite <- (Nat.add_0_r (length (wire_body p))) at 1.
  rewrite !byte_at_frame.
  unfold byte_at, wire_uint32_le. cbn [nth].
  apply uint32_le_value, ChecksumIEEE_range.
Qed.

Lemma wire_declared (p : Packet) :
  0 <= Type_ p < 65536 ->
  declared_type (wire p) = Type_ p /\
  declared_length (wire p) = Z.of_nat (length (wire_tags (Tags p))) mod 65536.
Proof.
  intros H. unfold declared_type, declared_length, wire, wire_body, wire_uint16.
  unfold byte_at. cbn [app nth].
  split; apply uint16_value; [exact H|].
  apply Z.mod_pos_bound. lia.
Qed.

Lemma wire_tags_nil_inv (tags : list Tag) :
  length (wire_tags tags) = 0%nat -> tags = [].
Proof.
  destruct tags as [|t tags]; [reflexivity|].
  rewrite wire_tags_cons, length_app, wire_tag_length. lia.
Qed.

(** Decoding the encoding of a well-formed packet gives the packet back. *)
Lemma decode_wire (p : Packet) : wf_packet p -> decode (wire p) = Ok p.
Proof.
  intros [Ht [Hf Hl]]. unfold decode.
  pose proof (wire_length p) as L.
  destruct (wire_declared p Ht) as [Dt Dl].
  rewrite Z.mod_small in Dl by lia.
  rewrite UnmarshalBinary_header by lia.
  rewrite wire_checksum, Z.eqb_refl. cbn [negb].
  rewrite Dt, Dl.
  destruct (Z.eqb_spec (Z.of_nat (length (wire_tags (Tags p))))
                       (Z.of_nat (length (wire p)) - 8)) as [_|N]; [|lia].
  cbn [negb].
  destruct (Z.eqb_spec (Z.of_nat (length (wire_tags (Tags p)))) 0) as [Z0|Z0].
  - destruct p as [ty tags]. cbn [Type_ Tags] in *.
    rewrite (wire_tags_nil_inv tags) by lia. reflexivity.
  - pose proof (tags_at_wire (Tags p)
                  (wire_uint16 (Type_ p)
                   ++ wire_uint16 (Z.of_nat (length (wire_tags (Tags p))) mod 65536))
                  (wire_uint32_le (crc32.ChecksumIEEE (wire_body p)))
                  eq_refl Hf) as T.
    assert (Ew : wire p =
                 (wire_uint16 (Type_ p)
                  ++ wire_uint16 (Z.of_nat (length (wire_tags (Tags p))) mod 65536))
                 ++ wire_tags (Tags p)
                 ++ wire_uint32_le (crc32.ChecksumIEEE (wire_body p))).
    { unfold wire, wire_body. rewrite <- !app_assoc. reflexivity. }
    rewrite <- Ew in T. cbn [length wire_uint16 app] in T.
    destruct (unmarshalTags_spec (length (wire p)) (wire p) 4 [])
      as [[O _] | [ts [T' E]]]; [lia | |].
    + exfalso. eapply overrun_tags_at_excl; eassumption.
    + rewrite E. cbn [bind app].
      rewrite (tags_at_functional _ _ _ _ T' T).
      destruct p; reflexivity.
Qed.

Lemma tags_at_wf (b : list byte) (i : nat) (ts : list Tag) :
  tags_at b i ts ->
  (i <= length b - 4)%nat ->
  Forall (fun t => Z.of_nat (length (tag_Data t)) <= 32767) ts /\
  (i + length (wire_tags ts) <= length b - 4)%nat.
Proof.
  induction 1 as [i Hi | i tlen c ts Hi Hh Hfit Hrest IH]; intros Hle.
  - split; [constructor | cbn; lia].
  - pose proof Hh as Hb. unfold tag_header in Hb.
    pose proof Hb as Hw. apply field_length_bounds in Hb. destruct Hb as [Hb Hc].
    destruct IH as [IH1 IH2]; [lia|].
    assert (Ld : length (firstn (Z.to_nat tlen) (skipn (i + 1 + c) b))
                 = Z.to_nat tlen).
    { apply firstn_length_le. rewrite length_skipn. lia. }
    split.
    + constructor; [|exact IH1]. cbn [tag_Data]. rewrite Ld. lia.
    + rewrite wire_tags_cons, length_app, wire_tag_length. cbn [tag_Data].
      rewrite Ld.
      assert (Wc : ((if (Z.of_nat (Z.to_nat tlen) <? 128)%Z then 1 else 2) <= c)%nat).
      { destruct (Z.ltb_spec (Z.of_nat (Z.to_nat tlen)) 128); [lia|].
        unfold field_length in Hw.
        destruct (Z.ltb_spec (b2z (byte_at b (i + 1))) 128);
          apply pair_equal_spec in Hw; destruct Hw; subst; lia. }
      lia.
Qed.

(** What a successful decode yields is well formed. *)
Lemma decode_wf (b : list byte) (p : Packet) : decode b = Ok p -> wf_packet p.
Proof.
  unfold decode. intros H.
  pose proof (UnmarshalBinary_ok_checksum _ _ _ H) as [L _].
  rewrite UnmarshalBinary_header in H by lia.
  destruct (negb (stored_checksum b =? computed_checksum b)); [discriminate|].
  destruct (Z.eqb_spec (declared_length b) (Z.of_nat (length b) - 8)) as [D|D];
    cbn [negb] in H; [|discriminate].
  pose proof (declared_length_range b) as R.
  assert (Rt : 0 <= declared_type b < 65536).
  { unfold declared_type.
    pose proof (b2z_range (byte_at b 0)). pose proof (b2z_range (byte_at b 1)).
    pow_lia. }
  destruct (declared_length b =? 0).
  - injection H as <-. repeat split; cbn; try lia. constructor.
  - destruct (unmarshalTags_spec (length b) b 4 []) as [[_ E] | [ts [T E]]];
      [lia | |]; rewrite E in H; cbn [bind app] in H; [discriminate|].
    injection H as <-.
    destruct (tags_at_wf b 4 ts T) as [F W]; [lia|].
    repeat split; cbn [Type_ Tags]; try lia. exact F.
Qed.

(** The second half of the round trip: a packet obtained from a successful
    decode is encoded by [MarshalBinary] without error, and decoding those
    bytes gives the same packet. *)
Lemma decode_MarshalBinary_roundtrip (b : list byte) (p : Packet) :
  decode b = Ok p ->
  exists b', MarshalBinary p = Ok b' /\ decode b' = Ok p.
Proof.
  intros H. exists (wire p). split.
  - apply MarshalBinary_wire.
  - apply decode_wire. eapply decode_wf, H.
Qed.

(** ** The round trip on a non-canonical length field *)

(** C1.  The round trip [encode(decode(b)) == b] fails on the code:
    [UnmarshalBinary] accepts [noncanonical_input], whose tag length 0 is
    written in the two-byte form, and [MarshalBinary] of the decoded packet
    writes the length in the one-byte form, so it returns 10 bytes where the
    input had 11; the [Fuzz] function of the package panics on this input. *)
Theorem roundtrip_noncanonical_length :
  Fuzz noncanonical_input = Panic /\
  decode noncanonical_input = Ok (mkPacket 3 [mkTag x01 []]) /\
  MarshalBinary (mkPacket 3 [mkTag x01 []])
  = Ok (hexs [0x00; 0x03; 0x00; 0x02; 0x01; 0x00; 0x5c; 0x3e; 0xfd; 0xec]) /\
  hexs [0x00; 0x03; 0x00; 0x02; 0x01; 0x00; 0x5c; 0x3e; 0xfd; 0xec]
  <> noncanonical_input.
Proof.
  split; [vm_compute; reflexivity|].
  split; [vm_compute; reflexivity|].
  split; [vm_compute; reflexivity|].
  intros E. apply (f_equal (@length byte)) in E. vm_compute in E. discriminate E.
Qed.

(** ** Reading into a buffer *)

Lemma copy_slice (buf data : list byte) :
  slice (fst (copy buf data)) 0 (snd (copy buf data))
  = Ok (firstn (length buf) data).
Proof.
  unfold copy. cbn [fst snd].
  set (n := Nat.min (length buf) (length data)).
  assert (L : length (firstn n data) = n).
  { apply firstn_length_le. unfold n. lia. }
  rewrite slice_ok; [| lia | rewrite length_app, L; lia].
  rewrite Nat.sub_0_r. cbn [skipn].
  rewrite <- L at 1. rewrite firstn_exact.
  unfold n. destruct (Nat.le_ge_cases (length buf) (length data)).
  - rewrite Nat.min_l by lia. reflexivity.
  - rewrite Nat.min_r by lia. rewrite !firstn_all2 by lia. reflexivity.
Qed.

(** ** The enumerator *)

Section ForEachTuner_facts.

Variable Debug : nat -> option error.
Variable fn : nat -> option error.

(** While every tuner below [k] exists and the callback accepts it, the
    loop walks up to [k], visiting each index on the way. *)
Lemma ForEachTuner_from_walk (n : nat) :
  forall (fuel i : nat) (visited : list nat),
    (forall j, (i <= j < i + n)%nat -> Debug j = None) ->
    (forall j, (i <= j < i + n)%nat -> fn j = None) ->
    ForEachTuner_from Debug fn (n + fuel) i visited =
    ForEachTuner_from Debug fn fuel (i + n) (visited ++ seq i n).
Proof.
  induction n as [|n IH]; intros fuel i visited HD Hf.
  - cbn [seq Nat.add]. rewrite app_nil_r, Nat.add_0_r. reflexivity.
  - cbn [Nat.add ForEachTuner_from].
    rewrite HD, Hf by lia.
    rewrite IH by (intros; (apply HD || apply Hf); lia).
    cbn [seq]. rewrite <- app_assoc. cbn [app].
    replace (S i + n)%nat with (i + S n)%nat by lia. reflexivity.
Qed.

End ForEachTuner_facts.

(** C6.  If the debug query succeeds for every index below [k] (and the
    callback accepts those tuners) and fails at [k] with an error for which
    [IsNotExist] holds, [ForEachTuner] invokes the callback once for each of
    0, ..., k-1, in increasing order, and returns nil.  If the query at [k]
    fails with any other error, that error is returned and the callback has
    been invoked on 0, ..., k-1 only; if the callback fails on tuner [k],
    its error is returned and no further tuner is visited. *)
Theorem ForEachTuner_termination
        (Debug fn : nat -> option error) (k fuel : nat) :
  (forall i, (i < k)%nat -> Debug i = None) ->
  (forall i, (i < k)%nat -> fn i = None) ->
  (k < fuel)%nat ->
  (forall err, Debug k = Some err -> IsNotExist (Some err) = true ->
     ForEachTuner Debug fn fuel = (seq 0 k, Ok tt)) /\
  (forall err, Debug k = Some err -> IsNotExist (Some err) = false ->
     ForEachTuner Debug fn fuel = (seq 0 k, Err err)) /\
  (forall err, Debug k = None -> fn k = Some err ->
     ForEachTuner Debug fn fuel = (seq 0 k ++ [k], Err err)).
Proof.
  intros HD Hf Hk.
  assert (W : ForEachTuner Debug fn fuel
              = ForEachTuner_from Debug fn (fuel - k) k (seq 0 k)).
  { unfold ForEachTuner.
    replace fuel with (k + (fuel - k))%nat at 1 by lia.
    rewrite ForEachTuner_from_walk;
      [reflexivity | intros; apply HD; lia | intros; apply Hf; lia]. }
  rewrite W. destruct (fuel - k)%nat as [|f] eqn:Ef; [lia|].
  cbn [ForEachTuner_from].
  split; [|split].
  - intros err E N. rewrite E, N. reflexivity.
  - intros err E N. rewrite E, N. reflexivity.
  - intros err E F. rewrite E, F. reflexivity.
Qed.

Lemma ForEachTuner_termination_witness :
  ForEachTuner
    (fun i => if (i <? 2)%nat then None else Some (DeviceError unknownGetSet))
    (fun _ => None) 5
  = ([0; 1]%nat, Ok tt).
Proof.
  apply (ForEachTuner_termination
           (fun i => if (i <? 2)%nat then None else Some (DeviceError unknownGetSet))
           (fun _ => None) 2 5) with (err := DeviceError unknownGetSet).
  - intros i H. destruct (Nat.ltb_spec i 2); [reflexivity | lia].
  - reflexivity.
  - lia.
  - reflexivity.
  - reflexivity.
Defined.

(** ** Execute *)

(** C7.  [Execute] on a client whose receive buffer has the maximum packet
    size: when a timeout is configured it first sets the deadline
    [now + timeout] on the connection; it then marshals the request, writes
    the marshalled bytes in one [Write], reads once into the buffer of
    [MaxPacketSize] bytes, and unmarshals exactly the bytes read.  The first
    stage that fails ends the call with that stage's error, and no later
    call is made on the connection. *)
Theorem Execute_pipeline (cl : Client) (now : Z) (req : Packet) :
  length (b cl) = libhdhomerun.MaxPacketSize ->
  let h0 := calls (c cl) in
  let h1 := h0 ++ deadline_calls cl now in
  let cl' := fst (Execute cl now req) in
  let r := snd (Execute cl now req) in
  match deadline_error cl now with
  | Some err => r = Err err /\ calls (c cl') = h1
  | None =>
      match MarshalBinary req with
      | Ok pb =>
          let h2 := h1 ++ [CallWrite pb] in
          match snd (onWrite (c cl) h1 pb) with
          | Some err => r = Err err /\ calls (c cl') = h2
          | None =>
              calls (c cl') = h2 ++ [CallRead libhdhomerun.MaxPacketSize] /\
              match onRead (c cl) h2 libhdhomerun.MaxPacketSize with
              | (_, Some err) => r = Err err
              | (data, None) =>
                  r = UnmarshalBinary zeroPacket
                        (firstn libhdhomerun.MaxPacketSize data)
              end
          end
      | Err err => r = Err err /\ calls (c cl') = h1
      | Panic => r = Panic /\ calls (c cl') = h1
      | OutOfFuel => r = OutOfFuel /\ calls (c cl') = h1
      end
  end.
Proof.
  intros Hb. cbv zeta.
  unfold Execute, deadline_error, deadline_calls.
  destruct cl as [conn buf tmo]. cbn [c b timeout] in *.
  destruct conn as [h oD oW oR]. cbn [calls onSetDeadline onWrite onRead].
  assert (Hc : forall h' : list Call,
     (let '(conn, derr) := (mkConn h' oD oW oR, @None error) in
      match derr with
      | Some err => (mkClient conn buf tmo, @Err Packet err)
      | None =>
          match MarshalBinary req with
          | Ok pb =>
              let '(conn0, (_, werr)) := Conn_Write conn pb in
              match werr with
              | Some err => (mkClient conn0 buf tmo, Err err)
              | None =>
                  let '(conn1, buf0, n, rerr) := Conn_Read conn0 buf in
                  let cl0 := mkClient conn1 buf0 tmo in
                  match rerr with
                  | Some err => (cl0, Err err)
                  | None => (cl0, w <- slice buf0 0 n ;; UnmarshalBinary zeroPacket w)
                  end
              end
          | Err err => (mkClient conn buf tmo, Err err)
          | Panic => (mkClient conn buf tmo, Panic)
          | OutOfFuel => (mkClient conn buf tmo, OutOfFuel)
          end
      end) =
     match MarshalBinary req with
     | Ok pb =>
         match snd (oW h' pb) with
         | Some err =>
             (mkClient (mkConn (h' ++ [CallWrite pb]) oD oW oR) buf tmo, Err err)
         | None =>
             let conn1 := mkConn ((h' ++ [CallWrite pb])
                                    ++ [CallRead libhdhomerun.MaxPacketSize])
                            oD oW oR in
             let '(data, rerr) := oR (h' ++ [CallWrite pb])
                                     libhdhomerun.MaxPacketSize in
             (mkClient conn1 (fst (copy buf data)) tmo,
              match rerr with
              | Some err => Err err
              | None => UnmarshalBinary zeroPacket
                          (firstn libhdhomerun.MaxPacketSize data)
              end)
         end
     | Err err => (mkClient (mkConn h' oD oW oR) buf tmo, Err err)
     | Panic => (mkClient (mkConn h' oD oW oR) buf tmo, Panic)
     | OutOfFuel => (mkClient (mkConn h' oD oW oR) buf tmo, OutOfFuel)
     end).
  { intros h'. destruct (MarshalBinary req) as [pb| | |]; try reflexivity.
    unfold Conn_Write, Conn_Read, record_call.
    cbn [calls onSetDeadline onWrite onRead].
    destruct (oW h' pb) as [nw [werr|]]; cbn [snd]; [reflexivity|].
    cbv zeta. rewrite Hb.
    destruct (oR (h' ++ [CallWrite pb]) libhdhomerun.MaxPacketSize)
      as [data rerr].
    pose proof (copy_slice buf data) as Cs.
    destruct (copy buf data) as [buf' n]. cbn [fst snd] in Cs.
    destruct rerr as [err|]; [reflexivity|].
    rewrite Cs, Hb. reflexivity. }
  destruct (Z.eqb_spec tmo 0) as [T0|T0]; cbn [negb].
  - rewrite app_nil_r. rewrite Hc.
    destruct (MarshalBinary req) as [pb| | |]; cbn [fst snd c calls];
      try (split; reflexivity).
    destruct (snd (oW h pb)); cbn [fst snd c calls]; [split; reflexivity|].
    destruct (oR (h ++ [CallWrite pb]) libhdhomerun.MaxPacketSize) as [data [e|]];
      cbn [fst snd c calls]; split; reflexivity.
  - unfold Conn_SetDeadline, record_call.
    cbn [calls onSetDeadline onWrite onRead].
    destruct (oD h (now + tmo)) as [err|]; [split; reflexivity|].
    rewrite Hc.
    destruct (MarshalBinary req) as [pb| | |]; cbn [fst snd c calls];
      try (split; reflexivity).
    destruct (snd (oW (h ++ [CallSetDeadline (now + tmo)]) pb));
      cbn [fst snd c calls]; [split; reflexivity|].
    destruct (oR ((h ++ [CallSetDeadline (now + tmo)]) ++ [CallWrite pb])
                libhdhomerun.MaxPacketSize) as [data [e|]];
      cbn [fst snd c calls]; split; reflexivity.
Qed.

(** ** Which occurrence of a tag the consumers use *)

Lemma byte_eqb_true (x y : byte) : byte_eqb x y = true -> x = y.
Proof. apply Byte.byte_dec_bl. Qed.

Lemma bytes_eqb_true (x : list byte) :
  forall y, bytes_eqb x y = true -> x = y.
Proof.
  induction x as [|a x IH]; intros [|b y] H; try discriminate H; [reflexivity|].
  cbn [bytes_eqb] in H. apply andb_true_iff in H. destruct H as [H1 H2].
  apply byte_eqb_true in H1. apply IH in H2. subst. reflexivity.
Qed.

Lemma bytes_eqb_refl (x : list byte) : bytes_eqb x x = true.
Proof.
  induction x as [|a x IH]; [reflexivity|].
  cbn [bytes_eqb]. rewrite IH. unfold byte_eqb.
  rewrite (Byte.byte_dec_lb eq_refl). reflexivity.
Qed.

(** Case analysis on the type of a tag against the two types [Query]
    assigns from. *)
Ltac tag_type_cases t :=
  let E := fresh "E" in
  destruct (byte_eqb (tag_Type t) libhdhomerun.TagGetsetName) eqn:E;
  [ apply byte_eqb_true in E; rewrite E in * |
    let E' := fresh "E" in
    destruct (byte_eqb (tag_Type t) libhdhomerun.TagGetsetValue) eqn:E';
    [ apply byte_eqb_true in E'; rewrite E' in * |
      let E'' := fresh "E" in
      destruct (byte_eqb (tag_Type t) libhdhomerun.TagErrorMessage) eqn:E'';
      [ apply byte_eqb_true in E''; rewrite E'' in * | ] ] ].

Ltac last_cases :=
  repeat match goal with
    | |- context [last_occurrence ?ty ?tags] =>
        destruct (last_occurrence ty tags)
    end;
  reflexivity.

Lemma scanReply_last (tags : list Tag) :
  forall (name value n v : option (list byte)),
    scanReply tags name value = Ok (n, v) ->
    n = match last_occurrence libhdhomerun.TagGetsetName tags with
        | Some d => Some d
        | None => name
        end /\
    v = match last_occurrence libhdhomerun.TagGetsetValue tags with
        | Some d => Some d
        | None => value
        end /\
    first_occurrence libhdhomerun.TagErrorMessage tags = None.
Proof.
  induction tags as [|t tags IH]; intros name value n v H.
  - cbn in H. injection H as <- <-. repeat split.
  - cbn [scanReply last_occurrence first_occurrence] in *.
    tag_type_cases t.
    + apply IH in H. destruct H as [Hn [Hv He]].
      change (byte_eqb libhdhomerun.TagGetsetName libhdhomerun.TagGetsetValue)
        with false.
      change (byte_eqb libhdhomerun.TagGetsetName libhdhomerun.TagErrorMessage)
        with false.
      change (byte_eqb libhdhomerun.TagGetsetName libhdhomerun.TagGetsetName)
        with true.
      repeat split; try assumption.
      * rewrite Hn. last_cases.
      * rewrite Hv. last_cases.
    + apply IH in H. destruct H as [Hn [Hv He]].
      change (byte_eqb libhdhomerun.TagGetsetValue libhdhomerun.TagGetsetValue)
        with true.
      change (byte_eqb libhdhomerun.TagGetsetValue libhdhomerun.TagErrorMessage)
        with false.
      repeat split; try assumption.
      * rewrite Hn. last_cases.
      * rewrite Hv. last_cases.
    + discriminate H.
    + apply IH in H. destruct H as [Hn [Hv He]].
      repeat split; try assumption.
      * rewrite Hn. last_cases.
      * rewrite Hv. last_cases.
Qed.

Lemma scanReply_error (tags : list Tag) :
  forall (name value : option (list byte)) (data : list byte),
    first_occurrence libhdhomerun.TagErrorMessage tags = Some data ->
    scanReply tags name value = Err (newError data).
Proof.
  induction tags as [|t tags IH]; intros name value data H.
  - discriminate H.
  - cbn [scanReply first_occurrence] in *.
    tag_type_cases t.
    + change (byte_eqb libhdhomerun.TagGetsetName libhdhomerun.TagErrorMessage)
        with false in H.
      apply IH, H.
    + change (byte_eqb libhdhomerun.TagGetsetValue libhdhomerun.TagErrorMessage)
        with false in H.
      apply IH, H.
    + change (byte_eqb libhdhomerun.TagErrorMessage libhdhomerun.TagErrorMessage)
        with true in H.
      injection H as <-. reflexivity.
    + apply IH, H.
Qed.

Lemma Query_reply_last (queryb : list byte) (rep : Packet) (v : list byte) :
  Query_reply queryb rep = Ok v ->
  last_occurrence libhdhomerun.TagGetsetValue (Tags rep) = Some v /\
  last_occurrence libhdhomerun.TagGetsetName (Tags rep) = Some queryb.
Proof.
  unfold Query_reply. intros H.
  destruct (negb (Type_ rep =? libhdhomerun.TypeGetsetRpy)); [discriminate|].
  destruct (scanReply (Tags rep) None None) as [[n w]| | |] eqn:E;
    cbn [bind] in H; try discriminate.
  apply scanReply_last in E. destruct E as [En [Ew _]].
  destruct n as [name|]; [|discriminate].
  destruct w as [value|]; [|discriminate].
  destruct (bytes_eqb name queryb) eqn:B; cbn [negb] in H; [|discriminate].
  apply bytes_eqb_true in B. injection H as <-. subst name.
  destruct (last_occurrence libhdhomerun.TagGetsetValue (Tags rep));
    [|discriminate].
  destruct (last_occurrence libhdhomerun.TagGetsetName (Tags rep));
    [|discriminate].
  injection En as ->. injection Ew as ->. split; reflexivity.
Qed.

(** Decide the comparisons between two tag-type constants. *)
Ltac eval_tag_consts :=
  repeat match goal with
    | |- context [byte_eqb ?a ?b] =>
        let r := eval vm_compute in (byte_eqb a b) in
        match r with
        | true => change (byte_eqb a b) with true
        | false => change (byte_eqb a b) with false
        end
    end.

Section Discovery_facts.

Variable URL : Type.
Variable url_Parse : list byte -> URL + error.

Lemma parseTag_fields (d d1 : DiscoveredDevice URL) (t : Tag) :
  parseTag URL url_Parse d t = Ok d1 ->
  type_step t d d1 /\ id_step t d d1 /\ url_step url_Parse t d d1 /\
tuners_step t d d1.
Proof.
  unfold parseTag, type_step, id_step, url_step, tuners_step. intros H.
  destruct (byte_eqb (tag_Type t) libhdhomerun.TagDeviceType) eqn:E1.
  { apply byte_eqb_true in E1. rewrite E1. eval_tag_consts.
    destruct (negb (length (tag_Data t) =? 4)%nat); [discriminate|].
    destruct (binary.BigEndian_Uint32 (tag_Data t)) as [v| | |];
      cbn [bind] in H; try discriminate.
    injection H as <-. cbn. repeat split. }
  destruct (byte_eqb (tag_Type t) libhdhomerun.TagDeviceId) eqn:E2.
  { apply byte_eqb_true in E2. rewrite E2. eval_tag_consts.
    destruct (negb (length (tag_Data t) =? 4)%nat); [discriminate|].
    injection H as <-. cbn. repeat split. }
  destruct (byte_eqb (tag_Type t) libhdhomerun.TagBaseUrl) eqn:E3.
  { apply byte_eqb_true in E3. rewrite E3. eval_tag_consts.
    destruct (url_Parse (tag_Data t)) as [u|e] eqn:U; [|discriminate].
    injection H as <-. cbn. repeat split. exists u. split; reflexivity. }
  destruct (byte_eqb (tag_Type t) libhdhomerun.TagTunerCount) eqn:E4.
  { destruct (Nat.eqb_spec (length (tag_Data t)) 1) as [L|L];
      cbn [negb] in H; [|discriminate].
    destruct (tag_Data t) as [|x [|y r]]; try discriminate L.
    cbn in H. injection H as <-. cbn. repeat split.
    exists x. split; reflexivity. }
  injection H as <-. repeat split.
Qed.

(** After [parseTags], each field holds what the last tag of its type
    gave, or is unchanged when there is no such tag. *)
Lemma parseTags_last (tags : list Tag) :
  forall d d' : DiscoveredDevice URL,
    parseTags URL url_Parse d tags = Ok d' ->
    match last_occurrence libhdhomerun.TagDeviceType tags with
    | Some data => binary.BigEndian_Uint32 data = Ok (Type__ d')
    | None => Type__ d' = Type__ d
    end /\
    match last_occurrence libhdhomerun.TagDeviceId tags with
    | Some data => ID d' = hex_EncodeToString data
    | None => ID d' = ID d
    end /\
    match last_occurrence libhdhomerun.TagBaseUrl tags with
    | Some data => exists u, url_Parse data = inl u /\ URL_ d' = Some u
    | None => URL_ d' = URL_ d
    end /\
    match last_occurrence libhdhomerun.TagTunerCount tags with
    | Some data => exists x, data = [x] /\ Tuners d' = b2z x
    | None => Tuners d' = Tuners d
    end.
Proof.
  induction tags as [|t tags IH]; intros d d' H.
  - cbn in H. injection H as <-. cbn. repeat split.
  - cbn [parseTags] in H.
    destruct (parseTag URL url_Parse d t) as [d1| | |] eqn:E1;
      cbn [bind] in H; try discriminate.
    apply parseTag_fields in E1.
    destruct E1 as [S1 [S2 [S3 S4]]].
    unfold type_step, id_step, url_step, tuners_step in *.
    apply IH in H. destruct H as [H1 [H2 [H3 H4]]].
    cbn [last_occurrence].
    repeat split.
    + destruct (last_occurrence libhdhomerun.TagDeviceType tags); [exact H1|].
      destruct (byte_eqb (tag_Type t) libhdhomerun.TagDeviceType); congruence.
    + destruct (last_occurrence libhdhomerun.TagDeviceId tags); [exact H2|].
      destruct (byte_eqb (tag_Type t) libhdhomerun.TagDeviceId); congruence.
    + destruct (last_occurrence libhdhomerun.TagBaseUrl tags); [exact H3|].
      destruct (byte_eqb (tag_Type t) libhdhomerun.TagBaseUrl); [|congruence].
      destruct S3 as [u [U1 U2]]. exists u. split; congruence.
    + destruct (last_occurrence libhdhomerun.TagTunerCount tags); [exact H4|].
      destruct (byte_eqb (tag_Type t) libhdhomerun.TagTunerCount); [|congruence].
      destruct S4 as [x [X1 X2]]. exists x. split; congruence.
Qed.

Lemma parseTag_returns (d : DiscoveredDevice URL) (t : Tag) :
  returns (parseTag URL url_Parse d t).
Proof.
  unfold parseTag, returns.
  destruct (byte_eqb (tag_Type t) libhdhomerun.TagDeviceType).
  { destruct (Nat.eqb_spec (length (tag_Data t)) 4) as [L|L]; cbn [negb];
      [|right; eexists; reflexivity].
    destruct (tag_Data t) as [|x0 [|x1 [|x2 [|x3 [|x4 r]]]]]; try discriminate L.
    left. eexists. reflexivity. }
  destruct (byte_eqb (tag_Type t) libhdhomerun.TagDeviceId).
  { destruct (negb (length (tag_Data t) =? 4)%nat);
      [right | left]; eexists; reflexivity. }
  destruct (byte_eqb (tag_Type t) libhdhomerun.TagBaseUrl).
  { destruct (url_Parse (tag_Data t)); [left | right]; eexists; reflexivity. }
  destruct (byte_eqb (tag_Type t) libhdhomerun.TagTunerCount).
  { destruct (Nat.eqb_spec (length (tag_Data t)) 1) as [L|L]; cbn [negb];
      [|right; eexists; reflexivity].
    destruct (tag_Data t) as [|x0 [|x1 r]]; try discriminate L.
    left. eexists. reflexivity. }
  left. eexists. reflexivity.
Qed.

Lemma parseTags_returns (tags : list Tag) :
  forall d : DiscoveredDevice URL, returns (parseTags URL url_Parse d tags).
Proof.
  induction tags as [|t tags IH]; intros d.
  - left. eexists. reflexivity.
  - cbn [parseTags].
    destruct (parseTag_returns d t) as [[d1 E] | [e E]]; rewrite E; cbn [bind].
    + apply IH.
    + right. eexists. reflexivity.
Qed.

Lemma newDiscoveredDevice_returns (addr : list byte) (p : Packet) :
  returns (newDiscoveredDevice URL url_Parse addr p).
Proof.
  unfold newDiscoveredDevice.
  destruct (negb (Type_ p =? libhdhomerun.TypeDiscoverRpy));
    [right; eexists; reflexivity|].
  destruct (parseTags_returns (Tags p) (mkDiscoveredDevice [] addr 0 None 0))
    as [[d1 E] | [e E]]; rewrite E; cbn [bind].
  - destruct (Type__ d1 =? 0); [right; eexists; reflexivity|].
    destruct (bytes_eqb (ID d1) []); [right | left]; eexists; reflexivity.
  - right. eexists. reflexivity.
Qed.

Lemma last_occurrence_absent (ty : byte) (tags : list Tag) :
  has_tag ty tags = false -> last_occurrence ty tags = None.
Proof.
  induction tags as [|t tags IH]; [reflexivity|].
  cbn [has_tag existsb last_occurrence]. intros H.
  apply orb_false_iff in H. destruct H as [H1 H2].
  rewrite (IH H2), H1. reflexivity.
Qed.

Lemma parseTag_tag_error (d : DiscoveredDevice URL) (t : Tag) :
  match tag_error url_Parse t with
  | Some e => parseTag URL url_Parse d t = Err e
  | None => exists d1, parseTag URL url_Parse d t = Ok d1
  end.
Proof.
  unfold tag_error, parseTag.
  destruct (byte_eqb (tag_Type t) libhdhomerun.TagDeviceType).
  { destruct (Nat.eqb_spec (length (tag_Data t)) 4) as [L|L]; cbn [negb];
      [|reflexivity].
    destruct (tag_Data t) as [|x0 [|x1 [|x2 [|x3 [|x4 r]]]]]; try discriminate L.
    eexists. reflexivity. }
  destruct (byte_eqb (tag_Type t) libhdhomerun.TagDeviceId).
  { destruct (length (tag_Data t) =? 4)%nat; cbn [negb];
      [eexists; reflexivity | reflexivity]. }
  destruct (byte_eqb (tag_Type t) libhdhomerun.TagBaseUrl).
  { destruct (url_Parse (tag_Data t)); [eexists; reflexivity | reflexivity]. }
  destruct (byte_eqb (tag_Type t) libhdhomerun.TagTunerCount).
  { destruct (Nat.eqb_spec (length (tag_Data t)) 1) as [L|L]; cbn [negb];
      [|reflexivity].
    destruct (tag_Data t) as [|x0 [|x1 r]]; try discriminate L.
    eexists. reflexivity. }
  eexists. reflexivity.
Qed.

(** [parseTags] stops at the first tag it rejects, with the error of that
    tag; when it rejects none it ends with a device. *)
Lemma parseTags_first_error (tags : list Tag) :
  forall d : DiscoveredDevice URL,
    match first_tag_error url_Parse tags with
    | Some e => parseTags URL url_Parse d tags = Err e
    | None => exists d', parseTags URL url_Parse d tags = Ok d'
    end.
Proof.
  induction tags as [|t tags IH]; intros d.
  - eexists. reflexivity.
  - cbn [first_tag_error parseTags].
    pose proof (parseTag_tag_error d t) as P.
    destruct (tag_error url_Parse t) as [e|].
    + rewrite P. reflexivity.
    + destruct P as [d1 P]. rewrite P. cbn [bind]. apply IH.
Qed.

End Discovery_facts.

(** The scan of [Query] ends at the first error tag; without one it keeps
    the last name and the last value. *)
Lemma scanReply_total (tags : list Tag) :
  forall name value : option (list byte),
    match first_occurrence libhdhomerun.TagErrorMessage tags with
    | Some data => scanReply tags name value = Err (newError data)
    | None =>
        scanReply tags name value =
        Ok (match last_occurrence libhdhomerun.TagGetsetName tags with
            | Some d => Some d
            | None => name
            end,
            match last_occurrence libhdhomerun.TagGetsetValue tags with
            | Some d => Some d
            | None => value
            end)
    end.
Proof.
  induction tags as [|t tags IH]; intros name value; [reflexivity|].
  cbn [scanReply first_occurrence last_occurrence].
  tag_type_cases t; eval_tag_consts.
  - specialize (IH (Some (tag_Data t)) value).
    destruct (first_occurrence libhdhomerun.TagErrorMessage tags); [exact IH|].
    rewrite IH. f_equal. f_equal; last_cases.
  - specialize (IH name (Some (tag_Data t))).
    destruct (first_occurrence libhdhomerun.TagErrorMessage tags); [exact IH|].
    rewrite IH. f_equal. f_equal; last_cases.
  - reflexivity.
  - specialize (IH name value).
    destruct (first_occurrence libhdhomerun.TagErrorMessage tags); [exact IH|].
    rewrite IH. f_equal. f_equal; last_cases.
Qed.

(** C3, as stated, fails on the code: in a reply with two value tags [Query]
    returns the data of the second, and with two device-ID tags [parseTags]
    keeps the ID of the second. *)
Lemma first_occurrence_refuted :
  ~ Query_uses_first_occurrence /\
  ~ parseTags_uses_first_occurrence unit (fun _ => inl tt).
Proof.
  split.
  - intros C.
    specialize (C (str "q")
                  (mkPacket libhdhomerun.TypeGetsetRpy
                     [mkTag libhdhomerun.TagGetsetName (strBytes (str "q"));
                      mkTag libhdhomerun.TagGetsetValue (str "a");
                      mkTag libhdhomerun.TagGetsetValue (str "b")])
                  (str "b") eq_refl).
    vm_compute in C. discriminate C.
  - intros C.
    specialize (C (mkDiscoveredDevice [] [] 0 None 0)
                  (mkDiscoveredDevice (str "01020304") [] 0 None 0)
                  [mkTag libhdhomerun.TagDeviceId (hexs [0xaa; 0xbb; 0xcc; 0xdd]);
                   mkTag libhdhomerun.TagDeviceId (hexs [1; 2; 3; 4])]
                  (hexs [0xaa; 0xbb; 0xcc; 0xdd]) eq_refl eq_refl).
    vm_compute in C. discriminate C.
Qed.

(** C3, amended.  The scans go through the tags in order and each matching
    tag overwrites what an earlier one set, so a scan that reaches the end
    uses the last occurrence of each recognized type; a scan ends before
    that only with an error.  For every get/set reply: if it has an error
    tag, [Query] returns the error made from the first one; otherwise the
    name it compares with the query is that of the last name tag and the
    value it returns that of the last value tag.  For every list of tags: if
    [parseTags] rejects one (a device-type or device-ID tag not of four
    bytes, a tuner-count tag not of one byte, a base URL that does not
    parse), it returns the error of the first such tag, whatever the later
    tags hold; otherwise the device type, ID, URL and tuner count it leaves
    are those of the last tag of each type. *)
Theorem consumers_use_last_occurrence
        (URL : Type) (url_Parse : list byte -> URL + error) :
  (forall (queryb : list byte) (rep : Packet),
     Type_ rep = libhdhomerun.TypeGetsetRpy ->
     Query_reply queryb rep =
     match first_occurrence libhdhomerun.TagErrorMessage (Tags rep) with
     | Some data => Err (newError data)
     | None =>
         match last_occurrence libhdhomerun.TagGetsetName (Tags rep),
               last_occurrence libhdhomerun.TagGetsetValue (Tags rep) with
         | Some name, Some value =>
             if bytes_eqb name queryb then Ok value
             else Err (errUnexpectedQuery (bytesStr name))
         | _, _ => Err errMissingNameValue
         end
     end) /\
  (forall (d : DiscoveredDevice URL) (tags : list Tag),
     match first_tag_error url_Parse tags with
     | Some e => parseTags URL url_Parse d tags = Err e
     | None =>
         exists d',
           parseTags URL url_Parse d tags = Ok d' /\
           match last_occurrence libhdhomerun.TagDeviceType tags with
           | Some data => binary.BigEndian_Uint32 data = Ok (Type__ d')
           | None => Type__ d' = Type__ d
           end /\
           match last_occurrence libhdhomerun.TagDeviceId tags with
           | Some data => ID d' = hex_EncodeToString data
           | None => ID d' = ID d
           end /\
           match last_occurrence libhdhomerun.TagBaseUrl tags with
           | Some data => exists u, url_Parse data = inl u /\ URL_ d' = Some u
           | None => URL_ d' = URL_ d
           end /\
           match last_occurrence libhdhomerun.TagTunerCount tags with
           | Some data => exists x, data = [x] /\ Tuners d' = b2z x
           | None => Tuners d' = Tuners d
           end
     end).
Proof.
  split.
  - intros queryb rep Ht. unfold Query_reply.
    rewrite Ht, Z.eqb_refl. cbn [negb].
    pose proof (scanReply_total (Tags rep) None None) as S.
    destruct (first_occurrence libhdhomerun.TagErrorMessage (Tags rep)) as [data|].
    + rewrite S. reflexivity.
    + rewrite S. cbn [bind].
      destruct (last_occurrence libhdhomerun.TagGetsetName (Tags rep)) as [name|];
        [|reflexivity].
      destruct (last_occurrence libhdhomerun.TagGetsetValue (Tags rep)) as [value|];
        [|reflexivity].
      destruct (bytes_eqb name queryb); reflexivity.
  - intros d tags.
    pose proof (parseTags_first_error URL url_Parse tags d) as P.
    destruct (first_tag_error url_Parse tags) as [e|]; [exact P|].
    destruct P as [d' P]. exists d'. split; [exact P|].
    apply (parseTags_last URL url_Parse tags d d' P).
Qed.

Lemma consumers_use_last_occurrence_witness :
  Query_reply (strBytes (str "q"))
    (mkPacket libhdhomerun.TypeGetsetRpy
       [mkTag libhdhomerun.TagGetsetName (strBytes (str "q"));
        mkTag libhdhomerun.TagGetsetValue (str "a");
        mkTag libhdhomerun.TagGetsetValue (str "b")])
  = Ok (str "b").
Proof.
  rewrite (proj1 (consumers_use_last_occurrence unit (fun _ => inl tt))
             (strBytes (str "q"))
             (mkPacket libhdhomerun.TypeGetsetRpy
                [mkTag libhdhomerun.TagGetsetName (strBytes (str "q"));
                 mkTag libhdhomerun.TagGetsetValue (str "a");
                 mkTag libhdhomerun.TagGetsetValue (str "b")])
             eq_refl).
  reflexivity.
Defined.

(** ** Discovery *)

Section Discover_facts.

Variable URL : Type.
Variable url_Parse : list byte -> URL + error.

(** The classification of a datagram, read off the decoding of its first
    2048 bytes. *)
Lemma discover_datagram (data addr : list byte) :
  discover_reply URL url_Parse data addr =
  match decode (firstn 2048 data) with
  | Ok p =>
      match newDiscoveredDevice URL url_Parse addr p with
      | Ok device => Ok device
      | Err err => Err (retryableError err)
      | Panic => Panic
      | OutOfFuel => OutOfFuel
      end
  | Err err => Err (retryableError err)
  | Panic => Panic
  | OutOfFuel => OutOfFuel
  end.
Proof.
  unfold discover_reply, decode.
  generalize (repeat_length x00 2048).
  generalize (repeat x00 2048). intros zeros Lz.
  pose proof (copy_slice zeros data) as Cs.
  destruct (copy zeros data) as [buf n]. cbn [fst snd] in Cs.
  rewrite Cs, Lz. cbn [bind]. reflexivity.
Qed.

Lemma newDiscoveredDevice_rejects (addr : list byte) (p : Packet) :
  Type_ p <> libhdhomerun.TypeDiscoverRpy \/
  has_tag libhdhomerun.TagDeviceType (Tags p) = false \/
  has_tag libhdhomerun.TagDeviceId (Tags p) = false ->
  forall device, newDiscoveredDevice URL url_Parse addr p <> Ok device.
Proof.
  intros H device E. unfold newDiscoveredDevice in E.
  destruct (Z.eqb_spec (Type_ p) libhdhomerun.TypeDiscoverRpy) as [T|T];
    cbn [negb] in E; [|discriminate].
  destruct (parseTags URL url_Parse (mkDiscoveredDevice [] addr 0 None 0) (Tags p))
    as [d'| | |] eqn:P; cbn [bind] in E; try discriminate.
  apply parseTags_last in P. destruct P as [P1 [P2 _]].
  destruct H as [H | [H | H]]; [contradiction | |].
  - rewrite (last_occurrence_absent _ _ H) in P1. cbn in P1.
    rewrite P1 in E. discriminate E.
  - rewrite (last_occurrence_absent _ _ H) in P2. cbn in P2.
    rewrite P2 in E.
    destruct (Type__ d' =? 0); discriminate E.
Qed.

Lemma discover_malformed (data addr : list byte) :
  malformed_reply data ->
  exists err, discover_reply URL url_Parse data addr
              = Err (retryableError err).
Proof.
  intros M. rewrite discover_datagram.
  destruct M as [[e E] | [p [E H]]]; rewrite E.
  - exists e. reflexivity.
  - pose proof (newDiscoveredDevice_rejects addr p H) as R.
    destruct (newDiscoveredDevice_returns URL url_Parse addr p)
      as [[d N] | [e N]]; rewrite N.
    + exfalso. apply (R d). exact N.
    + exists e. reflexivity.
Qed.

End Discover_facts.

(** ** The interleavings of Discover *)

Lemma retryable_true (A : Type) (r : result A) :
  retryable r = true <-> exists e, r = Err (retryableError e).
Proof.
  split.
  - destruct r as [a|e| |]; try discriminate.
    destruct e; try discriminate. intros _. eexists. reflexivity.
  - intros [e ->]. reflexivity.
Qed.

(** Open the clause of the invariant at hand; close a clause that differs
    from it by rearrangement only. *)
Ltac live_cases :=
  repeat match goal with
    | H : _ /\ _ |- _ => destruct H
    | H : ex _ |- _ => destruct H
    end;
  subst.

Ltac live_close :=
  repeat match goal with
    | |- exists _, _ => eexists
    | |- _ /\ _ => split
    end;
  try reflexivity; try eassumption; auto.

Ltac live_keep past :=
  cbn -[discover_reply discover_live Discover_live retryable];
  split; [reflexivity|]; split; [try assumption; try discriminate|];
  split; [assumption|];
  exists past; split; [assumption|]; live_close.

Section Discover_interleavings.

Variable URL : Type.
Variable url_Parse : list byte -> URL + error.

Lemma Discover_run_app (acts1 acts2 : list Action) (s : DiscoverState URL) :
  Discover_run URL url_Parse (acts1 ++ acts2) s
  = Discover_run URL url_Parse acts2 (Discover_run URL url_Parse acts1 s).
Proof. apply fold_left_app. Qed.

Lemma Discover_run_cons (a : Action) (acts : list Action) (s : DiscoverState URL) :
  Discover_run URL url_Parse (a :: acts) s
  = Discover_run URL url_Parse acts (Discover_step URL url_Parse s a).
Proof. reflexivity. Qed.

Lemma done_step (s : DiscoverState URL) (a : Action)
      (r : result (DiscoveredDevice URL)) :
  main s = M_done r -> main (Discover_step URL url_Parse s a) = M_done r.
Proof.
  destruct s as [c sc q mc w m]. cbn [main]. intros ->.
  destruct a; cbn; try reflexivity.
  - destruct c; reflexivity.
  - destruct w, c; reflexivity.
  - destruct w; reflexivity.
  - destruct w; reflexivity.
Qed.

Lemma done_run (acts : list Action) :
  forall (s : DiscoverState URL) (r : result (DiscoveredDevice URL)),
    main s = M_done r -> main (Discover_run URL url_Parse acts s) = M_done r.
Proof.
  induction acts as [|a acts IH]; intros s r H; [exact H|].
  cbn [Discover_run fold_left]. apply IH, done_step, H.
Qed.

(** *** While the context is live *)

Lemma Discover_live_app_none (past rest : list ReadEvent) :
  Discover_live URL url_Parse past = None ->
  Discover_live URL url_Parse (past ++ rest) = Discover_live URL url_Parse rest.
Proof.
  induction past as [|ev past IH]; intros H; [reflexivity|].
  cbn [Discover_live app] in *.
  destruct (retryable (discover_live URL url_Parse ev)); [|discriminate H].
  apply IH, H.
Qed.

Lemma Discover_live_snoc (past : list ReadEvent) (ev : ReadEvent) :
  Discover_live URL url_Parse past = None ->
  retryable (discover_live URL url_Parse ev) = true ->
  Discover_live URL url_Parse (past ++ [ev]) = None.
Proof.
  intros H R. rewrite Discover_live_app_none by exact H.
  cbn [Discover_live]. rewrite R. reflexivity.
Qed.

Lemma Discover_live_found (past rest : list ReadEvent) (ev : ReadEvent) :
  Discover_live URL url_Parse past = None ->
  retryable (discover_live URL url_Parse ev) = false ->
  Discover_live URL url_Parse (past ++ ev :: rest)
  = Some (discover_live URL url_Parse ev).
Proof.
  intros H R. rewrite Discover_live_app_none by exact H.
  cbn [Discover_live]. rewrite R. reflexivity.
Qed.

Lemma retryable_read_error (err : error) :
  event_ok (ReadError err) -> retryable (@Err (DiscoveredDevice URL) err) = false.
Proof.
  cbn. intros H. destruct err; try reflexivity.
  exfalso. exact (H _ eq_refl).
Qed.

Lemma live_init (q : list ReadEvent) :
  Forall event_ok q -> live_inv URL url_Parse q (Discover_init None q).
Proof.
  intros H. unfold live_inv, Discover_init. cbn.
  split; [reflexivity|]. split; [discriminate|]. split; [exact H|].
  exists []. repeat split.
Qed.

Lemma arrivals_cons (a : Action) (acts : list Action) :
  arrivals (a :: acts) = arrivals [a] ++ arrivals acts.
Proof. unfold arrivals. cbn [flat_map]. rewrite app_nil_r. reflexivity. Qed.

Lemma arrivals_app (acts1 acts2 : list Action) :
  arrivals (acts1 ++ acts2) = arrivals acts1 ++ arrivals acts2.
Proof. unfold arrivals. apply flat_map_app. Qed.

Lemma live_step (E : list ReadEvent) (s : DiscoverState URL) (a : Action) :
  live_inv URL url_Parse E s ->
  keeps_context a ->
  Forall event_ok (arrivals [a]) ->
  live_inv URL url_Parse (E ++ arrivals [a]) (Discover_step URL url_Parse s a).
Proof.
  intros [Hc [Hw [HE [past [HP HM]]]]] Ka Ea.
  destruct s as [c sc q mc w m].
  cbn [ctx_err socket_closed queue msgC_closed watcher main] in *. subst c.
  destruct a as [cerr|ev| | | |].
  - contradiction.
  - (* something arrives *)
    cbn in Ea |- *.
    split; [reflexivity|]. split; [exact Hw|].
    split; [apply Forall_app; split; assumption|].
    exists past. split; [exact HP|].
    destruct m; cbn; live_cases; rewrite <- ?app_assoc; cbn [app];
      live_close.
  - (* the caller *)
    cbn [arrivals flat_map app]. rewrite app_nil_r.
    unfold live_inv, Discover_step, Main_step.
    cbn [ctx_err socket_closed queue msgC_closed watcher main set_main].
    destruct m; live_cases;
      cbn -[discover_reply discover_live Discover_live retryable].
    + (* M_entry *) live_keep past.
    + (* M_call *) live_keep past.
    + (* M_read *)
      destruct q as [|[data addr|err] q]; cbn [main]; live_keep past.
    + (* M_read_failed *) live_keep past.
    + (* M_send_failed *) live_keep past.
    + (* M_close *)
      cbn [main]. split; [reflexivity|]. split; [exact Hw|]. split; [exact HE|].
      exists past. split; [exact HP|]. exists (ReadError err).
      split; [reflexivity|]. split; [reflexivity|]. intros _. eexists. reflexivity.
    + (* M_send_ok *) live_keep past.
    + (* M_decode *)
      cbn [main]. split; [reflexivity|]. split; [exact Hw|]. split; [exact HE|].
      exists past. split; [exact HP|]. exists (Datagram data addr).
      split; [reflexivity|]. split; [reflexivity|]. intros C. discriminate C.
    + (* M_wait *)
      rename x into ev.
      assert (Step :
        live_inv URL url_Parse (past ++ ev :: q)
          (if retryable (discover_live URL url_Parse ev)
           then mkDiscoverState None sc q mc w M_call
           else mkDiscoverState None sc q mc w
                  (M_done (discover_live URL url_Parse ev)))).
      { destruct (retryable (discover_live URL url_Parse ev)) eqn:R.
        - split; [reflexivity|]. split; [exact Hw|]. split; [exact HE|].
          exists (past ++ [ev]). split; [apply Discover_live_snoc; assumption|].
          cbn. split; [rewrite <- app_assoc; reflexivity|].
          destruct sc; [|reflexivity].
          destruct H1 as [err ->]; [reflexivity|].
          rewrite Forall_app in HE. destruct HE as [_ HE].
          inversion HE as [|x l Ok1 _]. subst.
          cbn [discover_live] in R. rewrite retryable_read_error in R by exact Ok1.
          discriminate R.
        - split; [reflexivity|]. split; [exact Hw|]. split; [exact HE|].
          exists past. split; [exact HP|]. cbn. exists ev.
          repeat split. exact R. }
      destruct w; try exact Step;
        (split; [reflexivity|]; split; [exact Hw|]; split; [exact HE|];
         exists past; split; [exact HP|]; cbn; exists ev; repeat split; assumption).
    + (* M_done *)
      cbn [main]. split; [reflexivity|]. split; [exact Hw|]. split; [exact HE|].
      exists past. split; [exact HP|]. exists x. repeat split; assumption.
  - (* the select cannot take ctx.Done() *)
    cbn [arrivals flat_map app]. rewrite app_nil_r.
    unfold Discover_step. cbn [ctx_err watcher].
    replace (match w with W_select | _ => _ end)
      with (mkDiscoverState (@None error) sc q mc w m) by (destruct w; reflexivity).
    split; [reflexivity|]. split; [exact Hw|]. split; [exact HE|].
    exists past. split; assumption.
  - (* the handoff *)
    cbn [arrivals flat_map app]. rewrite app_nil_r.
    unfold live_inv, Discover_step.
    cbn [ctx_err socket_closed queue msgC_closed watcher main].
    assert (Same : live_inv URL url_Parse E (mkDiscoverState None sc q mc w m)).
    { split; [reflexivity|]. split; [exact Hw|]. split; [exact HE|].
      exists past. split; assumption. }
    destruct w; try exact Same.
    destruct m; try exact Same; live_cases; cbn [main].
    + split; [reflexivity|]. split; [discriminate|]. split; [exact HE|].
      exists past. split; [exact HP|]. split; reflexivity.
    + split; [reflexivity|]. split; [discriminate|]. split; [exact HE|].
      exists past. split; [exact HP|]. split; reflexivity.
  - (* the watcher after its select *)
    cbn [arrivals flat_map app]. rewrite app_nil_r.
    unfold live_inv, Discover_step.
    cbn [ctx_err socket_closed queue msgC_closed watcher main].
    assert (Same : live_inv URL url_Parse E (mkDiscoverState None sc q mc w m)).
    { split; [reflexivity|]. split; [exact Hw|]. split; [exact HE|].
      exists past. split; assumption. }
    destruct w; try exact Same; try contradiction;
      (split; [reflexivity|]; split; [discriminate|]; split; [exact HE|];
       exists past; split; [exact HP|];
       destruct m; cbn [main] in *; live_cases; try discriminate;
       live_close).
Qed.

Lemma live_run (acts : list Action) :
  forall (E : list ReadEvent) (s : DiscoverState URL),
    live_inv URL url_Parse E s ->
    Forall keeps_context acts ->
    Forall event_ok (arrivals acts) ->
    live_inv URL url_Parse (E ++ arrivals acts) (Discover_run URL url_Parse acts s).
Proof.
  induction acts as [|a acts IH]; intros E s I K A.
  - cbn. rewrite app_nil_r. exact I.
  - rewrite arrivals_cons in *. rewrite Forall_app in A. destruct A as [A1 A2].
    inversion K as [|a' l K1 K2]. subst.
    rewrite app_assoc. cbn [Discover_run fold_left].
    apply IH; [|assumption|assumption].
    apply live_step; assumption.
Qed.

(** While the context is live, whatever the interleaving, what [Discover]
    returns is what the sequential loop returns on the reads in their
    order of arrival; the socket is closed by then only after a failed
    read. *)
Lemma live_refines (q : list ReadEvent) (acts : list Action)
      (r : result (DiscoveredDevice URL)) :
  Forall keeps_context acts ->
  Forall event_ok (q ++ arrivals acts) ->
  Discover URL url_Parse None q acts = Some r ->
  Discover_live URL url_Parse (q ++ arrivals acts) = Some r.
Proof.
  intros K A H. unfold Discover in H.
  rewrite Forall_app in A. destruct A as [A1 A2].
  pose proof (live_run acts q _ (live_init q A1) K A2) as I.
  destruct I as [_ [_ [_ [past [HP HM]]]]].
  destruct (main (Discover_run URL url_Parse acts (Discover_init None q)))
    as [| | | | | | | | |r']; try discriminate H.
  injection H as ->. destruct HM as [ev [-> [<- R]]].
  apply Discover_live_found; assumption.
Qed.

Lemma live_socket (q : list ReadEvent) (acts : list Action) :
  Forall keeps_context acts ->
  Forall malformed_datagram (q ++ arrivals acts) ->
  socket_closed (Discover_run URL url_Parse acts (Discover_init None q)) = false.
Proof.
  intros K M.
  assert (A : Forall event_ok (q ++ arrivals acts)).
  { eapply Forall_impl; [|exact M]. intros ev [data [addr [-> _]]]. exact I. }
  rewrite Forall_app in A. destruct A as [A1 A2].
  pose proof (live_run acts q _ (live_init q A1) K A2) as I.
  destruct I as [_ [_ [_ [past [HP HM]]]]].
  assert (NoErr : forall pre err post,
            q ++ arrivals acts <> pre ++ ReadError err :: post).
  { intros pre err post E. rewrite E in M.
    rewrite Forall_app in M. destruct M as [_ M].
    inversion M as [|x l [data [addr [C _]]] _]. discriminate C. }
  destruct (main (Discover_run URL url_Parse acts (Discover_init None q)));
    live_cases; try assumption;
    try (exfalso; eapply NoErr; eassumption).
  - destruct (socket_closed _) eqn:S; [|reflexivity].
    destruct (H1 eq_refl) as [err ->]. exfalso. eapply NoErr; eassumption.
  - rewrite H in M. rewrite Forall_app in M. destruct M as [_ M].
    inversion M as [|y l [data [addr [-> Mal]]] _]. subst.
    destruct (discover_malformed URL url_Parse data addr Mal) as [e E].
    cbn [discover_live] in H1. rewrite E in H1. discriminate H1.
Qed.

(** A schedule on which the loop makes the reads that are waiting, one
    after the other, up to the first that is not retried. *)
Lemma live_schedule (q : list ReadEvent) :
  forall (mc : bool) (w : WatcherPC) (r : result (DiscoveredDevice URL)),
    Forall event_ok q ->
    Discover_live URL url_Parse q = Some r ->
    exists acts,
      Forall goroutine_step acts /\
      main (Discover_run URL url_Parse acts
              (mkDiscoverState None false q mc w M_call)) = M_done r.
Proof.
  induction q as [|ev q IH]; intros mc w r A H; [discriminate H|].
  inversion A as [|x l A1 A2]. subst.
  cbn [Discover_live] in H.
  destruct ev as [data addr|err].
  - cbn [discover_live] in H.
    destruct (retryable (discover_reply URL url_Parse data addr)) eqn:R.
    + destruct (IH false W_close_msgC r A2 H) as [acts [G D]].
      exists ([MainStep; MainStep; WatcherTakesMsg; MainStep; WatcherStep;
               MainStep] ++ acts).
      split; [apply Forall_app; split; [repeat constructor | exact G]|].
      rewrite Discover_run_app.
      cbn -[discover_reply retryable]. rewrite R.
      exact D.
    + injection H as <-.
      exists [MainStep; MainStep; WatcherTakesMsg; MainStep; WatcherStep;
              MainStep].
      split; [repeat constructor|].
      cbn -[discover_reply retryable]. rewrite R. reflexivity.
  - cbn [discover_live] in H.
    rewrite retryable_read_error in H by exact A1. injection H as <-.
    exists [MainStep; MainStep; MainStep; WatcherTakesMsg; MainStep;
            WatcherStep; MainStep].
    split; [repeat constructor|].
    cbn -[retryable]. rewrite retryable_read_error by exact A1. reflexivity.
Qed.

Lemma live_returns (q : list ReadEvent) (r : result (DiscoveredDevice URL)) :
  Forall event_ok q ->
  Discover_live URL url_Parse q = Some r ->
  exists acts,
    Forall goroutine_step acts /\
    Discover URL url_Parse None q acts = Some r.
Proof.
  intros A H.
  destruct (live_schedule q false W_exited r A H) as [acts [G D]].
  exists (MainStep :: acts). split; [constructor; [exact I | exact G]|].
  unfold Discover. cbn [Discover_run fold_left].
  change (Discover_step URL url_Parse (Discover_init None q) MainStep)
    with (mkDiscoverState (URL := URL) None false q false W_exited M_call).
  fold (Discover_run URL url_Parse acts
          (mkDiscoverState (URL := URL) None false q false W_exited M_call)).
  rewrite D. reflexivity.
Qed.

(** *** Once the context is done *)

(** The context fires while nothing is waiting at the socket and nothing
    arrives any more: the watcher closes the socket, the read fails, and
    [io.EOF] is the only thing [Discover] can return. *)
Lemma cancelled_step (s : DiscoverState URL) (a : Action) (cerr : error) :
  ctx_fired cerr ->
  goroutine_step a ->
  ctx_err s = Some cerr -> queue s = [] -> cancel_pc (main s) ->
  ctx_err (Discover_step URL url_Parse s a) = Some cerr /\
  queue (Discover_step URL url_Parse s a) = [] /\
  cancel_pc (main (Discover_step URL url_Parse s a)).
Proof.
  intros F G C Q M. destruct s as [c sc q mc w m].
  cbn [ctx_err queue main] in *. subst c q. unfold cancel_pc, idle_pc in *.
  destruct a as [x|x| | | |]; try contradiction; cbn -[retryable].
  - unfold Main_step. cbn -[retryable].
    destruct M as [[-> | [-> | ->]] | [[err ->] | [-> | ->]]]; cbn -[retryable].
    + destruct F as [-> | ->]; cbn; repeat split; auto.
    + repeat split; auto.
    + destruct sc; cbn; repeat split; eauto.
    + destruct F as [-> | ->]; cbn; repeat split; eauto.
    + destruct w; cbn; repeat split; eauto.
    + repeat split; eauto.
  - destruct w; cbn; repeat split; eauto.
  - destruct M as [[-> | [-> | ->]] | [[err ->] | [-> | ->]]];
      destruct w; cbn; repeat split; eauto 6.
  - destruct w; cbn; repeat split; eauto.
Qed.

Lemma cancelled_run (acts : list Action) :
  forall (s : DiscoverState URL) (cerr : error),
    ctx_fired cerr ->
    Forall goroutine_step acts ->
    ctx_err s = Some cerr -> queue s = [] -> cancel_pc (main s) ->
    forall r, main (Discover_run URL url_Parse acts s) = M_done r -> r = Err EOF.
Proof.
  induction acts as [|a acts IH]; intros s cerr F G C Q M r H.
  - cbn in H.
    destruct M as [[M | [M | M]] | [[err M] | [M | M]]]; rewrite M in H;
      try discriminate H. injection H as <-. reflexivity.
  - inversion G as [|a' l G1 G2]. subst.
    destruct (cancelled_step s a cerr F G1 C Q M) as [C' [Q' M']].
    cbn [Discover_run fold_left] in H.
    exact (IH _ cerr F G2 C' Q' M' r H).
Qed.

Lemma goroutine_keeps_context (acts : list Action) :
  Forall goroutine_step acts ->
  Forall keeps_context acts /\ arrivals acts = [].
Proof.
  induction 1 as [|a acts G F [IH1 IH2]]; [split; [constructor | reflexivity]|].
  rewrite arrivals_cons, IH2.
  destruct a; try contradiction; split; try reflexivity; constructor;
    try exact I; exact IH1.
Qed.

(** Before the context fires, with nothing at the socket, the caller is on
    its way to the read or in it. *)
Lemma idle_run (acts : list Action) :
  Forall goroutine_step acts ->
  let s := Discover_run URL url_Parse acts (Discover_init None []) in
  ctx_err s = None /\ queue s = [] /\ idle_pc (main s).
Proof.
  intros G. destruct (goroutine_keeps_context acts G) as [K A].
  pose proof (live_run acts [] _ (live_init [] (Forall_nil _)) K) as L.
  rewrite A in L. specialize (L (Forall_nil _)). cbn [app] in L.
  destruct L as [C [_ [_ [past [HP HM]]]]].
  cbv zeta. split; [exact C|]. unfold idle_pc.
  destruct (main (Discover_run URL url_Parse acts (Discover_init None [])));
    live_cases;
    try (match goal with
         | H : [] = _ ++ _ :: _ |- _ =>
             exfalso; symmetry in H; apply app_eq_nil in H;
             destruct H as [_ H]; discriminate H
         end);
    match goal with
    | H : [] = _ ++ _ |- _ =>
        symmetry in H; apply app_eq_nil in H; destruct H as [_ H]
    end; auto.
Qed.

(** The errors of malformed datagrams do not reach the caller. *)
Lemma contract_step (s : DiscoverState URL) (a : Action) :
  contract_action a ->
  (forall c, ctx_err s = Some c -> ctx_fired c) ->
  (forall r, main s = M_done r -> retryable r = false) ->
  (forall c, ctx_err (Discover_step URL url_Parse s a) = Some c -> ctx_fired c) /\
  (forall r, main (Discover_step URL url_Parse s a) = M_done r ->
             retryable r = false).
Proof.
  intros A C D. destruct s as [c sc q mc w m].
  cbn [ctx_err main] in *.
  destruct a as [x|x| | | |]; cbn -[retryable discover_reply].
  - destruct c; cbn; split; auto.
    intros c E. injection E as <-. exact A.
  - split; auto.
  - unfold Main_step. cbn -[retryable discover_reply].
    destruct m; cbn -[retryable discover_reply]; try (split; [exact C | discriminate]).
    + destruct c as [c|]; cbn; [|split; [exact C | discriminate]].
      split; [exact C|]. intros r E. injection E as <-.
      destruct (C c eq_refl) as [-> | ->]; reflexivity.
    + destruct sc; cbn; [split; [exact C | discriminate]|].
      destruct q as [|[data addr|err'] q]; cbn; split; auto; discriminate.
    + destruct c as [c|]; cbn; [|split; [exact C | discriminate]].
      destruct (C c eq_refl) as [-> | ->]; cbn; split; auto; discriminate.
    + destruct mc; cbn; split; auto; try discriminate.
      intros r E. injection E as <-. reflexivity.
    + destruct mc; cbn; split; auto; try discriminate.
      intros r E. injection E as <-. reflexivity.
    + destruct w; cbn -[retryable]; try (split; [exact C | discriminate]);
        destruct (retryable r) eqn:R; cbn; split; auto; try discriminate;
        intros r' E; injection E as <-; exact R.
    + split; assumption.
  - destruct w, c; cbn; split; auto.
  - destruct w; cbn; try (split; assumption);
      destruct m; cbn; split; auto; discriminate.
  - destruct w; cbn; split; auto.
Qed.

Lemma contract_run (acts : list Action) :
  forall s : DiscoverState URL,
    Forall contract_action acts ->
    (forall c, ctx_err s = Some c -> ctx_fired c) ->
    (forall r, main s = M_done r -> retryable r = false) ->
    forall r, main (Discover_run URL url_Parse acts s) = M_done r ->
              retryable r = false.
Proof.
  induction acts as [|a acts IH]; intros s A C D r H; [exact (D r H)|].
  inversion A as [|a' l A1 A2]. subst.
  destruct (contract_step s a A1 C D) as [C' D'].
  cbn [Discover_run fold_left] in H.
  exact (IH _ A2 C' D' r H).
Qed.

Lemma Discover_live_malformed (bad : list ReadEvent) :
  Forall malformed_datagram bad ->
  Discover_live URL url_Parse bad = None.
Proof.
  induction 1 as [|ev bad [data [addr [-> M]]] F IH]; [reflexivity|].
  cbn [Discover_live discover_live].
  destruct (discover_malformed URL url_Parse data addr M) as [e E].
  rewrite E. exact IH.
Qed.

Lemma malformed_event_ok (bad : list ReadEvent) :
  Forall malformed_datagram bad -> Forall event_ok bad.
Proof.
  intros M. eapply Forall_impl; [|exact M].
  intros ev [data [addr [-> _]]]. exact I.
Qed.

End Discover_interleavings.

(** C4.  Cancellation.  When the context is done before [Discover] is
    called, with [context.Canceled] or [context.DeadlineExceeded], [Discover]
    returns [io.EOF] with its first statement.  When it becomes done while
    the read is pending and nothing arrives any more, [io.EOF] is the only
    thing [Discover] can return in any interleaving, and it does return it
    once the watcher has closed the socket.  But when a datagram ends the
    read after the context became done, and the watcher goroutine takes
    [ctx.Done()] and runs to its end before the caller's send on [msgC], that
    send is on a closed channel: [Discover] panics instead of returning
    [io.EOF]. *)
Theorem Discover_cancellation
        (URL : Type) (url_Parse : list byte -> URL + error) :
  (forall (cerr : error) (q : list ReadEvent) (acts : list Action),
     ctx_fired cerr ->
     Discover URL url_Parse (Some cerr) q (MainStep :: acts) = Some (Err EOF)) /\
  (forall (cerr : error) (pre acts : list Action)
          (r : result (DiscoveredDevice URL)),
     ctx_fired cerr ->
     Forall goroutine_step pre -> Forall goroutine_step acts ->
     Discover URL url_Parse None [] (pre ++ CtxDone cerr :: acts) = Some r ->
     r = Err EOF) /\
  (forall cerr : error,
     ctx_fired cerr ->
     Discover URL url_Parse None []
       [MainStep; MainStep; CtxDone cerr; WatcherTakesDone; WatcherStep;
        MainStep; MainStep; WatcherStep; MainStep]
     = Some (Err EOF)) /\
  (forall (cerr : error) (data addr : list byte),
     Discover URL url_Parse None []
       [MainStep; MainStep; CtxDone cerr; Arrive (Datagram data addr);
        MainStep; WatcherTakesDone; WatcherStep; WatcherStep; WatcherStep;
        MainStep]
     = Some Panic).
Proof.
  split; [|split; [|split]].
  - intros cerr q acts F. unfold Discover. rewrite Discover_run_cons.
    erewrite done_run; [reflexivity|].
    destruct F as [-> | ->]; reflexivity.
  - intros cerr pre acts r F Gp Ga H. unfold Discover in H.
    rewrite Discover_run_app in H.
    destruct (idle_run URL url_Parse pre Gp) as [C [Q M]].
    destruct (main (Discover_run URL url_Parse
                      (CtxDone cerr :: acts)
                      (Discover_run URL url_Parse pre (Discover_init None []))))
      as [| | | | | | | | |r'] eqn:E; try discriminate H.
    injection H as ->.
    rewrite Discover_run_cons in E.
    refine (cancelled_run URL url_Parse acts _ cerr F Ga _ _ _ r E).
    + unfold Discover_step. rewrite C. reflexivity.
    + unfold Discover_step. rewrite C. exact Q.
    + unfold Discover_step. rewrite C. cbn [main]. left. exact M.
  - intros cerr [-> | ->]; reflexivity.
  - intros cerr data addr. reflexivity.
Qed.




Lemma Execute_pipeline_witness :
  snd (Execute example_client 100 example_request) = Ok (mkPacket 5 []) /\
  calls (c (fst (Execute example_client 100 example_request)))
  = [CallSetDeadline 105;
     CallWrite (hexs [0; 4; 0; 3; 3; 1; 0; 0x9e; 0xbd; 0x15; 0x0f]);
     CallRead libhdhomerun.MaxPacketSize].
Proof.
  pose proof (Execute_pipeline example_client 100 example_request eq_refl) as H.
  vm_compute in H. vm_compute. destruct H as [H1 H2]. split; assumption.
Defined.

(* ================================================================== *)
(** * Further properties of the packet codec *)

(** What a successful [UnmarshalBinary] says about its input and its
    result. *)
Lemma UnmarshalBinary_ok_inv (p q : Packet) (b : list byte) :
  UnmarshalBinary p b = Ok q ->
  (8 <= length b)%nat /\
  stored_checksum b = computed_checksum b /\
  declared_length b = Z.of_nat (length b) - 8 /\
  Type_ q = declared_type b /\
  ((declared_length b = 0 /\ Tags q = Tags p) \/
   (declared_length b <> 0 /\ tags_at b 4 (Tags q))).
Proof.
  intros H.
  destruct (UnmarshalBinary_ok_checksum _ _ _ H) as [L C].
  rewrite UnmarshalBinary_header in H by lia.
  rewrite C, Z.eqb_refl in H. cbn [negb] in H.
  destruct (Z.eqb_spec (declared_length b) (Z.of_nat (length b) - 8)) as [D|D];
    cbn [negb] in H; [|discriminate].
  repeat (split; [assumption|]).
  destruct (Z.eqb_spec (declared_length b) 0) as [Z0|Z0].
  - injection H as <-. cbn [Type_ Tags]. split; [reflexivity|].
    left. split; [exact Z0 | reflexivity].
  - destruct (unmarshalTags_spec (length b) b 4 []) as [[_ E] | [ts [T E]]];
      [lia | |]; rewrite E in H; cbn [bind app] in H; [discriminate|].
    injection H as <-. cbn [Type_ Tags]. split; [reflexivity|].
    right. split; assumption.
Qed.

Lemma decode_ok_inv (b : list byte) (p : Packet) :
  decode b = Ok p ->
  (8 <= length b)%nat /\
  stored_checksum b = computed_checksum b /\
  declared_length b = Z.of_nat (length b) - 8 /\
  Type_ p = declared_type b /\
  tags_at b 4 (Tags p).
Proof.
  intros H. apply UnmarshalBinary_ok_inv in H.
  destruct H as [L [C [D [T [[Z0 E] | [Z0 E]]]]]];
    repeat (split; [assumption|]); [|exact E].
  cbn [zeroPacket Tags] in E. rewrite E. apply tags_at_end. lia.
Qed.

Lemma wire_tags_size (tags : list Tag) :
  length (wire_tags tags) = list_sum (map tag_wire_size tags).
Proof.
  induction tags as [|t tags IH]; [reflexivity|].
  rewrite wire_tags_cons, length_app, IH, wire_tag_length. reflexivity.
Qed.

(** X1.  [MarshalBinary] never fails and never panics, on any packet: it
    returns the concatenation of the big-endian type, the big-endian payload
    length (modulo 65536), the tags and the little-endian CRC-32 of what
    precedes; that is 8 bytes plus, for each tag, 1 byte of type, 1 or 2
    bytes of length and the data. *)
Theorem MarshalBinary_layout (p : Packet) :
  MarshalBinary p = Ok (wire p) /\
  length (wire p) = (8 + list_sum (map tag_wire_size (Tags p)))%nat.
Proof.
  split; [apply MarshalBinary_wire|].
  rewrite wire_length, wire_tags_size. reflexivity.
Qed.

(** X2.  Encoding then decoding gives the packet back, for every packet whose
    type fits 16 bits, whose tags carry at most 32767 bytes each and whose
    encoded tags take fewer than 65536 bytes. *)
Theorem decode_MarshalBinary (p : Packet) :
  wf_packet p ->
  exists b, MarshalBinary p = Ok b /\ decode b = Ok p.
Proof.
  intros W. exists (wire p). split; [apply MarshalBinary_wire | apply decode_wire, W].
Qed.

Lemma decode_MarshalBinary_witness :
  exists b,
    MarshalBinary (mkPacket 2 [mkTag x01 (hexs [0; 0; 0; 1]);
                               mkTag x02 (hexs [255; 255; 255; 255])]) = Ok b /\
    decode b = Ok (mkPacket 2 [mkTag x01 (hexs [0; 0; 0; 1]);
                               mkTag x02 (hexs [255; 255; 255; 255])]).
Proof.
  apply (decode_MarshalBinary
           (mkPacket 2 [mkTag x01 (hexs [0; 0; 0; 1]);
                        mkTag x02 (hexs [255; 255; 255; 255])])).
  split; [cbn; lia|]. split; [|cbn; lia].
  repeat constructor; cbn; lia.
Defined.

(** X3.  A decoded packet is within the wire widths: its type is below
    65536, each tag carries at most 32767 bytes, and re-encoding its tags
    takes no more bytes than the payload of the input had. *)
Theorem decoded_packet_bounds (b : list byte) (p : Packet) :
  decode b = Ok p ->
  0 <= Type_ p < 65536 /\
  Forall (fun t => Z.of_nat (length (tag_Data t)) <= 32767) (Tags p) /\
  (length (wire_tags (Tags p)) <= length b - 8)%nat /\
  Z.of_nat (length b) <= 65543.
Proof.
  intros H. destruct (decode_wf b p H) as [Ht [Hf _]].
  destruct (decode_ok_inv b p H) as [L [_ [D [_ T]]]].
  destruct (tags_at_wf b 4 (Tags p) T) as [_ W]; [lia|].
  pose proof (declared_length_range b) as R.
  repeat split; try assumption; lia.
Qed.

Lemma decoded_packet_bounds_witness :
  0 <= Type_ (mkPacket 3 [mkTag x01 []]) < 65536 /\
  Forall (fun t => Z.of_nat (length (tag_Data t)) <= 32767)
    (Tags (mkPacket 3 [mkTag x01 []])) /\
  (length (wire_tags (Tags (mkPacket 3 [mkTag x01 []])))
   <= length noncanonical_input - 8)%nat /\
  Z.of_nat (length noncanonical_input) <= 65543.
Proof.
  apply (decoded_packet_bounds noncanonical_input (mkPacket 3 [mkTag x01 []])).
  vm_compute. reflexivity.
Defined.

(** ** When re-encoding reproduces the input *)

Lemma firstn_plus (a k : nat) (l : list byte) :
  firstn (a + k) l = firstn a l ++ firstn k (skipn a l).
Proof.
  revert l. induction a as [|a IH]; intros l; [reflexivity|].
  destruct l as [|x l]; [cbn; rewrite firstn_nil; reflexivity|].
  cbn [Nat.add firstn skipn app]. rewrite IH. reflexivity.
Qed.

Lemma firstn_plus_skipn (a k i : nat) (l : list byte) :
  firstn (a + k) (skipn i l) = firstn a (skipn i l) ++ firstn k (skipn (i + a) l).
Proof.
  rewrite firstn_plus, skipn_skipn. rewrite (Nat.add_comm a i). reflexivity.
Qed.

Lemma firstn1_skipn (l : list byte) (i : nat) :
  (i < length l)%nat -> firstn 1 (skipn i l) = [byte_at l i].
Proof.
  intros H.
  assert (L : (1 <= length (skipn i l))%nat) by (rewrite length_skipn; lia).
  pose proof (byte_at_skipn l i 0) as E. rewrite Nat.add_0_r in E.
  destruct (skipn i l) as [|x r]; cbn in L; [lia|].
  unfold byte_at in E. cbn in E. subst. reflexivity.
Qed.

(** The bytes of a canonical length field are those the encoder writes for
    the length it declares. *)
Lemma field_canonical (x y : byte) (tlen : Z) (c : nat) :
  field_length x y = (tlen, c) ->
  (c = 2%nat -> 128 <= tlen) ->
  wire_length_field tlen = firstn c [x; y].
Proof.
  unfold field_length. intros H Hc.
  pose proof (b2z_range x) as Rx. pose proof (b2z_range y) as Ry.
  destruct (Z.ltb_spec (b2z x) 128) as [S|L];
    apply pair_equal_spec in H; destruct H as [<- <-].
  - unfold wire_length_field. destruct (Z.ltb_spec (b2z x) 128); [|lia].
    rewrite z2b_b2z. reflexivity.
  - specialize (Hc eq_refl).
    remember (b2z x - 128 + 128 * b2z y) as n eqn:En.
    assert (Hn : 128 <= n <= 32767) by lia.
    rewrite <- large_bytes_wire by lia.
    pose proof (field_length_wire_large n Hn) as F. unfold field_length in F.
    pose proof (b2z_range (large_b0 n)) as R0.
    pose proof (b2z_range (large_b1 n)) as R1.
    destruct (Z.ltb_spec (b2z (large_b0 n)) 128);
      apply pair_equal_spec in F; destruct F as [F _]; [lia|].
    assert (E0 : b2z (large_b0 n) = b2z x) by lia.
    assert (E1 : b2z (large_b1 n) = b2z y) by lia.
    apply b2z_inj in E0. apply b2z_inj in E1. rewrite E0, E1. reflexivity.
Qed.

Lemma canonical_bytes (b : list byte) (i : nat) (ts : list Tag) :
  tags_at b i ts ->
  canonical_from b i ->
  (i <= length b - 4)%nat ->
  firstn (length b - 4 - i) (skipn i b) = wire_tags ts.
Proof.
  induction 1 as [i Hi | i tlen c ts Hi Hh Hfit Hrest IH]; intros Hc Hle.
  - replace (length b - 4 - i)%nat with 0%nat by lia. reflexivity.
  - inversion Hc as [i' Hi' | i' tlen' c' _ Hh' Hcan Hnext]; subst; [lia|].
    rewrite Hh in Hh'. apply pair_equal_spec in Hh'. destruct Hh' as [<- <-].
    pose proof Hh as Hb. unfold tag_header in Hb.
    apply field_length_bounds in Hb. destruct Hb as [Hb Hc12].
    specialize (IH Hnext). rewrite wire_tags_cons, <- IH by lia.
    replace (length b - 4 - i)%nat
      with (1 + (c + (Z.to_nat tlen
                      + (length b - 4 - (i + 1 + c + Z.to_nat tlen)))))%nat by lia.
    rewrite firstn_plus_skipn, firstn1_skipn by lia.
    rewrite firstn_plus_skipn.
    rewrite (firstn_plus_skipn (Z.to_nat tlen)).
    unfold wire_tag. cbn [tag_Type tag_Data app].
    f_equal.
    assert (Ld : length (firstn (Z.to_nat tlen) (skipn (i + 1 + c) b))
                 = Z.to_nat tlen).
    { apply firstn_length_le. rewrite length_skipn. lia. }
    rewrite Ld, Z2Nat.id by lia.
    rewrite (field_canonical _ _ _ _ Hh Hcan).
    rewrite <- app_assoc. f_equal.
    pose proof (firstn2_skipn b (i + 1)) as E2.
    replace (i + 1 + 1)%nat with (i + 2)%nat in E2 by lia.
    rewrite <- E2 by lia.
    rewrite firstn_firstn. rewrite Nat.min_l by lia. reflexivity.
Qed.

Lemma canonical_count (b : list byte) (i : nat) (ts : list Tag) :
  tags_at b i ts ->
  (i <= length b - 4)%nat ->
  (i + length (wire_tags ts) = length b - 4)%nat ->
  canonical_from b i.
Proof.
  induction 1 as [i Hi | i tlen c ts Hi Hh Hfit Hrest IH]; intros Hle Hcount.
  - apply canonical_end. exact Hi.
  - pose proof Hh as Hb. unfold tag_header in Hb.
    pose proof Hb as Hw. apply field_length_bounds in Hb. destruct Hb as [Hb Hc12].
    destruct (tags_at_wf b _ ts Hrest) as [_ W]; [lia|].
    rewrite wire_tags_cons, length_app, wire_tag_length in Hcount.
    cbn [tag_Data] in Hcount.
    assert (Ld : length (firstn (Z.to_nat tlen) (skipn (i + 1 + c) b))
                 = Z.to_nat tlen).
    { apply firstn_length_le. rewrite length_skipn. lia. }
    rewrite Ld, Z2Nat.id in Hcount by lia.
    assert (Hc1 : c = 1%nat -> tlen < 128).
    { intros ->. unfold field_length in Hw.
      pose proof (b2z_range (byte_at b (i + 1))).
      destruct (Z.ltb_spec (b2z (byte_at b (i + 1))) 128);
        apply pair_equal_spec in Hw; destruct Hw; subst; [lia | discriminate]. }
    revert Hcount. destruct (Z.ltb_spec tlen 128) as [S|S]; intros Hcount.
    + eapply canonical_tag; [exact Hi | exact Hh | lia |].
      apply IH; lia.
    + eapply canonical_tag; [exact Hi | exact Hh | lia |].
      apply IH; lia.
Qed.

Lemma wire_uint16_bytes (x y : byte) :
  wire_uint16 (2 ^ 8 * b2z x + b2z y) = [x; y].
Proof.
  unfold wire_uint16.
  pose proof (b2z_range x). pose proof (b2z_range y).
  f_equal; [|f_equal]; apply b2z_inj; rewrite b2z_z2b;
    rewrite ?Z.shiftr_div_pow2 by lia; change (2 ^ 8) with 256;
    Z.div_mod_to_equations; lia.
Qed.

Lemma wire_uint32_le_bytes (x0 x1 x2 x3 : byte) :
  wire_uint32_le (b2z x0 + 2 ^ 8 * b2z x1 + 2 ^ 16 * b2z x2 + 2 ^ 24 * b2z x3)
  = [x0; x1; x2; x3].
Proof.
  unfold wire_uint32_le.
  pose proof (b2z_range x0). pose proof (b2z_range x1).
  pose proof (b2z_range x2). pose proof (b2z_range x3).
  repeat f_equal; apply b2z_inj; rewrite b2z_z2b;
    rewrite ?Z.shiftr_div_pow2 by lia;
    change (2 ^ 8) with 256; change (2 ^ 16) with 65536;
    change (2 ^ 24) with 16777216;
    Z.div_mod_to_equations; lia.
Qed.

Lemma firstn4 (l : list byte) :
  (4 <= length l)%nat ->
  firstn 4 l = [byte_at l 0; byte_at l 1; byte_at l 2; byte_at l 3].
Proof.
  destruct l as [|x0 [|x1 [|x2 [|x3 r]]]]; cbn; intros H; try lia. reflexivity.
Qed.

(** A decodable input with canonical length fields is the wire layout of the
    packet it decodes to. *)
Lemma canonical_is_wire (b : list byte) (p : Packet) :
  decode b = Ok p -> canonical_from b 4 -> wire p = b.
Proof.
  intros H Hc.
  destruct (decode_ok_inv b p H) as [L [C [D [T Ht]]]].
  pose proof (canonical_bytes b 4 (Tags p) Ht Hc) as Eb.
  specialize (Eb ltac:(lia)).
  assert (Lw : length (wire_tags (Tags p)) = (length b - 4 - 4)%nat).
  { rewrite <- Eb. apply firstn_length_le. rewrite length_skipn. lia. }
  pose proof (declared_length_range b) as R.
  assert (Body : wire_body p = firstn (length b - 4) b).
  { unfold wire_body. rewrite T.
    replace (Z.of_nat (length (wire_tags (Tags p))) mod 65536)
      with (declared_length b) by (rewrite Z.mod_small; lia).
    unfold declared_type, declared_length. rewrite !wire_uint16_bytes.
    rewrite <- Eb.
    replace (length b - 4)%nat with (4 + (length b - 4 - 4))%nat at 2 by lia.
    rewrite firstn_plus, firstn4 by lia. reflexivity. }
  unfold wire. rewrite Body. fold (computed_checksum b). rewrite <- C.
  unfold stored_checksum. rewrite wire_uint32_le_bytes.
  assert (L4 : length (skipn (length b - 4) b) = 4%nat)
    by (rewrite length_skipn; lia).
  assert (Tail : skipn (length b - 4) b
                 = [byte_at b (length b - 4); byte_at b (length b - 4 + 1);
                    byte_at b (length b - 4 + 2); byte_at b (length b - 4 + 3)]).
  { rewrite <- (firstn_all (skipn (length b - 4) b)), L4, firstn4 by lia.
    rewrite !byte_at_skipn, Nat.add_0_r. reflexivity. }
  rewrite <- Tail. apply firstn_skipn.
Qed.

(** X4.  For an input that decodes, [MarshalBinary] of the decoded packet
    gives back exactly the input if and only if every length field of the
    input has the encoder's width, that is, no length below 128 is written
    in the two-byte form. *)
Theorem reencode_iff_canonical (b : list byte) (p : Packet) :
  decode b = Ok p ->
  (MarshalBinary p = Ok b <-> canonical_from b 4).
Proof.
  intros H. split.
  - intros M. rewrite MarshalBinary_wire in M. injection M as M.
    destruct (decode_ok_inv b p H) as [L [_ [_ [_ Ht]]]].
    apply (canonical_count b 4 (Tags p) Ht); [lia|].
    assert (Lb : length b = length (wire p)) by (rewrite M; reflexivity).
    rewrite wire_length in Lb. lia.
  - intros Hc. rewrite MarshalBinary_wire. f_equal.
    apply canonical_is_wire; assumption.
Qed.

Lemma reencode_iff_canonical_witness :
  MarshalBinary (mkPacket 3 [mkTag x01 []]) = Ok noncanonical_input
  <-> canonical_from noncanonical_input 4.
Proof.
  apply (reencode_iff_canonical noncanonical_input (mkPacket 3 [mkTag x01 []])).
  vm_compute. reflexivity.
Defined.

(** ** Lengths beyond the two-byte form *)

Lemma large_b1_val_mod (n : Z) :
  0 <= n -> b2z (large_b1 n) = (n / 128) mod 256.
Proof.
  intros H. unfold large_b1. rewrite !b2z_z2b.
  change (b2z x00) with 0. rewrite Z.lor_0_l.
  rewrite Z.mod_mod by lia.
  rewrite Z.shiftr_div_pow2 by lia. reflexivity.
Qed.

Lemma large_b0_val_add (n : Z) :
  0 <= n -> b2z (large_b0 n) = 128 + n mod 128.
Proof.
  intros H. rewrite large_b0_val by lia.
  change 0x7f with (Z.ones 7). rewrite Z.land_ones by lia.
  change (2 ^ 7) with 128.
  assert (R : 0 <= n mod 128 < 128) by (apply Z.mod_pos_bound; lia).
  rewrite Z.lor_comm.
  pose proof (lor_disjoint_add (n mod 128) 1 7) as E.
  change (Z.shiftl 1 7) with 128 in E. change (2 ^ 7) with 128 in E.
  rewrite E; lia.
Qed.

(** X5.  The two-byte length field holds 15 bits.  For every length
    [n >= 128], [writeTagLength] fills a zeroed window with two bytes from
    which [readTagLength] reads back [n mod 32768]: lengths of 32768 bytes
    and more are written without an error and read back wrong. *)
Theorem tag_length_wraps (n : Z) :
  128 <= n ->
  exists b0 b1 : byte,
    writeTagLength n [x00; x00] = Ok ([b0; b1], 2%nat) /\
    readTagLength [b0; b1] = Ok (n mod 32768, 2%nat).
Proof.
  intros H. exists (large_b0 n), (large_b1 n).
  split; [apply writeTagLength_large; lia|].
  rewrite readTagLength_field. unfold field_length.
  rewrite large_b0_val_add, large_b1_val_mod by lia.
  assert (R : 0 <= n mod 128 < 128) by (apply Z.mod_pos_bound; lia).
  destruct (Z.ltb_spec (128 + n mod 128) 128); [lia|].
  f_equal. f_equal.
  Z.div_mod_to_equations. lia.
Qed.

Lemma tag_length_wraps_witness :
  exists b0 b1 : byte,
    writeTagLength 32968 [x00; x00] = Ok ([b0; b1], 2%nat) /\
    readTagLength [b0; b1] = Ok (32968 mod 32768, 2%nat).
Proof.
  apply (tag_length_wraps 32968). lia.
Defined.

(** ** Which error the decoder returns *)

(** X6.  [UnmarshalBinary] has two errors only.  It returns
    [errInvalidChecksum] exactly when the input has at least 8 bytes and its
    checksum is wrong, before it looks at the declared length; every other
    failure is [io.ErrUnexpectedEOF].  The buffer error of [readTagLength]
    never comes out of it. *)
Theorem decode_error_kinds (b : list byte) :
  (decode b = Err errInvalidChecksum <->
   (8 <= length b)%nat /\ stored_checksum b <> computed_checksum b) /\
  (forall e, decode b = Err e -> e = errInvalidChecksum \/ e = ErrUnexpectedEOF).
Proof.
  unfold decode.
  destruct (Nat.ltb_spec (length b) 8) as [S|L].
  - assert (E : UnmarshalBinary zeroPacket b = Err ErrUnexpectedEOF).
    { unfold UnmarshalBinary.
      destruct (Nat.ltb_spec (length b) 8); [reflexivity | lia]. }
    rewrite E. split.
    + split; [discriminate | intros [H _]; lia].
    + intros e [= <-]. right. reflexivity.
  - rewrite UnmarshalBinary_header by lia.
    destruct (Z.eqb_spec (stored_checksum b) (computed_checksum b)) as [C|C];
      cbn [negb].
    2:{ split.
        - split; [intros _; split; assumption | reflexivity].
        - intros e [= <-]. left. reflexivity. }
    assert (N : forall r : result Packet,
               (forall e, r = Err e -> e = ErrUnexpectedEOF) ->
               (r = Err errInvalidChecksum <->
                (8 <= length b)%nat /\ stored_checksum b <> computed_checksum b) /\
               (forall e, r = Err e -> e = errInvalidChecksum \/ e = ErrUnexpectedEOF)).
    { intros r Hr. split.
      - split; [intros E; apply Hr in E; discriminate E|].
        intros [_ N]. contradiction.
      - intros e E. right. apply Hr, E. }
    apply N. intros e.
    destruct (negb (declared_length b =? Z.of_nat (length b) - 8));
      [intros [= <-]; reflexivity|].
    destruct (declared_length b =? 0); [discriminate|].
    destruct (unmarshalTags_spec (length b) b 4 []) as [[_ E] | [ts [_ E]]];
      [lia | |]; rewrite E; cbn [bind].
    + intros [= <-]. reflexivity.
    + discriminate.
Qed.

Lemma decode_error_kinds_witness :
  decode (hexs [0; 3; 0; 0; 0; 0; 0; 0]) = Err errInvalidChecksum.
Proof.
  apply (proj2 (proj1 (decode_error_kinds (hexs [0; 3; 0; 0; 0; 0; 0; 0])))).
  split; [cbn; lia | vm_compute; discriminate].
Defined.

(** ** Decoding into a packet that was used before *)

(** X7.  [UnmarshalBinary] resets the receiver's tags only when the payload
    is not empty.  Decoding a valid 8-byte packet into a [Packet] that
    already has tags succeeds and leaves those tags in place, under the new
    type; with a non-empty payload the result is the same as for a fresh
    [Packet]. *)
Theorem UnmarshalBinary_reused_receiver (p : Packet) (b : list byte) :
  (length b = 8%nat ->
   stored_checksum b = computed_checksum b ->
   declared_length b = 0 ->
   UnmarshalBinary p b = Ok (mkPacket (declared_type b) (Tags p))) /\
  (declared_length b <> 0 -> UnmarshalBinary p b = decode b).
Proof.
  split.
  - intros L C D. rewrite UnmarshalBinary_header by lia.
    rewrite C, Z.eqb_refl. cbn [negb]. rewrite D, L. reflexivity.
  - intros D. unfold decode.
    destruct (Nat.ltb_spec (length b) 8) as [S|L].
    + unfold UnmarshalBinary.
      destruct (Nat.ltb_spec (length b) 8); [reflexivity | lia].
    + rewrite !UnmarshalBinary_header by lia.
      destruct (negb (stored_checksum b =? computed_checksum b)); [reflexivity|].
      destruct (negb (declared_length b =? Z.of_nat (length b) - 8)); [reflexivity|].
      destruct (Z.eqb_spec (declared_length b) 0); [contradiction | reflexivity].
Qed.

Lemma UnmarshalBinary_reused_receiver_witness :
  UnmarshalBinary (mkPacket 5 [mkTag x04 (hexs [1; 2])])
    (hexs [0; 3; 0; 0; 0x45; 0x61; 0x02; 0x23])
  = Ok (mkPacket 3 [mkTag x04 (hexs [1; 2])]).
Proof.
  apply (proj1 (UnmarshalBinary_reused_receiver
                  (mkPacket 5 [mkTag x04 (hexs [1; 2])])
                  (hexs [0; 3; 0; 0; 0x45; 0x61; 0x02; 0x23])));
    reflexivity.
Defined.

(* ================================================================== *)
(** * Further properties of the client *)

(** ** Strings and device errors on the wire *)

Lemma TrimSuffix0_snoc (s : list byte) : TrimSuffix0 (s ++ [x00]) = s.
Proof.
  unfold TrimSuffix0. rewrite rev_app_distr. cbn [rev app].
  change (byte_eqb x00 x00) with true. cbn iota. apply rev_involutive.
Qed.

Lemma HasPrefix_app (p m : list byte) : HasPrefix (p ++ m) p = true.
Proof.
  induction p as [|x p IH]; [destruct m; reflexivity|].
  cbn [app HasPrefix]. rewrite IH. unfold byte_eqb.
  rewrite (Byte.byte_dec_lb eq_refl). reflexivity.
Qed.

Lemma TrimPrefix_app (p m : list byte) : TrimPrefix (p ++ m) p = m.
Proof.
  unfold TrimPrefix. rewrite HasPrefix_app.
  rewrite skipn_app, skipn_all, Nat.sub_diag. reflexivity.
Qed.

(** X8.  The string helpers round-trip: [bytesStr] undoes [strBytes], and
    removes one terminator only; [newError] applied to the terminated
    rendering [Error()] of a device error gives that error back, whatever
    its message; a terminated text that does not start with the prefix
    becomes the message as it is. *)
Theorem string_helpers_roundtrip :
  (forall s, bytesStr (strBytes s) = s) /\
  (forall s, bytesStr (s ++ [x00; x00]) = s ++ [x00]) /\
  (forall m, newError (strBytes (Error_Error m)) = DeviceError m) /\
  (forall s, HasPrefix s errorPrefix = false ->
             newError (strBytes s) = DeviceError s).
Proof.
  split; [|split; [|split]].
  - intros s. apply TrimSuffix0_snoc.
  - intros s. unfold bytesStr.
    change (s ++ [x00; x00]) with (s ++ [x00] ++ [x00]).
    rewrite app_assoc. apply TrimSuffix0_snoc.
  - intros m. unfold newError, bytesStr, strBytes, Error_Error.
    rewrite TrimSuffix0_snoc, TrimPrefix_app. reflexivity.
  - intros s H. unfold newError, bytesStr, strBytes.
    rewrite TrimSuffix0_snoc. unfold TrimPrefix. rewrite H. reflexivity.
Qed.

Lemma string_helpers_roundtrip_witness :
  newError (strBytes (str "unknown getset variable"))
  = DeviceError (str "unknown getset variable").
Proof.
  apply (proj2 (proj2 (proj2 string_helpers_roundtrip))). reflexivity.
Defined.

(** ** What Query makes of a reply *)

(** X9.  [Query] returns a value exactly when the reply is a get/set reply
    without an error tag whose last name tag equals the terminated query and
    which has a value tag; the value returned is that of the last value
    tag.  A reply for another name is never accepted. *)
Theorem Query_reply_success (queryb : list byte) (rep : Packet) (v : list byte) :
  Query_reply queryb rep = Ok v <->
  Type_ rep = libhdhomerun.TypeGetsetRpy /\
  first_occurrence libhdhomerun.TagErrorMessage (Tags rep) = None /\
  last_occurrence libhdhomerun.TagGetsetName (Tags rep) = Some queryb /\
  last_occurrence libhdhomerun.TagGetsetValue (Tags rep) = Some v.
Proof.
  unfold Query_reply.
  pose proof (scanReply_total (Tags rep) None None) as S.
  destruct (Z.eqb_spec (Type_ rep) libhdhomerun.TypeGetsetRpy) as [T|T];
    cbn [negb].
  2:{ split; [discriminate | intros [T' _]; contradiction]. }
  destruct (first_occurrence libhdhomerun.TagErrorMessage (Tags rep)) as [d|].
  { rewrite S. cbn [bind]. split; [discriminate | intros [_ [E _]]; discriminate]. }
  rewrite S. cbn [bind].
  destruct (last_occurrence libhdhomerun.TagGetsetName (Tags rep)) as [n|].
  2:{ split; [discriminate | intros [_ [_ [E _]]]; discriminate]. }
  destruct (last_occurrence libhdhomerun.TagGetsetValue (Tags rep)) as [w|].
  2:{ split; [discriminate | intros [_ [_ [_ E]]]; discriminate]. }
  destruct (bytes_eqb n queryb) eqn:B; cbn [negb].
  - apply bytes_eqb_true in B. subst n. split.
    + intros [= <-]. split; [exact T | repeat split].
    + intros [_ [_ [_ [= <-]]]]. reflexivity.
  - split; [discriminate|].
    intros [_ [_ [[= N] _]]]. subst n. rewrite bytes_eqb_refl in B. discriminate B.
Qed.

Lemma Query_reply_success_witness :
  Query_reply (strBytes (str "q"))
    (mkPacket libhdhomerun.TypeGetsetRpy
       [mkTag libhdhomerun.TagGetsetName (strBytes (str "q"));
        mkTag libhdhomerun.TagGetsetValue (strBytes (str "v"))])
  = Ok (strBytes (str "v")).
Proof.
  apply (proj2 (Query_reply_success (strBytes (str "q"))
                  (mkPacket libhdhomerun.TypeGetsetRpy
                     [mkTag libhdhomerun.TagGetsetName (strBytes (str "q"));
                      mkTag libhdhomerun.TagGetsetValue (strBytes (str "v"))])
                  (strBytes (str "v")))).
  repeat split; reflexivity.
Defined.

(** X10.  The error of [Query] satisfies [IsNotExist] exactly when the reply
    is a get/set reply whose first error tag, without the terminator and the
    prefix, reads "unknown getset variable".  No other failure of [Query]
    (wrong reply type, missing tags, wrong name) counts as "does not
    exist". *)
Theorem Query_reply_IsNotExist (queryb : list byte) (rep : Packet) :
  IsNotExist (error_of (Query_reply queryb rep)) = true <->
  Type_ rep = libhdhomerun.TypeGetsetRpy /\
  exists data,
    first_occurrence libhdhomerun.TagErrorMessage (Tags rep) = Some data /\
    TrimPrefix (bytesStr data) errorPrefix = unknownGetSet.
Proof.
  unfold Query_reply.
  pose proof (scanReply_total (Tags rep) None None) as S.
  destruct (Z.eqb_spec (Type_ rep) libhdhomerun.TypeGetsetRpy) as [T|T];
    cbn [negb].
  2:{ cbn. split; [discriminate | intros [T' _]; contradiction]. }
  destruct (first_occurrence libhdhomerun.TagErrorMessage (Tags rep)) as [d|].
  - rewrite S. cbn [bind error_of]. unfold newError, IsNotExist. split.
    + intros B. apply bytes_eqb_true in B. split; [exact T|].
      exists d. split; [reflexivity | exact B].
    + intros [_ [data [[= <-] E]]]. rewrite E. apply bytes_eqb_refl.
  - rewrite S. cbn [bind]. split.
    2:{ intros [_ [data [E _]]]. discriminate E. }
    destruct (last_occurrence libhdhomerun.TagGetsetName (Tags rep)) as [n|];
      [|cbn; discriminate].
    destruct (last_occurrence libhdhomerun.TagGetsetValue (Tags rep)) as [w|];
      [|cbn; discriminate].
    destruct (negb (bytes_eqb n queryb)); cbn; discriminate.
Qed.

Lemma Query_reply_IsNotExist_witness :
  IsNotExist
    (error_of
       (Query_reply (strBytes (str "/tuner2/debug"))
          (mkPacket libhdhomerun.TypeGetsetRpy
             [mkTag libhdhomerun.TagErrorMessage
                (strBytes (str "ERROR: unknown getset variable"))])))
  = true.
Proof.
  apply (proj2 (Query_reply_IsNotExist (strBytes (str "/tuner2/debug"))
                  (mkPacket libhdhomerun.TypeGetsetRpy
                     [mkTag libhdhomerun.TagErrorMessage
                        (strBytes (str "ERROR: unknown getset variable"))]))).
  split; [reflexivity|].
  exists (strBytes (str "ERROR: unknown getset variable")).
  split; reflexivity.
Defined.

(** ** Execute and Query over a connection *)

(** [Execute] in terms of the answers of the connection. *)
Lemma Execute_run (cl : Client) (now : Z) (req : Packet) (data : list byte) :
  deadline_error cl now = None ->
  snd (onWrite (c cl) (calls (c cl) ++ deadline_calls cl now) (wire req)) = None ->
  onRead (c cl) ((calls (c cl) ++ deadline_calls cl now) ++ [CallWrite (wire req)])
    (length (b cl)) = (data, None) ->
  snd (Execute cl now req) = decode (firstn (length (b cl)) data) /\
  calls (c (fst (Execute cl now req)))
  = (calls (c cl) ++ deadline_calls cl now)
      ++ [CallWrite (wire req); CallRead (length (b cl))] /\
  length (b (fst (Execute cl now req))) = length (b cl) /\
  timeout (fst (Execute cl now req)) = timeout cl.
Proof.
  unfold Execute, deadline_error, deadline_calls.
  destruct cl as [conn buf tmo]. cbn [c b timeout].
  destruct conn as [h oD oW oR]. cbn [calls onSetDeadline onWrite onRead].
  rewrite MarshalBinary_wire.
  unfold Conn_SetDeadline, Conn_Write, Conn_Read, record_call.
  cbn [calls onSetDeadline onWrite onRead].
  pose proof (copy_slice buf data) as Cs.
  assert (Lc : length (fst (copy buf data)) = length buf).
  { unfold copy. cbn [fst]. rewrite length_app, length_skipn, length_firstn. lia. }
  destruct (Z.eqb_spec tmo 0) as [T0|T0]; cbn [negb].
  - rewrite app_nil_r. intros _ W R.
    cbn [calls onSetDeadline onWrite onRead]. cbv zeta.
    destruct (oW h (wire req)) as [nw werr]. cbn [snd] in W. subst werr.
    cbn [calls onSetDeadline onWrite onRead].
    rewrite R.
    destruct (copy buf data) as [buf' n]. cbn [fst snd] in *.
    rewrite Cs. cbn [bind fst snd c b calls timeout].
    rewrite <- app_assoc. repeat split; try reflexivity; assumption.
  - intros D W R. rewrite D.
    cbn [calls onSetDeadline onWrite onRead]. cbv zeta.
    destruct (oW (h ++ [CallSetDeadline (now + tmo)]) (wire req)) as [nw werr].
    cbn [snd] in W. subst werr.
    cbn [calls onSetDeadline onWrite onRead].
    rewrite R.
    destruct (copy buf data) as [buf' n]. cbn [fst snd] in *.
    rewrite Cs. cbn [bind fst snd c b calls timeout].
    rewrite <- !app_assoc. repeat split; try reflexivity; assumption.
Qed.

(** X11.  A whole query.  On a connection that accepts the deadline and the
    write and then delivers, in one read, the encoding of a reply packet
    that fits the receive buffer, [Query] writes exactly the encoding of the
    request (one name tag holding the terminated query), makes one read, and
    returns what the reply scan makes of that packet; the reply is neither
    truncated nor mixed with what the buffer held before. *)
Theorem Query_end_to_end
        (cl : Client) (now : Z) (query : list byte) (rep : Packet) :
  wf_packet rep ->
  (length (wire rep) <= length (b cl))%nat ->
  deadline_error cl now = None ->
  snd (onWrite (c cl) (calls (c cl) ++ deadline_calls cl now)
         (wire (query_request query))) = None ->
  onRead (c cl)
    ((calls (c cl) ++ deadline_calls cl now)
       ++ [CallWrite (wire (query_request query))])
    (length (b cl)) = (wire rep, None) ->
  snd (Query cl now query) = Query_reply (strBytes query) rep /\
  calls (c (fst (Query cl now query)))
  = (calls (c cl) ++ deadline_calls cl now)
      ++ [CallWrite (wire (query_request query)); CallRead (length (b cl))].
Proof.
  intros W L D Hw Hr.
  destruct (Execute_run cl now (query_request query) (wire rep) D Hw Hr)
    as [E1 [E2 _]].
  unfold Query. fold (query_request query).
  destruct (Execute cl now (query_request query)) as [cl' r].
  cbn [fst snd] in *. subst r. split; [|exact E2].
  rewrite firstn_all2 by lia. rewrite decode_wire by exact W. reflexivity.
Qed.

Lemma Query_end_to_end_witness :
  snd (Query (NewClient echo_conn) 0 (str "q")) = Ok (strBytes (str "v")).
Proof.
  pose proof (Query_end_to_end (NewClient echo_conn) 0 (str "q")
                (mkPacket libhdhomerun.TypeGetsetRpy
                   [mkTag libhdhomerun.TagGetsetName (strBytes (str "q"));
                    mkTag libhdhomerun.TagGetsetValue (strBytes (str "v"))]))
    as H.
  destruct H as [H _].
  - split; [unfold libhdhomerun.TypeGetsetRpy; cbn [Type_]; lia|].
    split; [|vm_compute; reflexivity].
    repeat constructor; vm_compute; discriminate.
  - apply Nat.leb_le. vm_compute. reflexivity.
  - reflexivity.
  - reflexivity.
  - reflexivity.
  - rewrite H. reflexivity.
Defined.

(** ** What a client keeps *)

Lemma copy_length (dst src : list byte) :
  length (fst (copy dst src)) = length dst.
Proof.
  unfold copy. cbn [fst]. rewrite length_app, length_skipn, length_firstn. lia.
Qed.

Ltac conn_norm :=
  cbn [calls onSetDeadline onWrite onRead fst snd b timeout c]; cbv zeta.

Lemma Execute_preserves (cl : Client) (now : Z) (req : Packet) :
  length (b (fst (Execute cl now req))) = length (b cl) /\
  timeout (fst (Execute cl now req)) = timeout cl /\
  exists l, calls (c (fst (Execute cl now req))) = calls (c cl) ++ l /\
            (length l <= 3)%nat.
Proof.
  unfold Execute.
  destruct cl as [conn buf tmo]. cbn [c b timeout].
  destruct conn as [h oD oW oR].
  rewrite MarshalBinary_wire.
  unfold Conn_SetDeadline, Conn_Write, Conn_Read, record_call.
  pose proof (copy_length buf) as Lc.
  destruct (negb (tmo =? 0)); conn_norm.
  - destruct (oD h (now + tmo)) as [e|]; conn_norm.
    { repeat split. exists [CallSetDeadline (now + tmo)].
      split; [reflexivity | cbn; lia]. }
    destruct (oW (h ++ [CallSetDeadline (now + tmo)]) (wire req)) as [nw [e|]];
      conn_norm.
    { repeat split. eexists. rewrite <- app_assoc.
      split; [reflexivity | cbn; lia]. }
    destruct (oR ((h ++ [CallSetDeadline (now + tmo)]) ++ [CallWrite (wire req)])
                (length buf)) as [data rerr].
    specialize (Lc data). destruct (copy buf data) as [buf' n]. cbn [fst] in Lc.
    destruct rerr; conn_norm; (split; [exact Lc|]);
      (split; [reflexivity|]); eexists; rewrite <- !app_assoc;
      (split; [reflexivity | cbn; lia]).
  - destruct (oW h (wire req)) as [nw [e|]]; conn_norm.
    { repeat split. eexists. split; [reflexivity | cbn; lia]. }
    destruct (oR (h ++ [CallWrite (wire req)]) (length buf)) as [data rerr].
    specialize (Lc data). destruct (copy buf data) as [buf' n]. cbn [fst] in Lc.
    destruct rerr; conn_norm; (split; [exact Lc|]);
      (split; [reflexivity|]); eexists; rewrite <- !app_assoc;
      (split; [reflexivity | cbn; lia]).
Qed.

(** X12.  The receive buffer of a client always has the maximum packet
    size: [NewClient] allocates it so, and [SetTimeout], [Execute] and
    [Query] keep its length, whatever the connection does.  [Execute] and
    [Query] also leave the timeout as configured and only add calls, at
    most three, to those the connection has already received. *)
Theorem client_buffer_invariant :
  (forall conn,
     length (b (NewClient conn)) = libhdhomerun.MaxPacketSize) /\
  (forall cl d, length (b (SetTimeout cl d)) = length (b cl)) /\
  (forall cl now req,
     length (b (fst (Execute cl now req))) = length (b cl) /\
     timeout (fst (Execute cl now req)) = timeout cl /\
     exists l, calls (c (fst (Execute cl now req))) = calls (c cl) ++ l /\
               (length l <= 3)%nat) /\
  (forall cl now query,
     length (b (fst (Query cl now query))) = length (b cl) /\
     timeout (fst (Query cl now query)) = timeout cl /\
     exists l, calls (c (fst (Query cl now query))) = calls (c cl) ++ l /\
               (length l <= 3)%nat).
Proof.
  split; [|split; [|split]].
  - intros conn. cbn [NewClient b]. apply repeat_length.
  - reflexivity.
  - apply Execute_preserves.
  - intros cl now query. unfold Query.
    pose proof (Execute_preserves cl now (query_request query)) as P.
    fold (query_request query).
    destruct (Execute cl now (query_request query)) as [cl' r].
    exact P.
Qed.

(** ** The enumerator, in general *)

Section ForEachTuner_outcomes.

Variable Debug : nat -> option error.
Variable fn : nat -> option error.

Lemma ForEachTuner_from_outcome (f : nat) :
  forall i : nat,
    (forall j, (j < i)%nat -> Debug j = None /\ fn j = None) ->
    enumeration_outcome Debug fn (i + f)
      (fst (ForEachTuner_from Debug fn f i (seq 0 i)))
      (snd (ForEachTuner_from Debug fn f i (seq 0 i))).
Proof.
  induction f as [|f IH]; intros i H.
  - cbn [ForEachTuner_from fst snd]. unfold enumeration_outcome.
    rewrite length_seq.
    split; [reflexivity|]. split.
    + intros j Hj. apply in_seq in Hj. apply H. lia.
    + split; [lia|]. intros j Hj. apply in_seq in Hj. apply H. lia.
  - cbn [ForEachTuner_from].
    destruct (Debug i) as [err|] eqn:D.
    + destruct (IsNotExist (Some err)) eqn:N; cbn [fst snd];
        unfold enumeration_outcome; rewrite length_seq;
        (split; [reflexivity|]);
        (split; [intros j Hj; apply in_seq in Hj; apply H; lia|]).
      * split; [intros j Hj; apply in_seq in Hj; apply H; lia|].
        rewrite D. exact N.
      * left. split; [intros j Hj; apply in_seq in Hj; apply H; lia|].
        split; [exact D | exact N].
    + assert (Sq : seq 0 i ++ [i] = seq 0 (S i)) by (rewrite seq_S; reflexivity).
      rewrite Sq.
      destruct (fn i) as [err|] eqn:F.
      * cbn [fst snd]. unfold enumeration_outcome. rewrite length_seq.
        split; [reflexivity|]. split.
        -- intros j Hj. apply in_seq in Hj.
           destruct (Nat.eq_dec j i) as [->|]; [exact D | apply H; lia].
        -- right. exists i. split; [reflexivity|]. split; [exact F|].
           intros j Hj. apply H. exact Hj.
      * replace (i + S f)%nat with (S i + f)%nat by lia.
        apply IH. intros j Hj.
        destruct (Nat.eq_dec j i) as [->|]; [split; assumption | apply H; lia].
Qed.

End ForEachTuner_outcomes.


(** X14.  The loop of [ForEachTuner] has no bound of its own: while every
    debug query and every callback succeeds it goes on, so on a device that
    answers every index it does not return. *)
Theorem ForEachTuner_unbounded (Debug fn : nat -> option error) :
  (forall i, Debug i = None) ->
  (forall i, fn i = None) ->
  forall fuel, ForEachTuner Debug fn fuel = (seq 0 fuel, OutOfFuel).
Proof.
  intros HD Hf fuel. unfold ForEachTuner.
  replace fuel with (fuel + 0)%nat at 1 by lia.
  rewrite ForEachTuner_from_walk by (intros; auto).
  reflexivity.
Qed.

Lemma ForEachTuner_unbounded_witness :
  ForEachTuner (fun _ => None) (fun _ => None) 7 = (seq 0 7, OutOfFuel).
Proof.
  apply (ForEachTuner_unbounded (fun _ => None) (fun _ => None));
    reflexivity.
Defined.

(* ================================================================== *)
(** * Further properties of discovery *)

(** ** Device IDs *)

Lemma hex_digit_value (n : Z) :
  0 <= n < 16 ->
  fromHexChar (nth (Z.to_nat n) hextable x00) = Some n.
Proof.
  intros H. rewrite <- (Z2Nat.id n) at 2 by lia.
  assert (Hk : (Z.to_nat n < 16)%nat) by lia.
  revert Hk. generalize (Z.to_nat n). intros k Hk.
  do 16 (destruct k as [|k]; [reflexivity|]). lia.
Qed.

Lemma hex_digit_in (n : Z) :
  0 <= n < 16 -> In (nth (Z.to_nat n) hextable x00) hextable.
Proof.
  intros H. apply nth_In. change (length hextable) with 16%nat. lia.
Qed.

Lemma nibbles_range (v : byte) :
  0 <= Z.shiftr (b2z v) 4 < 16 /\ 0 <= Z.land (b2z v) 0x0f < 16.
Proof.
  pose proof (b2z_range v) as R. split.
  - rewrite Z.shiftr_div_pow2 by lia. change (2 ^ 4) with 16.
    split; [apply Z.div_pos; lia | apply Z.div_lt_upper_bound; lia].
  - change 0x0f with (Z.ones 4). rewrite Z.land_ones by lia.
    apply Z.mod_pos_bound. reflexivity.
Qed.

Lemma nibbles_join (v : byte) :
  z2b (Z.lor (Z.shiftl (Z.shiftr (b2z v) 4) 4) (Z.land (b2z v) 0x0f)) = v.
Proof.
  rewrite <- (z2b_b2z v) at 3. f_equal.
  change 0x0f with (Z.ones 4).
  apply Z.bits_inj'. intros k Hk.
  destruct (Z.ltb_spec k 4) as [L|L]; bit_specs.
  - cmp_cases.
  - replace (k - 4 + 4) with k by lia. cmp_cases.
Qed.

Lemma hex_roundtrip (l : list byte) :
  hex_DecodeString (hex_EncodeToString l) = (l, None).
Proof.
  induction l as [|v l IH]; [reflexivity|].
  unfold hex_EncodeToString in *. cbn [flat_map app hex_DecodeString].
  destruct (nibbles_range v) as [R1 R2].
  rewrite !hex_digit_value by assumption.
  rewrite IH, nibbles_join. reflexivity.
Qed.

Lemma hex_DecodeString_length_aux (n : nat) :
  forall (s dst : list byte),
    (length s <= n)%nat ->
    hex_DecodeString s = (dst, None) ->
    length s = (2 * length dst)%nat.
Proof.
  induction n as [|n IH]; intros s dst L H.
  - destruct s; [|cbn in L; lia]. cbn in H. injection H as <-. reflexivity.
  - destruct s as [|p [|q s]].
    + cbn in H. injection H as <-. reflexivity.
    + cbn in H. destruct (fromHexChar p); discriminate H.
    + cbn [hex_DecodeString] in H.
      destruct (fromHexChar p); [|discriminate H].
      destruct (fromHexChar q); [|discriminate H].
      destruct (hex_DecodeString s) as [dst' err] eqn:E.
      injection H as <- ->.
      cbn [length] in *. rewrite (IH s dst'); [lia | lia | exact E].
Qed.

Lemma hex_DecodeString_length (s dst : list byte) :
  hex_DecodeString s = (dst, None) -> length s = (2 * length dst)%nat.
Proof. apply (hex_DecodeString_length_aux (length s)). lia. Qed.

Lemma hex_DecodeString_digits_aux (n : nat) :
  forall (s dst : list byte),
    (length s <= n)%nat ->
    hex_DecodeString s = (dst, None) ->
    Forall (fun c => fromHexChar c <> None) s.
Proof.
  induction n as [|n IH]; intros s dst L H.
  - destruct s; [constructor | cbn in L; lia].
  - destruct s as [|p [|q s]].
    + constructor.
    + cbn in H. destruct (fromHexChar p); discriminate H.
    + cbn [hex_DecodeString] in H.
      destruct (fromHexChar p) eqn:P; [|discriminate H].
      destruct (fromHexChar q) eqn:Q; [|discriminate H].
      destruct (hex_DecodeString s) as [dst' err] eqn:E.
      injection H as <- ->.
      constructor; [rewrite P; discriminate|].
      constructor; [rewrite Q; discriminate|].
      apply (IH s dst'); [cbn [length] in L; lia | exact E].
Qed.

Lemma hex_DecodeString_accepts (n : nat) :
  forall s : list byte,
    length s = (2 * n)%nat ->
    Forall (fun c => fromHexChar c <> None) s ->
    exists dst, hex_DecodeString s = (dst, None) /\ length dst = n.
Proof.
  induction n as [|n IH]; intros s L F.
  - destruct s; [|cbn in L; lia]. exists []. split; reflexivity.
  - destruct s as [|p [|q s]]; try (cbn in L; lia).
    inversion F as [|p' l' Hp F']. subst.
    inversion F' as [|q' l'' Hq F'']. subst.
    destruct (IH s) as [dst [E D]]; [cbn [length] in L; lia | exact F''|].
    cbn [hex_DecodeString].
    destruct (fromHexChar p) as [a|]; [|contradiction].
    destruct (fromHexChar q) as [b|]; [|contradiction].
    rewrite E. eexists. split; [reflexivity|]. cbn [length]. rewrite D.
    reflexivity.
Qed.

(** X15.  [ParseDeviceID] accepts exactly the device IDs of eight
    hexadecimal digits, in either case, and yields four bytes; it undoes
    [hex.EncodeToString] on every four-byte ID.  The wildcard ID parses to
    ff ff ff ff. *)
Theorem ParseDeviceID_roundtrip :
  (forall idb, length idb = 4%nat ->
     ParseDeviceID (hex_EncodeToString idb) = inl idb) /\
  (forall s,
     (exists idb, ParseDeviceID s = inl idb) <->
     length s = 8%nat /\ Forall (fun c => fromHexChar c <> None) s) /\
  (forall s idb, ParseDeviceID s = inl idb -> length idb = 4%nat) /\
  ParseDeviceID DeviceIDWildcard = inl [xff; xff; xff; xff].
Proof.
  split; [|split; [|split]].
  - intros idb L. unfold ParseDeviceID. rewrite hex_roundtrip, L. reflexivity.
  - intros s. unfold ParseDeviceID. split.
    + intros [idb H].
      destruct (hex_DecodeString s) as [dst [e|]] eqn:E; [discriminate H|].
      destruct (Nat.eqb_spec (length dst) 4) as [L|L]; cbn [negb] in H;
        [|discriminate H].
      split.
      * apply hex_DecodeString_length in E. lia.
      * apply (hex_DecodeString_digits_aux (length s) s dst); [lia | exact E].
    + intros [L F].
      destruct (hex_DecodeString_accepts 4 s L F) as [dst [E D]].
      rewrite E, D. exists dst. reflexivity.
  - intros s idb H. unfold ParseDeviceID in H.
    destruct (hex_DecodeString s) as [dst [e|]] eqn:E; [discriminate H|].
    destruct (Nat.eqb_spec (length dst) 4) as [L|L]; cbn [negb] in H;
      [|discriminate H].
    injection H as <-. exact L.
  - reflexivity.
Qed.

Lemma ParseDeviceID_roundtrip_witness :
  ParseDeviceID (hex_EncodeToString (hexs [0x10; 0x4f; 0xa2; 0x07]))
  = inl (hexs [0x10; 0x4f; 0xa2; 0x07]).
Proof.
  apply (proj1 ParseDeviceID_roundtrip). reflexivity.
Defined.

(** ** The discovery request *)

Lemma PutUint32_device_type (typ : Z) :
  BigEndian_PutUint32 (repeat x00 4) (typ mod 2 ^ 32) = Ok (device_type_bytes typ).
Proof. reflexivity. Qed.

Lemma length4_inv (l : list byte) :
  length l = 4%nat -> exists a b c d, l = [a; b; c; d].
Proof.
  destruct l as [|a [|b [|c [|d [|e r]]]]]; cbn; intros H; try discriminate.
  exists a, b, c, d. reflexivity.
Qed.

Lemma discover_request_wf (typ : Z) (id : list byte) :
  length id = 4%nat -> wf_packet (discover_request typ id).
Proof.
  intros L. destruct (length4_inv id L) as [a [b [c [d ->]]]].
  unfold wf_packet, discover_request. cbn [Type_ Tags].
  split; [unfold libhdhomerun.TypeDiscoverReq; lia|].
  split; [repeat constructor; cbn; lia|].
  cbn. lia.
Qed.

Lemma mustDiscoverPacket_wire (typ : Z) (id : list byte) :
  length id = 4%nat ->
  mustDiscoverPacket typ id = Ok (wire (discover_request typ id)).
Proof.
  intros L. unfold mustDiscoverPacket. rewrite L. cbn [Nat.eqb negb].
  rewrite PutUint32_device_type. cbn [bind].
  fold (discover_request typ id). rewrite MarshalBinary_wire. reflexivity.
Qed.

(** X16.  For a four-byte ID [mustDiscoverPacket] does not panic: it returns
    the 20 bytes of a discover request whose payload length is 12, and these
    decode to the request packet with the big-endian device type (modulo
    2^32) and the ID as its two tags.  For an ID of any other length it
    panics. *)
Theorem mustDiscoverPacket_request (typ : Z) (id : list byte) :
  (length id = 4%nat ->
   mustDiscoverPacket typ id = Ok (wire (discover_request typ id)) /\
   length (wire (discover_request typ id)) = 20%nat /\
   declared_length (wire (discover_request typ id)) = 12 /\
   decode (wire (discover_request typ id)) = Ok (discover_request typ id)) /\
  (length id <> 4%nat -> mustDiscoverPacket typ id = Panic).
Proof.
  split.
  - intros L. pose proof (discover_request_wf typ id L) as W.
    split; [|split; [|split]].
    + apply mustDiscoverPacket_wire, L.
    + destruct (length4_inv id L) as [a [b [c [d ->]]]].
      rewrite wire_length. reflexivity.
    + destruct W as [Wt _].
      destruct (wire_declared (discover_request typ id) Wt) as [_ D].
      rewrite D. destruct (length4_inv id L) as [a [b [c [d ->]]]]. reflexivity.
    + apply decode_wire, W.
  - intros L. unfold mustDiscoverPacket.
    destruct (Nat.eqb_spec (length id) 4); [contradiction | reflexivity].
Qed.

Lemma mustDiscoverPacket_request_witness :
  mustDiscoverPacket DeviceTypeWildcard [xff; xff; xff; xff]
  = Ok (wire (discover_request DeviceTypeWildcard [xff; xff; xff; xff])).
Proof.
  apply (proj1 (mustDiscoverPacket_request DeviceTypeWildcard
                  [xff; xff; xff; xff])).
  reflexivity.
Defined.

(** ** Discovered devices *)

Lemma Ok_inj (A : Type) (x y : A) : Ok x = Ok y -> x = y.
Proof. intros H. congruence. Qed.

Lemma BigEndian_Uint32_val (a b c d : byte) :
  binary.BigEndian_Uint32 [a; b; c; d]
  = Ok (b2z d + 2 ^ 8 * b2z c + 2 ^ 16 * b2z b + 2 ^ 24 * b2z a).
Proof.
  unfold binary.BigEndian_Uint32. cbn [index nth_error bind].
  pose proof (b2z_range a). pose proof (b2z_range b).
  pose proof (b2z_range c). pose proof (b2z_range d).
  rewrite (lor_disjoint_add _ _ 8) by pow_lia.
  rewrite (lor_disjoint_add _ _ 16) by pow_lia.
  rewrite (lor_disjoint_add _ _ 24) by pow_lia.
  reflexivity.
Qed.

Lemma z2b_of_mod (z : Z) (x : byte) : z mod 256 = b2z x -> z2b z = x.
Proof.
  intros H. rewrite <- (z2b_b2z x). unfold z2b.
  rewrite H, (Z.mod_small (b2z x)) by apply b2z_range. reflexivity.
Qed.

Lemma device_type_bytes_val (a b c d : byte) :
  device_type_bytes (b2z d + 2 ^ 8 * b2z c + 2 ^ 16 * b2z b + 2 ^ 24 * b2z a)
  = [a; b; c; d].
Proof.
  pose proof (b2z_range a). pose proof (b2z_range b).
  pose proof (b2z_range c). pose proof (b2z_range d).
  unfold device_type_bytes.
  rewrite Z.mod_small by pow_lia.
  rewrite !Z.shiftr_div_pow2 by lia.
  change (2 ^ 8) with 256. change (2 ^ 16) with 65536.
  change (2 ^ 24) with 16777216.
  repeat (apply f_equal2; [apply z2b_of_mod; Z.div_mod_to_equations; lia|]).
  reflexivity.
Qed.

Lemma hex_EncodeToString_length (l : list byte) :
  length (hex_EncodeToString l) = (2 * length l)%nat.
Proof.
  unfold hex_EncodeToString. induction l as [|v l IH]; [reflexivity|].
  cbn [flat_map app length]. rewrite IH. lia.
Qed.

Lemma hex_EncodeToString_digits (l : list byte) :
  Forall (fun x => In x hextable) (hex_EncodeToString l).
Proof.
  unfold hex_EncodeToString. induction l as [|v l IH]; [constructor|].
  cbn [flat_map app]. destruct (nibbles_range v) as [R1 R2].
  constructor; [apply hex_digit_in, R1|].
  constructor; [apply hex_digit_in, R2|]. exact IH.
Qed.

Lemma last_occurrence_In (ty : byte) (tags : list Tag) (data : list byte) :
  last_occurrence ty tags = Some data ->
  exists t, In t tags /\ tag_Type t = ty /\ tag_Data t = data.
Proof.
  induction tags as [|t tags IH]; [discriminate|].
  cbn [last_occurrence]. intros H.
  destruct (last_occurrence ty tags) as [data'|].
  - injection H as ->. destruct (IH eq_refl) as [t' [I [T D]]].
    exists t'. split; [right; exact I | split; assumption].
  - destruct (byte_eqb (tag_Type t) ty) eqn:E; [|discriminate].
    injection H as <-. exists t.
    split; [left; reflexivity | split; [apply byte_eqb_true, E | reflexivity]].
Qed.

Section Device_facts.

Variable URL : Type.
Variable url_Parse : list byte -> URL + error.

Lemma parseTag_inv (d d1 : DiscoveredDevice URL) (t : Tag) :
  parseTag URL url_Parse d t = Ok d1 ->
  Addr d1 = Addr d /\ reply_tag_ok t /\ (device_ok d -> device_ok d1).
Proof.
  unfold parseTag, reply_tag_ok, device_ok. intros H.
  destruct (byte_eqb (tag_Type t) libhdhomerun.TagDeviceType) eqn:E1.
  { apply byte_eqb_true in E1.
    destruct (Nat.eqb_spec (length (tag_Data t)) 4) as [L|L];
      cbn [negb] in H; [|discriminate].
    destruct (length4_inv _ L) as [a [b [c [e D]]]]. rewrite D in H.
    rewrite BigEndian_Uint32_val in H. cbn [bind] in H.
    apply Ok_inj in H. subst d1. cbn [Addr Type__ ID Tuners].
    split; [reflexivity|]. split.
    - rewrite E1. split; [|split]; intros T; try discriminate T; exact L.
    - intros [_ [HI [HF HT]]].
      pose proof (b2z_range a). pose proof (b2z_range b).
      pose proof (b2z_range c). pose proof (b2z_range e).
      repeat split; try assumption; pow_lia. }
  destruct (byte_eqb (tag_Type t) libhdhomerun.TagDeviceId) eqn:E2.
  { apply byte_eqb_true in E2.
    destruct (Nat.eqb_spec (length (tag_Data t)) 4) as [L|L];
      cbn [negb] in H; [|discriminate].
    injection H as <-. cbn [Addr Type__ ID Tuners].
    split; [reflexivity|]. split.
    - rewrite E2. split; [|split]; intros T; try discriminate T; exact L.
    - intros [HT [_ [_ HN]]].
      split; [exact HT|]. split.
      + right. rewrite hex_EncodeToString_length, L. reflexivity.
      + split; [apply hex_EncodeToString_digits | exact HN]. }
  destruct (byte_eqb (tag_Type t) libhdhomerun.TagBaseUrl) eqn:E3.
  { apply byte_eqb_true in E3.
    destruct (url_Parse (tag_Data t)) as [u|e]; [|discriminate].
    injection H as <-. cbn [Addr Type__ ID Tuners].
    split; [reflexivity|]. split.
    - rewrite E3. split; [|split]; intros T; discriminate T.
    - intros K. exact K. }
  destruct (byte_eqb (tag_Type t) libhdhomerun.TagTunerCount) eqn:E4.
  { apply byte_eqb_true in E4.
    destruct (Nat.eqb_spec (length (tag_Data t)) 1) as [L|L];
      cbn [negb] in H; [|discriminate].
    destruct (tag_Data t) as [|x [|y r]] eqn:D; try discriminate L.
    cbn in H. injection H as <-. cbn [Addr Type__ ID Tuners].
    split; [reflexivity|]. split.
    - rewrite E4. split; [|split]; intros T; try discriminate T; reflexivity.
    - intros [HT [HI [HF _]]].
      split; [exact HT|]. split; [exact HI|]. split; [exact HF|].
      apply b2z_range. }
  injection H as <-.
  split; [reflexivity|]. split; [|intros K; exact K].
  split; [|split]; intros T; rewrite T in *; discriminate.
Qed.

Lemma parseTags_inv (tags : list Tag) :
  forall d d' : DiscoveredDevice URL,
    parseTags URL url_Parse d tags = Ok d' ->
    Addr d' = Addr d /\ Forall reply_tag_ok tags /\
    (device_ok d -> device_ok d').
Proof.
  induction tags as [|t tags IH]; intros d d' H.
  - cbn in H. injection H as <-.
    split; [reflexivity|]. split; [constructor | intros K; exact K].
  - cbn [parseTags] in H.
    destruct (parseTag URL url_Parse d t) as [d1| | |] eqn:E1;
      cbn [bind] in H; try discriminate.
    apply parseTag_inv in E1. destruct E1 as [A1 [T1 K1]].
    apply IH in H. destruct H as [A2 [T2 K2]].
    split; [congruence|]. split; [constructor; assumption|].
    intros K. apply K2, K1, K.
Qed.

End Device_facts.

(** X17.  A device that [newDiscoveredDevice] returns comes from a discover
    reply in which every device-type and device-ID tag has four bytes and
    every tuner-count tag one.  It keeps the address given, its type is a
    non-zero 32-bit value, its tuner count is below 256, and its ID is eight
    lower-case hexadecimal digits.  The ID parses back with [ParseDeviceID]
    to the bytes of the last device-ID tag, and a discovery request made from
    the device's type and these bytes carries the data of the reply's last
    device-type and device-ID tags. *)
Theorem newDiscoveredDevice_device
        (URL : Type) (url_Parse : list byte -> URL + error)
        (addr : list byte) (p : Packet) (d : DiscoveredDevice URL) :
  newDiscoveredDevice URL url_Parse addr p = Ok d ->
  Type_ p = libhdhomerun.TypeDiscoverRpy /\
  Forall reply_tag_ok (Tags p) /\
  Addr d = addr /\
  0 < Type__ d < 2 ^ 32 /\
  0 <= Tuners d < 256 /\
  length (ID d) = 8%nat /\
  Forall (fun x => In x hextable) (ID d) /\
  exists tb idb : list byte,
    last_occurrence libhdhomerun.TagDeviceType (Tags p) = Some tb /\
    last_occurrence libhdhomerun.TagDeviceId (Tags p) = Some idb /\
    ParseDeviceID (ID d) = inl idb /\
    mustDiscoverPacket (Type__ d) idb
    = Ok (wire (mkPacket libhdhomerun.TypeDiscoverReq
                  [mkTag libhdhomerun.TagDeviceType tb;
                   mkTag libhdhomerun.TagDeviceId idb])).
Proof.
  intros H. unfold newDiscoveredDevice in H.
  destruct (Z.eqb_spec (Type_ p) libhdhomerun.TypeDiscoverRpy) as [T|T];
    cbn [negb] in H; [|discriminate].
  destruct (parseTags URL url_Parse (mkDiscoveredDevice [] addr 0 None 0) (Tags p))
    as [d'| | |] eqn:P; cbn [bind] in H; try discriminate.
  destruct (Z.eqb_spec (Type__ d') 0) as [Z0|Z0]; [discriminate|].
  destruct (bytes_eqb (ID d') []) eqn:B; [discriminate|].
  injection H as <-.
  pose proof (parseTags_last URL url_Parse _ _ _ P) as [L1 [L2 _]].
  apply parseTags_inv in P. destruct P as [A [F K]].
  cbn [Addr] in A.
  assert (K0 : device_ok (mkDiscoveredDevice (URL := URL) [] addr 0 None 0)).
  { unfold device_ok. cbn. repeat split; try lia.
    - left. reflexivity.
    - constructor. }
  destruct (K K0) as [KT [KI [KF KN]]].
  assert (NE : ID d' <> []).
  { intros E. rewrite E in B. discriminate B. }
  assert (L8 : length (ID d') = 8%nat) by (destruct KI; [contradiction | assumption]).
  split; [exact T|]. split; [exact F|]. split; [exact A|].
  split; [lia|]. split; [exact KN|]. split; [exact L8|]. split; [exact KF|].
  destruct (last_occurrence libhdhomerun.TagDeviceType (Tags p)) as [tb|] eqn:O1;
    [|cbn in L1; lia].
  destruct (last_occurrence libhdhomerun.TagDeviceId (Tags p)) as [idb|] eqn:O2;
    [|cbn in L2; contradiction].
  exists tb, idb. split; [reflexivity|]. split; [reflexivity|].
  assert (Lt : length tb = 4%nat).
  { destruct (last_occurrence_In _ _ _ O1) as [t [I [Ty D]]].
    rewrite Forall_forall in F. destruct (F t I) as [F1 _].
    rewrite <- D. apply F1, Ty. }
  assert (Li : length idb = 4%nat).
  { rewrite L2, hex_EncodeToString_length in L8. lia. }
  split.
  - rewrite L2. unfold ParseDeviceID. rewrite hex_roundtrip, Li. reflexivity.
  - rewrite mustDiscoverPacket_wire by exact Li.
    destruct (length4_inv _ Lt) as [a [b [c [e ->]]]].
    rewrite BigEndian_Uint32_val in L1. apply Ok_inj in L1. rewrite <- L1.
    unfold discover_request. rewrite device_type_bytes_val. reflexivity.
Qed.

Lemma newDiscoveredDevice_device_witness :
  ParseDeviceID
    (ID (mkDiscoveredDevice (URL := unit) (str "1040a2ff")
           (str "192.0.2.1:65001") 1 None 2))
  = inl (hexs [0x10; 0x40; 0xa2; 0xff]).
Proof.
  destruct (newDiscoveredDevice_device unit (fun _ => inl tt)
              (str "192.0.2.1:65001")
              (mkPacket libhdhomerun.TypeDiscoverRpy
                 [mkTag libhdhomerun.TagDeviceType (hexs [0; 0; 0; 1]);
                  mkTag libhdhomerun.TagDeviceId (hexs [0x10; 0x40; 0xa2; 0xff]);
                  mkTag libhdhomerun.TagTunerCount (hexs [2])]
              )
              (mkDiscoveredDevice (str "1040a2ff") (str "192.0.2.1:65001")
                 1 None 2)
              eq_refl)
    as [_ [_ [_ [_ [_ [_ [_ [tb [idb [_ [O [Pd _]]]]]]]]]]]].
  vm_compute in O. injection O as <-. exact Pd.
Defined.

(** ** The loop of Discover *)

Lemma firstn_whole (b : list byte) (n : nat) :
  (length b <= n)%nat -> firstn n b = b.
Proof. apply firstn_all2. Qed.

Lemma discover_live_wire (URL : Type) (url_Parse : list byte -> URL + error)
      (p : Packet) (addr : list byte) :
  wf_packet p ->
  Z.of_nat (length (wire p)) <= 2048 ->
  discover_live URL url_Parse (Datagram (wire p) addr)
  = match newDiscoveredDevice URL url_Parse addr p with
    | Ok device => Ok device
    | Err err => Err (retryableError err)
    | Panic => Panic
    | OutOfFuel => OutOfFuel
    end.
Proof.
  intros W L. cbn [discover_live]. rewrite discover_datagram.
  rewrite firstn_whole
    by (apply Nat2Z.inj_le; change (Z.of_nat 2048) with 2048; lia).
  rewrite (decode_wire p W). reflexivity.
Qed.

(** X18.  While the context is live, [Discover] returns the device of the
    first usable reply.  With any number of malformed datagrams waiting at
    the socket before a datagram that is the encoding of a packet which
    [newDiscoveredDevice] accepts, of at most 2048 bytes, that device is the
    only thing [Discover] can return, in every interleaving of the caller
    and the watcher goroutines and whatever else arrives; and there is an
    interleaving of the two on which it returns it. *)
Theorem Discover_first_reply
        (URL : Type) (url_Parse : list byte -> URL + error)
        (bad rest : list ReadEvent) (p : Packet) (addr : list byte)
        (d : DiscoveredDevice URL) :
  Forall malformed_datagram bad ->
  Forall event_ok rest ->
  wf_packet p ->
  Z.of_nat (length (wire p)) <= 2048 ->
  newDiscoveredDevice URL url_Parse addr p = Ok d ->
  (forall (acts : list Action) (r : result (DiscoveredDevice URL)),
     Forall keeps_context acts ->
     Forall event_ok (arrivals acts) ->
     Discover URL url_Parse None (bad ++ Datagram (wire p) addr :: rest) acts
     = Some r ->
     r = Ok d) /\
  (exists acts,
     Forall goroutine_step acts /\
     Discover URL url_Parse None (bad ++ Datagram (wire p) addr :: rest) acts
     = Some (Ok d)).
Proof.
  intros F R W L N.
  assert (Ok1 : Forall event_ok (bad ++ Datagram (wire p) addr :: rest)).
  { apply Forall_app. split; [apply malformed_event_ok; exact F|].
    constructor; [exact I | exact R]. }
  assert (Live : forall more,
            Discover_live URL url_Parse
              ((bad ++ Datagram (wire p) addr :: rest) ++ more) = Some (Ok d)).
  { intros more. rewrite <- app_assoc. cbn [app].
    rewrite Discover_live_found.
    - rewrite discover_live_wire, N by assumption. reflexivity.
    - apply Discover_live_malformed. exact F.
    - rewrite discover_live_wire, N by assumption. reflexivity. }
  split.
  - intros acts r K A H.
    apply live_refines in H;
      [|exact K | apply Forall_app; split; assumption].
    rewrite Live in H. injection H as <-. reflexivity.
  - apply live_returns; [exact Ok1|].
    specialize (Live []). rewrite app_nil_r in Live. exact Live.
Qed.

Lemma Discover_first_reply_witness :
  exists acts,
    Forall goroutine_step acts /\
    Discover unit (fun _ => inl tt) None
      ([Datagram (hexs [1; 2; 3]) (str "192.0.2.9:65001")]
         ++ Datagram
              (wire (mkPacket libhdhomerun.TypeDiscoverRpy
                       [mkTag libhdhomerun.TagDeviceType (hexs [0; 0; 0; 1]);
                        mkTag libhdhomerun.TagDeviceId
                          (hexs [0x10; 0x40; 0xa2; 0xff])]))
              (str "192.0.2.1:65001")
         :: [ReadError (otherError 1)])
      acts
    = Some (Ok (mkDiscoveredDevice (str "1040a2ff") (str "192.0.2.1:65001")
                  1 None 0)).
Proof.
  apply (Discover_first_reply unit (fun _ => inl tt)).
  - constructor; [|constructor].
    exists (hexs [1; 2; 3]), (str "192.0.2.9:65001").
    split; [reflexivity|]. left. exists ErrUnexpectedEOF. reflexivity.
  - constructor; [intros e; discriminate | constructor].
  - unfold wf_packet, libhdhomerun.TypeDiscoverRpy. cbn [Type_ Tags].
    split; [lia|]. split; [repeat constructor; cbn; lia | cbn; lia].
  - rewrite wire_length. cbn. lia.
  - reflexivity.
Defined.

(** X19.  A failure of the socket while the context is live ends
    [Discover] with the error of the read, unchanged: with any number of
    malformed datagrams waiting at the socket before the failure, that error
    is the only thing [Discover] can return, in every interleaving of the
    caller and the watcher goroutines and whatever else arrives, and there
    is an interleaving of the two on which it returns it.  A context that is
    already done at the call, with an error other than cancellation or
    deadline, makes [Discover] return that error with its first statement. *)
Theorem Discover_fatal_error
        (URL : Type) (url_Parse : list byte -> URL + error) :
  (forall (bad rest : list ReadEvent) (err : error),
     Forall malformed_datagram bad ->
     Forall event_ok rest ->
     (forall e, err <> retryableError e) ->
     (forall (acts : list Action) (r : result (DiscoveredDevice URL)),
        Forall keeps_context acts ->
        Forall event_ok (arrivals acts) ->
        Discover URL url_Parse None (bad ++ ReadError err :: rest) acts = Some r ->
        r = Err err) /\
     (exists acts,
        Forall goroutine_step acts /\
        Discover URL url_Parse None (bad ++ ReadError err :: rest) acts
        = Some (Err err))) /\
  (forall (q : list ReadEvent) (acts : list Action) (cerr : error),
     cerr <> ctxCanceled -> cerr <> ctxDeadlineExceeded ->
     Discover URL url_Parse (Some cerr) q (MainStep :: acts) = Some (Err cerr)).
Proof.
  split.
  - intros bad rest err F R E.
    assert (Ok1 : Forall event_ok (bad ++ ReadError err :: rest)).
    { apply Forall_app. split; [apply malformed_event_ok; exact F|].
      constructor; [exact E | exact R]. }
    assert (Live : forall more,
              Discover_live URL url_Parse
                ((bad ++ ReadError err :: rest) ++ more) = Some (Err err)).
    { intros more. rewrite <- app_assoc. cbn [app].
      rewrite Discover_live_found; [reflexivity| |].
      - apply Discover_live_malformed. exact F.
      - apply retryable_read_error. exact E. }
    split.
    + intros acts r K A H.
      apply live_refines in H;
        [|exact K | apply Forall_app; split; assumption].
      rewrite Live in H. injection H as <-. reflexivity.
    + apply live_returns; [exact Ok1|].
      specialize (Live []). rewrite app_nil_r in Live. exact Live.
  - intros q acts cerr C1 C2. unfold Discover. rewrite Discover_run_cons.
    erewrite done_run; [reflexivity|].
    destruct cerr; try reflexivity; contradiction.
Qed.

Lemma Discover_fatal_error_witness :
  exists acts,
    Forall goroutine_step acts /\
    Discover unit (fun _ => inl tt) None
      ([Datagram (hexs [1; 2; 3]) (str "192.0.2.9:65001")]
         ++ ReadError (otherError 7) :: [])
      acts
    = Some (Err (otherError 7)).
Proof.
  apply (proj1 (Discover_fatal_error unit (fun _ => inl tt))).
  - constructor; [|constructor].
    exists (hexs [1; 2; 3]), (str "192.0.2.9:65001").
    split; [reflexivity|]. left. exists ErrUnexpectedEOF. reflexivity.
  - constructor.
  - intros e. discriminate.
Defined.

(** ** The constructor of a Discoverer *)

Section NewDiscoverer_facts.

Variable UDPAddr : Type.
Variable ResolveUDPAddr : list byte -> list byte -> UDPAddr + error.
Variable broadcastAddr : UDPAddr.

Lemma apply_option_filters (o : PackageOption) (d d' : DiscovererConfig UDPAddr) :
  package_option UDPAddr ResolveUDPAddr o d = inl d' ->
  length (deviceID d) = 4%nat ->
  length (deviceID d') = 4%nat /\
  deviceType d' = last_device_type [o] (deviceType d) /\
  deviceID d' = last_device_id [o] (deviceID d).
Proof.
  intros H L. destruct o as [t|id|network addr|network addr];
    cbn [package_option last_device_type last_device_id] in *.
  - unfold DiscoverDeviceType in H. injection H as <-. cbn. repeat split. exact L.
  - unfold DiscoverDeviceID in H.
    destruct (ParseDeviceID id) as [idb|e] eqn:P; [|discriminate H].
    injection H as <-. cbn [deviceID deviceType].
    unfold ParseDeviceID in P.
    destruct (hex_DecodeString id) as [dst [e|]]; [discriminate P|].
    destruct (Nat.eqb_spec (length dst) 4) as [L4|L4]; cbn [negb] in P;
      [|discriminate P].
    injection P as <-. repeat split. exact L4.
  - unfold discoverLocalUDPAddr in H.
    destruct (ResolveUDPAddr network addr); [|discriminate H].
    injection H as <-. cbn. repeat split. exact L.
  - unfold discoverMulticastUDPAddr in H.
    destruct (ResolveUDPAddr network addr); [|discriminate H].
    injection H as <-. cbn. repeat split. exact L.
Qed.

Lemma last_device_type_cons (o : PackageOption) (options : list PackageOption)
      (t : Z) :
  last_device_type (o :: options) t
  = last_device_type options (last_device_type [o] t).
Proof. destruct o; reflexivity. Qed.

Lemma last_device_id_cons (o : PackageOption) (options : list PackageOption)
      (idb : list byte) :
  last_device_id (o :: options) idb
  = last_device_id options (last_device_id [o] idb).
Proof. destruct o; reflexivity. Qed.

Lemma apply_options_filters (options : list PackageOption) :
  forall d d' : DiscovererConfig UDPAddr,
    apply_options UDPAddr
      (map (package_option UDPAddr ResolveUDPAddr) options) d = inl d' ->
    length (deviceID d) = 4%nat ->
    length (deviceID d') = 4%nat /\
    deviceType d' = last_device_type options (deviceType d) /\
    deviceID d' = last_device_id options (deviceID d).
Proof.
  induction options as [|o options IH]; intros d d' H L.
  - cbn in H. injection H as <-. repeat split. exact L.
  - cbn [apply_options map] in H.
    destruct (package_option UDPAddr ResolveUDPAddr o d) as [d1|e] eqn:E;
      [|discriminate H].
    destruct (apply_option_filters o d d1 E L) as [L1 [T1 I1]].
    destruct (IH d1 d' H L1) as [L2 [T2 I2]].
    rewrite last_device_type_cons, last_device_id_cons, <- T1, <- I1.
    repeat split; assumption.
Qed.

Lemma mustDiscoverPacket_panics (typ : Z) (id : list byte) :
  length id <> 4%nat -> mustDiscoverPacket typ id = Panic.
Proof.
  intros L. unfold mustDiscoverPacket.
  destruct (Nat.eqb_spec (length id) 4); [contradiction | reflexivity].
Qed.

(** [NewDiscoverer] once its own option, the wildcard ID, is applied. *)
Lemma NewDiscoverer_options
      (listen : option UDPAddr -> option error)
      (write : list byte -> UDPAddr -> option error)
      (options : list (DiscovererOption UDPAddr)) :
  NewDiscoverer UDPAddr broadcastAddr listen write options =
  match apply_options UDPAddr options
          (mkDiscovererConfig DeviceTypeWildcard [xff; xff; xff; xff]
             broadcastAddr None) with
  | inr e => ([], Discoverer_option_error e)
  | inl d =>
      match listen (localAddr d) with
      | Some err => ([CallListenUDP (localAddr d)], Discoverer_net_error err)
      | None =>
          match mustDiscoverPacket (deviceType d) (deviceID d) with
          | Ok b =>
              match write b (multicastAddr d) with
              | Some err =>
                  ([CallListenUDP (localAddr d);
                    CallWriteToUDP b (multicastAddr d); CallClose],
                   Discoverer_net_error err)
              | None =>
                  ([CallListenUDP (localAddr d);
                    CallWriteToUDP b (multicastAddr d)],
                   Discoverer_ready)
              end
          | _ => ([CallListenUDP (localAddr d)], Discoverer_panic)
          end
      end
  end.
Proof. reflexivity. Qed.

End NewDiscoverer_facts.



(* ================================================================== *)
(** * Properties of the status parsers *)

(** ** key=value fields *)

Lemma byte_eqb_refl (x : byte) : byte_eqb x x = true.
Proof. unfold byte_eqb. apply Byte.byte_dec_lb. reflexivity. Qed.

Lemma byte_eqb_false (x y : byte) : byte_eqb x y = false -> x <> y.
Proof. intros H E. rewrite E, byte_eqb_refl in H. discriminate H. Qed.

Lemma strings_Split_nosep (s : list byte) (sep : byte) :
  ~ In sep s -> strings_Split s sep = [s].
Proof.
  induction s as [|c s IH]; intros N; [reflexivity|].
  cbn [strings_Split].
  destruct (byte_eqb c sep) eqn:E.
  - apply byte_eqb_true in E. exfalso. apply N. left. exact E.
  - rewrite IH; [reflexivity|]. intros I. apply N. right. exact I.
Qed.

Lemma strings_Split_nonempty (s : list byte) (sep : byte) :
  strings_Split s sep <> [].
Proof.
  destruct s as [|c s]; cbn [strings_Split]; [discriminate|].
  destruct (byte_eqb c sep); [discriminate|].
  destruct (strings_Split s sep); discriminate.
Qed.

Lemma strings_Split_single (s : list byte) (sep : byte) (v : list byte) :
  strings_Split s sep = [v] -> s = v /\ ~ In sep v.
Proof.
  revert v. induction s as [|c s IH]; intros v H.
  - cbn in H. apply (f_equal (hd [])) in H. cbn in H. subst v.
    split; [reflexivity | intros []].
  - cbn [strings_Split] in H.
    destruct (byte_eqb c sep) eqn:E.
    + apply (f_equal (@tl _)) in H. cbn [tl] in H.
      exfalso. exact (strings_Split_nonempty _ _ H).
    + destruct (strings_Split s sep) as [|h t] eqn:S;
        [exfalso; exact (strings_Split_nonempty _ _ S)|].
      assert (T : t = []) by (apply (f_equal (@tl _)) in H; exact H).
      apply (f_equal (hd [])) in H. cbn in H. subst v t.
      destruct (IH h eq_refl) as [-> N].
      split; [reflexivity|].
      intros [I|I]; [|exact (N I)].
      apply (byte_eqb_false _ _ E). exact I.
Qed.

Lemma strings_Split_pair (s : list byte) (sep : byte) (k v : list byte) :
  strings_Split s sep = [k; v] <->
  s = k ++ sep :: v /\ ~ In sep k /\ ~ In sep v.
Proof.
  split.
  - revert k. induction s as [|c s IH]; intros k H; [discriminate H|].
    cbn [strings_Split] in H.
    destruct (byte_eqb c sep) eqn:E.
    + apply byte_eqb_true in E. subst c.
      assert (K : k = []) by (apply (f_equal (hd [])) in H; cbn in H; congruence).
      assert (T : strings_Split s sep = [v])
        by (apply (f_equal (@tl _)) in H; exact H).
      subst k. apply strings_Split_single in T. destruct T as [-> N].
      split; [reflexivity|]. split; [intros [] | exact N].
    + destruct (strings_Split s sep) as [|h t] eqn:S; [discriminate H|].
      assert (K : k = c :: h) by (apply (f_equal (hd [])) in H; cbn in H; congruence).
      assert (T : t = [v]) by (apply (f_equal (@tl _)) in H; exact H).
      subst k t. destruct (IH h eq_refl) as [-> [N1 N2]].
      split; [reflexivity|]. split; [|exact N2].
      intros [I|I]; [|exact (N1 I)].
      apply (byte_eqb_false _ _ E). exact I.
  - intros [-> [N1 N2]]. induction k as [|c k IH].
    + cbn [app strings_Split]. rewrite byte_eqb_refl.
      rewrite strings_Split_nosep by exact N2. reflexivity.
    + cbn [app strings_Split].
      destruct (byte_eqb c sep) eqn:E.
      * apply byte_eqb_true in E. exfalso. apply N1. left. exact E.
      * rewrite IH; [reflexivity|]. intros I. apply N1. right. exact I.
Qed.

Lemma kvStrings_loop_acc (ss : list (list byte)) :
  forall acc : list (list byte * list byte),
    kvStrings_loop ss acc =
    match kvStrings_loop ss [] with
    | inl kvs => inl (acc ++ kvs)
    | inr e => inr e
    end.
Proof.
  induction ss as [|s ss IH]; intros acc.
  - cbn. rewrite app_nil_r. reflexivity.
  - cbn [kvStrings_loop].
    destruct (strings_Split s x3d) as [|k [|v [|w r]]]; try reflexivity.
    rewrite (IH (acc ++ [(k, v)])), (IH ([] ++ [(k, v)])).
    destruct (kvStrings_loop ss []); [|reflexivity].
    rewrite <- app_assoc. reflexivity.
Qed.

Lemma kvStrings_cons (s : list byte) (ss : list (list byte)) :
  kvStrings (s :: ss) =
  match strings_Split s x3d with
  | [k; v] =>
      match kvStrings ss with
      | inl kvs => inl ((k, v) :: kvs)
      | inr e => inr e
      end
  | _ => inr (errInvalidPair s)
  end.
Proof.
  unfold kvStrings. cbn [kvStrings_loop].
  destruct (strings_Split s x3d) as [|k [|v [|w r]]]; try reflexivity.
  rewrite kvStrings_loop_acc. reflexivity.
Qed.

Lemma is_pair_Split (s : list byte) (kv : list byte * list byte) :
  is_pair s kv <-> strings_Split s x3d = [fst kv; snd kv].
Proof. unfold is_pair. symmetry. apply strings_Split_pair. Qed.

Lemma kvStrings_ok (ss : list (list byte)) :
  forall kvs, kvStrings ss = inl kvs <-> Forall2 is_pair ss kvs.
Proof.
  induction ss as [|s ss IH]; intros kvs.
  - split.
    + intros H. cbn in H. injection H as <-. constructor.
    + intros H. inversion H. reflexivity.
  - rewrite kvStrings_cons. split.
    + intros H.
      destruct (strings_Split s x3d) as [|k [|v [|w r]]] eqn:S;
        try discriminate H.
      destruct (kvStrings ss) as [kvs'|e] eqn:K; [|discriminate H].
      injection H as <-. constructor.
      * apply is_pair_Split. exact S.
      * apply IH. reflexivity.
    + intros H. inversion H as [|s' kv ss' kvs' P F]. subst.
      apply is_pair_Split in P. rewrite P.
      apply IH in F. rewrite F. destruct kv. reflexivity.
Qed.

(** X21.  [kvStrings] succeeds exactly on fields of the form key=value
    with a single [=]: the pairs it returns are, in order, the two sides of
    each field, so that joining a pair with [=] gives the field back; a key
    or a value may be empty.  When it fails, the error names the first field
    that is not of this form. *)
Theorem kvStrings_pairs :
  (forall (ss : list (list byte)) (kvs : list (list byte * list byte)),
     kvStrings ss = inl kvs <-> Forall2 is_pair ss kvs) /\
  (forall (ss : list (list byte)) (e : statusError),
     kvStrings ss = inr e ->
     exists pre s post kvs,
       ss = pre ++ s :: post /\ e = errInvalidPair s /\
       Forall2 is_pair pre kvs /\ forall kv, ~ is_pair s kv).
Proof.
  split; [exact kvStrings_ok|].
  induction ss as [|s ss IH]; intros e H; [discriminate H|].
  rewrite kvStrings_cons in H.
  destruct (strings_Split s x3d) as [|k l] eqn:S.
  { injection H as <-. exists [], s, ss, [].
    split; [reflexivity|]. split; [reflexivity|]. split; [constructor|].
    intros kv P. apply is_pair_Split in P. rewrite P in S. discriminate S. }
  destruct l as [|v l].
  { injection H as <-. exists [], s, ss, [].
    split; [reflexivity|]. split; [reflexivity|]. split; [constructor|].
    intros kv P. apply is_pair_Split in P. rewrite P in S. discriminate S. }
  destruct l as [|w l].
  - destruct (kvStrings ss) as [kvs'|e'] eqn:K; [discriminate H|].
    injection H as <-.
    destruct (IH e' eq_refl) as [pre [s' [post [kvs [E1 [E2 [F N]]]]]]].
    exists (s :: pre), s', post, ((k, v) :: kvs).
    split; [rewrite E1; reflexivity|]. split; [exact E2|].
    split; [|exact N].
    constructor; [|exact F]. apply is_pair_Split. exact S.
  - injection H as <-. exists [], s, ss, [].
    split; [reflexivity|]. split; [reflexivity|]. split; [constructor|].
    intros kv P. apply is_pair_Split in P. rewrite P in S. discriminate S.
Qed.

Lemma kvStrings_pairs_witness :
  kvStrings [str "ch=8vsb:183000000"; str "ss="]
  = inl [(str "ch", str "8vsb:183000000"); (str "ss", [])].
Proof.
  apply (proj1 kvStrings_pairs).
  repeat constructor; cbn; intuition discriminate.
Defined.

(** ** The status parsers *)

Lemma numeric_tuner_key_b (k : list byte) :
  bytes_eqb k (str "ss") || bytes_eqb k (str "snq") || bytes_eqb k (str "seq")
  = true <-> numeric_tuner_key k.
Proof.
  unfold numeric_tuner_key. split.
  - intros H. apply orb_true_iff in H. destruct H as [H|H].
    + apply orb_true_iff in H. destruct H as [H|H];
        apply bytes_eqb_true in H; auto.
    + apply bytes_eqb_true in H. auto.
  - intros [-> | [-> | ->]]; reflexivity.
Qed.

Section tuner_status_facts.

Variable Fields : list byte -> list (list byte).
Variable Atoi : list byte -> Z + error.

Lemma parseNumbers_ok (A : Type) (switch : list byte -> Z -> A -> A)
      (kvs : list (list byte * list byte)) :
  forall a : A,
    (exists a', parseNumbers Atoi switch kvs a = inl a') <-> all_numbers Atoi kvs.
Proof.
  unfold all_numbers.
  induction kvs as [|[k s] kvs IH]; intros a.
  - split; [constructor | exists a; reflexivity].
  - cbn [parseNumbers]. split.
    + intros [a' H]. destruct (Atoi s) as [v|err] eqn:N; [|discriminate H].
      constructor; [exists v; exact N|].
      apply (IH (switch k v a)). exists a'. exact H.
    + intros H. inversion H as [|kv kvs' [v N] F]. subst. cbn [snd] in N.
      rewrite N. apply IH, F.
Qed.

Lemma parseNumbers_field (A : Type) (switch : list byte -> Z -> A -> A)
      (get : A -> Z) (k : list byte) :
  (forall k' v a, get (switch k' v a) = if bytes_eqb k' k then v else get a) ->
  forall (kvs : list (list byte * list byte)) (a a' : A),
    parseNumbers Atoi switch kvs a = inl a' ->
    match last_value k kvs with
    | Some s => Atoi s = inl (get a')
    | None => get a' = get a
    end.
Proof.
  intros G. induction kvs as [|[k' s] kvs IH]; intros a a' H.
  - cbn in H. injection H as <-. reflexivity.
  - cbn [parseNumbers] in H.
    destruct (Atoi s) as [v|err] eqn:N; [|discriminate H].
    apply IH in H. cbn [last_value].
    destruct (last_value k kvs) as [s'|]; [exact H|].
    rewrite G in H. destruct (bytes_eqb k' k); congruence.
Qed.

Lemma parseNumbers_new (A : Type) (switch : list byte -> Z -> A -> A)
      (get : A -> Z) (k : list byte)
      (kvs : list (list byte * list byte)) (a a' : A) :
  (forall k' v a, get (switch k' v a) = if bytes_eqb k' k then v else get a) ->
  get a = 0 ->
  parseNumbers Atoi switch kvs a = inl a' ->
  last_number Atoi k kvs (get a').
Proof.
  intros G Z0 H. unfold last_number.
  pose proof (parseNumbers_field A switch get k G kvs a a' H) as F.
  destruct (last_value k kvs); congruence.
Qed.

End tuner_status_facts.

(** Each switch on the key sets the field of its key and keeps the others. *)
Ltac switch_field :=
  let k' := fresh "k'" in
  let v := fresh "v" in
  let a := fresh "a" in
  intros k' v a;
  unfold parseCableCARD_switch, parseDevice_switch,
         parseTransportStream_switch, parseNetwork_switch;
  repeat match goal with
    | |- context [if bytes_eqb k' ?c then _ else _] =>
        let E := fresh "E" in
        destruct (bytes_eqb k' c) eqn:E;
        [apply bytes_eqb_true in E; subst k'; reflexivity|]
    end;
  reflexivity.

Section tuner_line_facts.

Variable Atoi : list byte -> Z + error.

(** One round of the loop of [parseTuner]: the text fields take the value
    of their key, a numeric key needs a number, and the [panicf] is not
    reached. *)
Lemma parseTuner_body_spec (cc : TunerStatus.t) (k s : list byte) :
  match parseTuner_body Atoi cc (k, s) with
  | Done cc1 =>
      TunerStatus.Channel cc1
      = (if bytes_eqb k (str "ch") then s else TunerStatus.Channel cc) /\
      TunerStatus.Lock cc1
      = (if bytes_eqb k (str "lock") then s else TunerStatus.Lock cc) /\
      TunerStatus.Debug cc1
      = (if bytes_eqb k (str "dbg") then s else TunerStatus.Debug cc) /\
      (if bytes_eqb k (str "ss")
       then Atoi s = inl (TunerStatus.SignalStrength cc1)
       else TunerStatus.SignalStrength cc1 = TunerStatus.SignalStrength cc) /\
      (if bytes_eqb k (str "snq")
       then Atoi s = inl (TunerStatus.SignalToNoiseQuality cc1)
       else TunerStatus.SignalToNoiseQuality cc1
            = TunerStatus.SignalToNoiseQuality cc) /\
      (if bytes_eqb k (str "seq")
       then Atoi s = inl (TunerStatus.SymbolErrorQuality cc1)
       else TunerStatus.SymbolErrorQuality cc1
            = TunerStatus.SymbolErrorQuality cc) /\
      (numeric_tuner_key k -> exists n, Atoi s = inl n)
  | Failed e =>
      numeric_tuner_key k /\ exists err, Atoi s = inr err /\ e = errAtoi err
  | Panicked => False
  end.
Proof.
  unfold parseTuner_body, numeric_tuner_key.
  destruct (bytes_eqb k (str "ss")) eqn:E4.
  { apply bytes_eqb_true in E4. subst k. cbn [orb].
    change (bytes_eqb (str "ss") (str "ch")) with false.
    change (bytes_eqb (str "ss") (str "lock")) with false.
    change (bytes_eqb (str "ss") (str "dbg")) with false.
    change (bytes_eqb (str "ss") (str "snq")) with false.
    change (bytes_eqb (str "ss") (str "seq")) with false.
    destruct (Atoi s) as [v|err].
    - cbn. repeat split. intros _. exists v. reflexivity.
    - split; [left; reflexivity | exists err; split; reflexivity]. }
  destruct (bytes_eqb k (str "snq")) eqn:E5.
  { apply bytes_eqb_true in E5. subst k. cbn [orb].
    change (bytes_eqb (str "snq") (str "ch")) with false.
    change (bytes_eqb (str "snq") (str "lock")) with false.
    change (bytes_eqb (str "snq") (str "dbg")) with false.
    change (bytes_eqb (str "snq") (str "seq")) with false.
    destruct (Atoi s) as [v|err].
    - cbn. repeat split. intros _. exists v. reflexivity.
    - split; [right; left; reflexivity | exists err; split; reflexivity]. }
  destruct (bytes_eqb k (str "seq")) eqn:E6.
  { apply bytes_eqb_true in E6. subst k. cbn [orb].
    change (bytes_eqb (str "seq") (str "ch")) with false.
    change (bytes_eqb (str "seq") (str "lock")) with false.
    change (bytes_eqb (str "seq") (str "dbg")) with false.
    destruct (Atoi s) as [v|err].
    - cbn. repeat split. intros _. exists v. reflexivity.
    - split; [right; right; reflexivity | exists err; split; reflexivity]. }
  cbn [orb].
  assert (N : k = str "ss" \/ k = str "snq" \/ k = str "seq" ->
              exists n, Atoi s = inl n).
  { intros [-> | [-> | ->]]; discriminate. }
  destruct (bytes_eqb k (str "ch")) eqn:E1.
  { apply bytes_eqb_true in E1. subst k. cbn. repeat split. exact N. }
  destruct (bytes_eqb k (str "lock")) eqn:E2.
  { apply bytes_eqb_true in E2. subst k. cbn. repeat split. exact N. }
  destruct (bytes_eqb k (str "dbg")) eqn:E3.
  { apply bytes_eqb_true in E3. subst k. cbn. repeat split. exact N. }
  repeat split. exact N.
Qed.

Lemma parseTuner_loop_ok (kvs : list (list byte * list byte)) :
  forall cc : TunerStatus.t,
    parseTuner_loop Atoi kvs cc <> Panicked /\
    ((exists cc', parseTuner_loop Atoi kvs cc = Done cc') <->
     Forall (fun kv => numeric_tuner_key (fst kv) ->
                       exists n, Atoi (snd kv) = inl n) kvs).
Proof.
  induction kvs as [|[k s] kvs IH]; intros cc.
  - split; [discriminate|]. split; [constructor | exists cc; reflexivity].
  - cbn [parseTuner_loop].
    pose proof (parseTuner_body_spec cc k s) as B.
    destruct (parseTuner_body Atoi cc (k, s)) as [cc1|e|]; [| |contradiction].
    + destruct (IH cc1) as [P I]. split; [exact P|].
      destruct B as [_ [_ [_ [_ [_ [_ B]]]]]].
      split.
      * intros H. constructor; [exact B | apply I, H].
      * intros H. inversion H. subst. apply I. assumption.
    + split; [discriminate|].
      destruct B as [K [err [A _]]].
      split.
      * intros [cc' H]. discriminate H.
      * intros H. inversion H as [|kv kvs' N F]. subst. cbn [fst snd] in N.
        destruct (N K) as [n A']. congruence.
Qed.

Lemma parseTuner_loop_fields (kvs : list (list byte * list byte)) :
  forall cc cc' : TunerStatus.t,
    parseTuner_loop Atoi kvs cc = Done cc' ->
    TunerStatus.Channel cc'
    = match last_value (str "ch") kvs with
      | Some s => s
      | None => TunerStatus.Channel cc
      end /\
    TunerStatus.Lock cc'
    = match last_value (str "lock") kvs with
      | Some s => s
      | None => TunerStatus.Lock cc
      end /\
    TunerStatus.Debug cc'
    = match last_value (str "dbg") kvs with
      | Some s => s
      | None => TunerStatus.Debug cc
      end /\
    match last_value (str "ss") kvs with
    | Some s => Atoi s = inl (TunerStatus.SignalStrength cc')
    | None => TunerStatus.SignalStrength cc' = TunerStatus.SignalStrength cc
    end /\
    match last_value (str "snq") kvs with
    | Some s => Atoi s = inl (TunerStatus.SignalToNoiseQuality cc')
    | None => TunerStatus.SignalToNoiseQuality cc'
              = TunerStatus.SignalToNoiseQuality cc
    end /\
    match last_value (str "seq") kvs with
    | Some s => Atoi s = inl (TunerStatus.SymbolErrorQuality cc')
    | None => TunerStatus.SymbolErrorQuality cc'
              = TunerStatus.SymbolErrorQuality cc
    end.
Proof.
  induction kvs as [|[k s] kvs IH]; intros cc cc' H.
  - cbn in H. injection H as <-. cbn. repeat split.
  - cbn [parseTuner_loop] in H.
    pose proof (parseTuner_body_spec cc k s) as B.
    destruct (parseTuner_body Atoi cc (k, s)) as [cc1|e|]; try discriminate H.
    destruct B as [B1 [B2 [B3 [B4 [B5 [B6 _]]]]]].
    apply IH in H. destruct H as [H1 [H2 [H3 [H4 [H5 H6]]]]].
    cbn [last_value].
    split; [|split; [|split; [|split; [|split]]]].
    + destruct (last_value (str "ch") kvs); [exact H1|].
      destruct (bytes_eqb k (str "ch")); congruence.
    + destruct (last_value (str "lock") kvs); [exact H2|].
      destruct (bytes_eqb k (str "lock")); congruence.
    + destruct (last_value (str "dbg") kvs); [exact H3|].
      destruct (bytes_eqb k (str "dbg")); congruence.
    + destruct (last_value (str "ss") kvs); [exact H4|].
      destruct (bytes_eqb k (str "ss")); congruence.
    + destruct (last_value (str "snq") kvs); [exact H5|].
      destruct (bytes_eqb k (str "snq")); congruence.
    + destruct (last_value (str "seq") kvs); [exact H6|].
      destruct (bytes_eqb k (str "seq")); congruence.
Qed.

Lemma parseTuner_no_panic (td : TunerDebug.t) (kvs : list (list byte * list byte)) :
  parseTuner Atoi td kvs <> Panicked.
Proof.
  unfold parseTuner.
  destruct (parseTuner_loop_ok kvs TunerStatus.new) as [P _].
  destruct (parseTuner_loop Atoi kvs TunerStatus.new);
    [discriminate | discriminate | contradiction].
Qed.

End tuner_line_facts.

(** X22.  The status parsers never panic: the [panicf] of [parseTuner] is
    unreachable, so [parse], and the loop of [Debug] over the lines of a
    reply, end with a status or an error.  A line that [parse] accepts
    changes at most the status of its own kind: the tuner status only on a
    line that starts with the field tun:, and likewise dev:, cc:, ts: and
    net:. *)
Theorem status_parsers_never_panic
        (Fields : list byte -> list (list byte))
        (Atoi : list byte -> Z + error) :
  (forall td s, parse Fields Atoi td s <> Panicked) /\
  (forall td lines, Debug_lines Fields Atoi td lines <> Panicked) /\
  (forall td s td',
     parse Fields Atoi td s = Done td' ->
     (hd_error (Fields s) <> Some (str "tun:") ->
      TunerDebug.Tuner td' = TunerDebug.Tuner td) /\
     (hd_error (Fields s) <> Some (str "cc:") ->
      TunerDebug.CableCARD td' = TunerDebug.CableCARD td) /\
     (hd_error (Fields s) <> Some (str "dev:") ->
      TunerDebug.Device td' = TunerDebug.Device td) /\
     (hd_error (Fields s) <> Some (str "ts:") ->
      TunerDebug.TransportStream td' = TunerDebug.TransportStream td) /\
     (hd_error (Fields s) <> Some (str "net:") ->
      TunerDebug.Network td' = TunerDebug.Network td)).
Proof.
  assert (P : forall td s, parse Fields Atoi td s <> Panicked).
  { intros td s. unfold parse.
    destruct (Fields s) as [|key [|f rest]]; try discriminate.
    destruct (kvStrings (f :: rest)) as [kvs|e]; [|discriminate].
    destruct (bytes_eqb key (str "tun:")); [apply parseTuner_no_panic|].
    unfold parseCableCARD, parseDevice, parseTransportStream, parseNetwork.
    destruct (bytes_eqb key (str "cc:"));
      [destruct (parseNumbers Atoi parseCableCARD_switch kvs CableCARDStatus.new);
       discriminate|].
    destruct (bytes_eqb key (str "dev:"));
      [destruct (parseNumbers Atoi parseDevice_switch kvs DeviceStatus.new);
       discriminate|].
    destruct (bytes_eqb key (str "ts:"));
      [destruct (parseNumbers Atoi parseTransportStream_switch kvs
                   TransportStreamStatus.new);
       discriminate|].
    destruct (bytes_eqb key (str "net:"));
      [destruct (parseNumbers Atoi parseNetwork_switch kvs NetworkStatus.new);
       discriminate|].
    discriminate. }
  split; [exact P|]. split.
  - intros td lines. revert td.
    induction lines as [|line lines IH]; intros td; [discriminate|].
    cbn [Debug_lines]. pose proof (P td (bytesStr line)) as Q.
    destruct (parse Fields Atoi td (bytesStr line));
      [apply IH | discriminate | contradiction].
  - intros td s td' H. unfold parse in H.
    destruct (Fields s) as [|key [|f rest]]; cbn [hd_error].
    { injection H as <-. repeat split. }
    { discriminate H. }
    destruct (kvStrings (f :: rest)) as [kvs|e]; [|discriminate H].
    destruct (bytes_eqb key (str "tun:")) eqn:E1.
    { apply bytes_eqb_true in E1. subst key. unfold parseTuner in H.
      destruct (parseTuner_loop Atoi kvs TunerStatus.new); try discriminate H.
      injection H as <-. cbn.
      repeat split; intros N; try reflexivity. exfalso. apply N. reflexivity. }
    destruct (bytes_eqb key (str "cc:")) eqn:E2.
    { apply bytes_eqb_true in E2. subst key. unfold parseCableCARD in H.
      destruct (parseNumbers Atoi parseCableCARD_switch kvs CableCARDStatus.new);
        try discriminate H.
      injection H as <-. cbn.
      repeat split; intros N; try reflexivity. exfalso. apply N. reflexivity. }
    destruct (bytes_eqb key (str "dev:")) eqn:E3.
    { apply bytes_eqb_true in E3. subst key. unfold parseDevice in H.
      destruct (parseNumbers Atoi parseDevice_switch kvs DeviceStatus.new);
        try discriminate H.
      injection H as <-. cbn.
      repeat split; intros N; try reflexivity. exfalso. apply N. reflexivity. }
    destruct (bytes_eqb key (str "ts:")) eqn:E4.
    { apply bytes_eqb_true in E4. subst key. unfold parseTransportStream in H.
      destruct (parseNumbers Atoi parseTransportStream_switch kvs
                  TransportStreamStatus.new); try discriminate H.
      injection H as <-. cbn.
      repeat split; intros N; try reflexivity. exfalso. apply N. reflexivity. }
    destruct (bytes_eqb key (str "net:")) eqn:E5.
    { apply bytes_eqb_true in E5. subst key. unfold parseNetwork in H.
      destruct (parseNumbers Atoi parseNetwork_switch kvs NetworkStatus.new);
        try discriminate H.
      injection H as <-. cbn.
      repeat split; intros N; try reflexivity. exfalso. apply N. reflexivity. }
    injection H as <-. repeat split.
Qed.

Lemma status_parsers_never_panic_witness :
  TunerDebug.Tuner
    (TunerDebug.mk None (Some (DeviceStatus.mk 100 0 0)) None None None)
  = TunerDebug.Tuner TunerDebug.new.
Proof.
  apply (proj1 (proj2 (proj2 (status_parsers_never_panic
                                example_Fields example_Atoi))
                  TunerDebug.new (str "dev: bps=100 resync=0")
                  (TunerDebug.mk None (Some (DeviceStatus.mk 100 0 0))
                     None None None)
                  eq_refl)).
  vm_compute. discriminate.
Defined.

(** X23.  The parsers of the cc:, dev:, ts: and net: lines convert every
    value with [strconv.Atoi] before they look at the key: they succeed
    exactly when every value of the line is a number, also those of keys
    they do not know.  [parseTuner] converts only the values of the keys
    ss, snq and seq: it succeeds exactly when these are numbers, whatever
    the other values are. *)
Theorem numeric_values_required
        (Atoi : list byte -> Z + error)
        (td : TunerDebug.t) (kvs : list (list byte * list byte)) :
  ((exists td', parseCableCARD Atoi td kvs = Done td') <-> all_numbers Atoi kvs) /\
  ((exists td', parseDevice Atoi td kvs = Done td') <-> all_numbers Atoi kvs) /\
  ((exists td', parseTransportStream Atoi td kvs = Done td')
   <-> all_numbers Atoi kvs) /\
  ((exists td', parseNetwork Atoi td kvs = Done td') <-> all_numbers Atoi kvs) /\
  ((exists td', parseTuner Atoi td kvs = Done td') <->
   Forall (fun kv => numeric_tuner_key (fst kv) ->
                     exists n, Atoi (snd kv) = inl n) kvs).
Proof.
  split; [|split; [|split; [|split]]].
  - rewrite <- (parseNumbers_ok Atoi _ parseCableCARD_switch kvs CableCARDStatus.new).
    unfold parseCableCARD.
    destruct (parseNumbers Atoi parseCableCARD_switch kvs CableCARDStatus.new)
      as [a|e]; split; intros [x H]; try discriminate H; eexists; reflexivity.
  - rewrite <- (parseNumbers_ok Atoi _ parseDevice_switch kvs DeviceStatus.new).
    unfold parseDevice.
    destruct (parseNumbers Atoi parseDevice_switch kvs DeviceStatus.new)
      as [a|e]; split; intros [x H]; try discriminate H; eexists; reflexivity.
  - rewrite <- (parseNumbers_ok Atoi _ parseTransportStream_switch kvs
                  TransportStreamStatus.new).
    unfold parseTransportStream.
    destruct (parseNumbers Atoi parseTransportStream_switch kvs
                TransportStreamStatus.new)
      as [a|e]; split; intros [x H]; try discriminate H; eexists; reflexivity.
  - rewrite <- (parseNumbers_ok Atoi _ parseNetwork_switch kvs NetworkStatus.new).
    unfold parseNetwork.
    destruct (parseNumbers Atoi parseNetwork_switch kvs NetworkStatus.new)
      as [a|e]; split; intros [x H]; try discriminate H; eexists; reflexivity.
  - destruct (parseTuner_loop_ok Atoi kvs TunerStatus.new) as [_ I].
    rewrite <- I. unfold parseTuner.
    destruct (parseTuner_loop Atoi kvs TunerStatus.new)
      as [a|e|]; split; intros [x H]; try discriminate H; eexists; reflexivity.
Qed.

Lemma numeric_values_required_witness :
  (exists td', parseTuner example_Atoi TunerDebug.new
                 [(str "ch", str "8vsb:183000000"); (str "ss", str "100")]
               = Done td') /\
  ~ (exists td', parseDevice example_Atoi TunerDebug.new
                   [(str "ch", str "8vsb:183000000"); (str "bps", str "100")]
                 = Done td').
Proof.
  split.
  - apply (proj2 (proj2 (proj2 (proj2 (proj2
             (numeric_values_required example_Atoi TunerDebug.new
                [(str "ch", str "8vsb:183000000"); (str "ss", str "100")])))))).
    constructor; [intros [H | [H | H]]; discriminate H|].
    constructor; [intros _; exists 100; reflexivity | constructor].
  - intros H.
    apply (proj1 (proj1 (proj2
             (numeric_values_required example_Atoi TunerDebug.new
                [(str "ch", str "8vsb:183000000"); (str "bps", str "100")]))))
      in H.
    inversion H as [|kv kvs [n N] F]. discriminate N.
Defined.

(** X24.  A cc:, dev:, ts: or net: line that is accepted replaces the
    status of its kind by a fresh one and leaves the four others: each
    field of the new status is the number of the last pair of the line with
    the field's key, or zero when the line has no such pair, whatever the
    status held before. *)
Theorem numeric_status_values (Atoi : list byte -> Z + error) :
  (forall td kvs td',
     parseCableCARD Atoi td kvs = Done td' ->
     exists cc,
       td' = TunerDebug.mk (TunerDebug.Tuner td) (TunerDebug.Device td) (Some cc)
               (TunerDebug.TransportStream td) (TunerDebug.Network td) /\
       last_number Atoi (str "bps") kvs (CableCARDStatus.BitsPerSecond cc) /\
       last_number Atoi (str "resync") kvs (CableCARDStatus.Resync cc) /\
       last_number Atoi (str "overflow") kvs (CableCARDStatus.Overflow cc)) /\
  (forall td kvs td',
     parseDevice Atoi td kvs = Done td' ->
     exists dev,
       td' = TunerDebug.mk (TunerDebug.Tuner td) (Some dev)
               (TunerDebug.CableCARD td) (TunerDebug.TransportStream td)
               (TunerDebug.Network td) /\
       last_number Atoi (str "bps") kvs (DeviceStatus.BitsPerSecond dev) /\
       last_number Atoi (str "resync") kvs (DeviceStatus.Resync dev) /\
       last_number Atoi (str "overflow") kvs (DeviceStatus.Overflow dev)) /\
  (forall td kvs td',
     parseTransportStream Atoi td kvs = Done td' ->
     exists ts,
       td' = TunerDebug.mk (TunerDebug.Tuner td) (TunerDebug.Device td)
               (TunerDebug.CableCARD td) (Some ts) (TunerDebug.Network td) /\
       last_number Atoi (str "bps") kvs (TransportStreamStatus.BitsPerSecond ts) /\
       last_number Atoi (str "te") kvs (TransportStreamStatus.TransportErrors ts) /\
       last_number Atoi (str "crc") kvs (TransportStreamStatus.CRCErrors ts)) /\
  (forall td kvs td',
     parseNetwork Atoi td kvs = Done td' ->
     exists net,
       td' = TunerDebug.mk (TunerDebug.Tuner td) (TunerDebug.Device td)
               (TunerDebug.CableCARD td) (TunerDebug.TransportStream td)
               (Some net) /\
       last_number Atoi (str "pps") kvs (NetworkStatus.PacketsPerSecond net) /\
       last_number Atoi (str "err") kvs (NetworkStatus.Errors net) /\
       last_number Atoi (str "stop") kvs (NetworkStatus.Stop net)).
Proof.
  split; [|split; [|split]]; intros td kvs td' H.
  - unfold parseCableCARD in H.
    destruct (parseNumbers Atoi parseCableCARD_switch kvs CableCARDStatus.new)
      as [cc|e] eqn:N; [|discriminate H].
    injection H as <-. exists cc. split; [reflexivity|].
    split; [|split];
      (eapply parseNumbers_new; [| |exact N]; [switch_field | reflexivity]).
  - unfold parseDevice in H.
    destruct (parseNumbers Atoi parseDevice_switch kvs DeviceStatus.new)
      as [dev|e] eqn:N; [|discriminate H].
    injection H as <-. exists dev. split; [reflexivity|].
    split; [|split];
      (eapply parseNumbers_new; [| |exact N]; [switch_field | reflexivity]).
  - unfold parseTransportStream in H.
    destruct (parseNumbers Atoi parseTransportStream_switch kvs
                TransportStreamStatus.new) as [ts|e] eqn:N; [|discriminate H].
    injection H as <-. exists ts. split; [reflexivity|].
    split; [|split];
      (eapply parseNumbers_new; [| |exact N]; [switch_field | reflexivity]).
  - unfold parseNetwork in H.
    destruct (parseNumbers Atoi parseNetwork_switch kvs NetworkStatus.new)
      as [net|e] eqn:N; [|discriminate H].
    injection H as <-. exists net. split; [reflexivity|].
    split; [|split];
      (eapply parseNumbers_new; [| |exact N]; [switch_field | reflexivity]).
Qed.

Lemma numeric_status_values_witness :
  exists dev,
    TunerDebug.mk None (Some (DeviceStatus.mk 0 100 0)) None None None
    = TunerDebug.mk None (Some dev) None None None /\
    last_number example_Atoi (str "bps")
      [(str "bps", str "100"); (str "resync", str "100"); (str "bps", str "0")]
      (DeviceStatus.BitsPerSecond dev) /\
    last_number example_Atoi (str "resync")
      [(str "bps", str "100"); (str "resync", str "100"); (str "bps", str "0")]
      (DeviceStatus.Resync dev) /\
    last_number example_Atoi (str "overflow")
      [(str "bps", str "100"); (str "resync", str "100"); (str "bps", str "0")]
      (DeviceStatus.Overflow dev).
Proof.
  apply (proj1 (proj2 (numeric_status_values example_Atoi))
           TunerDebug.new
           [(str "bps", str "100"); (str "resync", str "100"); (str "bps", str "0")]
           (TunerDebug.mk None (Some (DeviceStatus.mk 0 100 0)) None None None)).
  reflexivity.
Defined.

(** X25.  A tun: line that is accepted replaces the tuner status by a fresh
    one and leaves the four other statuses: the channel, lock and debug
    texts are the values of the last ch, lock and dbg pairs of the line, or
    empty; the three qualities are the numbers of the last ss, snq and seq
    pairs, or zero. *)
Theorem tuner_status_values
        (Atoi : list byte -> Z + error)
        (td : TunerDebug.t) (kvs : list (list byte * list byte))
        (td' : TunerDebug.t) :
  parseTuner Atoi td kvs = Done td' ->
  exists cc,
    td' = TunerDebug.mk (Some cc) (TunerDebug.Device td) (TunerDebug.CableCARD td)
            (TunerDebug.TransportStream td) (TunerDebug.Network td) /\
    last_string (str "ch") kvs (TunerStatus.Channel cc) /\
    last_string (str "lock") kvs (TunerStatus.Lock cc) /\
    last_string (str "dbg") kvs (TunerStatus.Debug cc) /\
    last_number Atoi (str "ss") kvs (TunerStatus.SignalStrength cc) /\
    last_number Atoi (str "snq") kvs (TunerStatus.SignalToNoiseQuality cc) /\
    last_number Atoi (str "seq") kvs (TunerStatus.SymbolErrorQuality cc).
Proof.
  intros H. unfold parseTuner in H.
  destruct (parseTuner_loop Atoi kvs TunerStatus.new) as [cc|e|] eqn:L;
    try discriminate H.
  injection H as <-. exists cc. split; [reflexivity|].
  apply parseTuner_loop_fields in L.
  destruct L as [H1 [H2 [H3 [H4 [H5 H6]]]]].
  unfold last_string, last_number.
  split; [|split; [|split; [|split; [|split]]]].
  - destruct (last_value (str "ch") kvs); exact H1.
  - destruct (last_value (str "lock") kvs); exact H2.
  - destruct (last_value (str "dbg") kvs); exact H3.
  - destruct (last_value (str "ss") kvs); exact H4.
  - destruct (last_value (str "snq") kvs); exact H5.
  - destruct (last_value (str "seq") kvs); exact H6.
Qed.

Lemma tuner_status_values_witness :
  exists cc,
    TunerDebug.mk (Some (TunerStatus.mk (str "8vsb:183000000") [] 100 0 0 []))
      None None None None
    = TunerDebug.mk (Some cc) None None None None /\
    last_string (str "ch")
      [(str "ch", str "8vsb:183000000"); (str "ss", str "100")]
      (TunerStatus.Channel cc) /\
    last_string (str "lock")
      [(str "ch", str "8vsb:183000000"); (str "ss", str "100")]
      (TunerStatus.Lock cc) /\
    last_string (str "dbg")
      [(str "ch", str "8vsb:183000000"); (str "ss", str "100")]
      (TunerStatus.Debug cc) /\
    last_number example_Atoi (str "ss")
      [(str "ch", str "8vsb:183000000"); (str "ss", str "100")]
      (TunerStatus.SignalStrength cc) /\
    last_number example_Atoi (str "snq")
      [(str "ch", str "8vsb:183000000"); (str "ss", str "100")]
      (TunerStatus.SignalToNoiseQuality cc) /\
    last_number example_Atoi (str "seq")
      [(str "ch", str "8vsb:183000000"); (str "ss", str "100")]
      (TunerStatus.SymbolErrorQuality cc).
Proof.
  apply (tuner_status_values example_Atoi TunerDebug.new
           [(str "ch", str "8vsb:183000000"); (str "ss", str "100")]
           (TunerDebug.mk
              (Some (TunerStatus.mk (str "8vsb:183000000") [] 100 0 0 []))
              None None None None)).
  reflexivity.
Defined.
